(** * ROV control core: vehicle link, actuator interface, button docking

    A shallow embedding of [src/vehicle/vehicle_control.py] and
    [src/tasks/button_docking.py].  Python numbers are carried by their exact
    rational value; every float operation is the exact operation followed by
    binary64 round-to-nearest-even ([Float.fl64]).  Methods are functions in a
    state-and-exception monad: a raised exception keeps the mutations made
    before it, as in Python.  Everything a method sends out (Qt signals,
    MAVLink commands, closures handed to the thread pool) is appended to one
    chronological record, so that the order of effects can be stated.
    The two camera methods of [VehicleControl] are left out: they read
    [connected] and write only [camera_states], which nothing here reads. *)

From Stdlib Require Import ZArith QArith Qround Qpower Lia Lqa List String Bool.
From stdpp Require Import base list.

(* ================================================================== *)
(** * Part I: definitions *)
(* ================================================================== *)

(** ** Python floats *)

Module Float.
Local Open Scope Q_scope.

(** Round half to even, to an integer: Python's [round(x)] on a float and
    the significand rounding of IEEE 754. *)
Definition rne (x : Q) : Z :=
  let f := Qfloor x in
  match Qcompare (x - inject_Z f) (1 # 2) with
  | Lt => f
  | Gt => (f + 1)%Z
  | Eq => if Z.even f then f else (f + 1)%Z
  end.

(** [ilog2 x] is the binade of a positive [x]: [2^e <= x < 2^(e+1)]. *)
Definition ilog2 (x : Q) : Z :=
  if Qle_bool 1 x then Z.log2 (Qfloor x)
  else (- Z.log2_up (Qceiling (/ x)))%Z.

(** Exponent of the unit in the last place: 53 bits of precision, and the
    subnormal grid [2^-1074] at the bottom. *)
Definition ulp_exp (x : Q) : Z := Z.max (ilog2 x - 52) (-1074).

Definition round_pos (x : Q) : Q :=
  let s := ulp_exp x in inject_Z (rne (x / 2 ^ s)) * 2 ^ s.

(** The binary64 number nearest to [x] (sign and magnitude, ties to even).
    Overflow to infinity is not represented: the quantities of this program
    (pixel counts, timestamps, inputs in [-1, 1]) stay far below [2^1024]. *)
Definition fl64 (x : Q) : Q :=
  match Qcompare x 0 with
  | Eq => 0
  | Gt => round_pos x
  | Lt => - round_pos (- x)
  end.

Definition fadd (a b : Q) : Q := fl64 (a + b).
Definition fsub (a b : Q) : Q := fl64 (a - b).
Definition fmul (a b : Q) : Q := fl64 (a * b).
(** [a / b] on floats, and on ints: [None] is [ZeroDivisionError]. *)
Definition fdiv (a b : Q) : option Q :=
  if Qeq_bool b 0 then None else Some (fl64 (a / b)).
Definition fneg (a : Q) : Q := - a.
(** [float(n)] for an int operand of a mixed operation. *)
Definition float_of_int (n : Z) : Q := fl64 (inject_Z n).
(** [max(a, b)]: the first argument unless the second is greater. *)
Definition fmax (a b : Q) : Q := if Qle_bool b a then a else b.
(** [round(x)] with one argument: an int, ties to even. *)
Definition py_round (x : Q) : Z := rne x.
(** [int(x)]: truncation toward zero. *)
Definition py_int (x : Q) : Z := Z.quot (Qnum x) (Zpos (Qden x)).

Definition Qlt_bool (a b : Q) : bool := negb (Qle_bool b a).

End Float.

(** ** Exceptions and the method monad *)

Inductive exn : Type :=
| ValueError_input (val : Q)
    (* "Inputs must be between -1 and 1, not {val}" *)
| ValueError_channel (channel_id : Z)
    (* "Channel id does not exist: {channel_id}" *)
| ValueError_pwm (pwm : Z)
    (* "PWM values must be between 1100 and 1900, not f{pwm}" *)
| ValueError_math_domain
| ZeroDivisionError
| TypeError.

(** The two error kinds of the specification are both raised as
    [ValueError]; the message tells them apart. *)
Definition is_OutOfRangeError (e : exn) : bool :=
  match e with
  | ValueError_input _ | ValueError_pwm _ => true
  | _ => false
  end.

Definition is_InvalidChannelError (e : exn) : bool :=
  match e with
  | ValueError_channel _ => true
  | _ => false
  end.

Inductive result (A : Type) : Type :=
| Ok (a : A)
| Raise (e : exn).
Arguments Ok {A} a.
Arguments Raise {A} e.

Definition M (S A : Type) : Type := S -> result A * S.

Definition ret {S A} (a : A) : M S A := fun s => (Ok a, s).
Definition raise {S A} (e : exn) : M S A := fun s => (Raise e, s).
Definition bind {S A B} (m : M S A) (k : A -> M S B) : M S B :=
  fun s => match m s with
           | (Ok a, s') => k a s'
           | (Raise e, s') => (Raise e, s')
           end.
Definition gets {S A} (f : S -> A) : M S A := fun s => (Ok (f s), s).
Definition modify {S} (f : S -> S) : M S unit := fun s => (Ok tt, f s).
Definition when {S} (b : bool) (m : M S unit) : M S unit :=
  if b then m else ret tt.
Definition of_option {S A} (e : exn) (o : option A) : M S A :=
  match o with Some a => ret a | None => raise e end.

Declare Scope py_scope.
Delimit Scope py_scope with py.
Notation "x <- m ;; k" := (bind m (fun x => k))
  (at level 100, m at next level, right associativity) : py_scope.
Notation "m ;; k" := (bind m (fun _ => k))
  (at level 100, right associativity) : py_scope.

(** A Python [dict]: the items in insertion order, keys distinct.
    [d[k] = v] overwrites in place or appends. *)
Fixpoint dict_set {K V} (eqb : K -> K -> bool) (k : K) (v : V)
    (d : list (K * V)) : list (K * V) :=
  match d with
  | [] => [(k, v)]
  | (k', v') :: d' =>
      if eqb k k' then (k, v) :: d' else (k', v') :: dict_set eqb k v d'
  end.

Fixpoint dict_get {K V} (eqb : K -> K -> bool) (k : K)
    (d : list (K * V)) : option V :=
  match d with
  | [] => None
  | (k', v) :: d' => if eqb k k' then Some v else dict_get eqb k d'
  end.

(** ** vehicle/constants.py and the MAVLink link

    [vehicle/constants.py] is not among the sources.  [InputChannel] has the
    six members the code names; their [.value]s and the members of [Relay]
    are parameters.  The link's [mode_mapping()] table is a parameter too. *)

Inductive InputChannel : Type :=
| FORWARD | LATERAL | THROTTLE | YAW | PITCH | ROLL.

Class Constants : Type := {
  channel_value : InputChannel -> Z;   (* InputChannel.X.value *)
  Relay_members : list Z;              (* [r.value for r in Relay] *)
  mode_mapping : list (string * Z);    (* link.mode_mapping().items() *)
}.

(** The channel numbering of the ArduSub firmware, and two relays. *)
Definition ardusub_channel (c : InputChannel) : Z :=
  match c with
  | PITCH => 1 | ROLL => 2 | THROTTLE => 3
  | YAW => 4 | FORWARD => 5 | LATERAL => 6
  end.

Definition ardusub : Constants := {|
  channel_value := ardusub_channel;
  Relay_members := [0%Z; 1%Z];
  mode_mapping := [("MANUAL"%string, 19%Z); ("ALT_HOLD"%string, 2%Z)];
|}.

(** ** VehicleControl *)

Module VehicleControl.
Import Float.
Local Open Scope Z_scope.

Definition TIMEOUT : Q := 2.

Inductive signal : Type :=
| connected_signal
| disconnected_signal
| armed_signal
| disarmed_signal
| mode_signal (mode : option string)
| depth_update_signal (alt : Q).

Inductive link_command : Type :=
| arducopter_arm
| arducopter_disarm
| rc_channels_override_send (rc_channel_values : list Z)
| link_set_mode (mode_id : Z).

(** One entry of the chronological record of what left the object. *)
Inductive effect : Type :=
| Emit (s : signal)                      (* signal.emit(...) *)
| Send (c : link_command)                (* self.link.... *)
| Start (relay : Z) (state : bool).      (* self._thread_manager.start(task) *)

Record heartbeat : Type := {
  base_mode : Z;
  custom_mode : Z;
}.

Record t : Type := mk {
  last_msg_time : option Q;
  connected : bool;
  armed : bool;
  mode_id : option Z;
  mode : option string;
  record : list effect;
}.

(** [__init__] *)
Definition init : t := {|
  last_msg_time := None;
  connected := false;
  armed := false;
  mode_id := None;
  mode := None;
  record := [];
|}.

Definition set_last_msg_time (x : option Q) (s : t) : t :=
  mk x (connected s) (armed s) (mode_id s) (mode s) (record s).
Definition set_connected (x : bool) (s : t) : t :=
  mk (last_msg_time s) x (armed s) (mode_id s) (mode s) (record s).
Definition set_armed (x : bool) (s : t) : t :=
  mk (last_msg_time s) (connected s) x (mode_id s) (mode s) (record s).
Definition set_mode_id (x : option Z) (s : t) : t :=
  mk (last_msg_time s) (connected s) (armed s) x (mode s) (record s).
Definition set_mode_name (x : option string) (s : t) : t :=
  mk (last_msg_time s) (connected s) (armed s) (mode_id s) x (record s).
Definition log_effect (e : effect) (s : t) : t :=
  mk (last_msg_time s) (connected s) (armed s) (mode_id s) (mode s)
     (record s ++ [e]).

Definition emit (sg : signal) : M t unit := modify (log_effect (Emit sg)).
Definition send (c : link_command) : M t unit := modify (log_effect (Send c)).

Definition option_Z_eqb (a b : option Z) : bool :=
  match a, b with
  | Some x, Some y => x =? y
  | None, None => true
  | _, _ => false
  end.

Section WithConstants.
Context `{Constants}.
Local Open Scope py_scope.

(** The loop of [update] that resolves a mode id to its name. *)
Fixpoint find_mode (mapping : list (string * Z)) (id : Z) : option string :=
  match mapping with
  | [] => None
  | (m, m_id) :: rest => if m_id =? id then Some m else find_mode rest id
  end.

(** [update]: [msg] is what [wait_heartbeat(blocking=False)] returned,
    [hud] the [alt] of the pending VFR_HUD message if any, [now] the
    reading of [time.time()]. *)
Definition update (msg : option heartbeat) (hud : option Q) (now : Q)
    : M t unit :=
  match msg with
  | Some hb =>
      c <- gets connected ;;
      when (negb c) (emit connected_signal ;; modify (set_connected true)) ;;
      modify (set_last_msg_time (Some now)) ;;
      let armed' := Z.land (base_mode hb) 128 =? 128 in
      a <- gets armed ;;
      when (negb (Bool.eqb armed' a))
        ((if armed' then emit armed_signal else emit disarmed_signal) ;;
         modify (set_armed armed')) ;;
      let mode_id' := custom_mode hb in
      old <- gets mode_id ;;
      when (negb (option_Z_eqb (Some mode_id') old))
        (let mode' := find_mode mode_mapping mode_id' in
         modify (set_mode_id (Some mode_id')) ;;
         modify (set_mode_name mode') ;;
         emit (mode_signal mode'))
  | None =>
      c <- gets connected ;;
      if c then
        last <- gets last_msg_time ;;
        last <- of_option TypeError last ;;
        when (Qlt_bool TIMEOUT (fsub now last))
          (emit disconnected_signal ;; modify (set_connected false))
      else ret tt
  end ;;
  match hud with
  | Some alt => emit (depth_update_signal alt)
  | None => ret tt
  end.

Definition arm : M t unit := send arducopter_arm.

Definition is_connected (s : t) : bool := connected s.
Definition is_armed (s : t) : bool := armed s.

(** The loop of [set_rc_input_pwms] over [pwms.items()]. *)
Fixpoint fill_channels (items : list (Z * Z)) (rc_channel_values : list Z)
    : result (list Z) :=
  match items with
  | [] => Ok rc_channel_values
  | (channel_id, pwm) :: rest =>
      if (channel_id <? 1) || (channel_id >? 18) then
        Raise (ValueError_channel channel_id)
      else if negb ((1100 <=? pwm) && (pwm <=? 1900)) then
        Raise (ValueError_pwm pwm)
      else
        fill_channels rest
          (<[Z.to_nat (channel_id - 1) := pwm]> rc_channel_values)
  end.

Definition set_rc_input_pwms (pwms : list (Z * Z)) : M t unit :=
  c <- gets is_connected ;;
  a <- gets is_armed ;;
  if negb c || negb a then ret tt
  else
    match fill_channels pwms (replicate 18 65535) with
    | Raise e => raise e
    | Ok rc_channel_values => send (rc_channels_override_send rc_channel_values)
    end.

(** [round(val * 400 + 1500)] *)
Definition raw_pwm (val : Q) : Z := py_round (fadd (fmul val 400) 1500).
(** [min(max(pwm, 1100), 1900)] *)
Definition clamp_pwm (pwm : Z) : Z := Z.min (Z.max pwm 1100) 1900.

(** The command computed for one input by the two lines above. *)
Definition pwm_of (val : Q) : Z := clamp_pwm (raw_pwm val).

(** [-1 <= val <= 1] *)
Definition in_range (val : Q) : bool := Qle_bool (-1) val && Qle_bool val 1.

(** The loop of [set_rc_inputs] over [values.items()], building [pwms]. *)
Fixpoint build_pwms (items : list (InputChannel * Q)) (pwms : list (Z * Z))
    : result (list (Z * Z)) :=
  match items with
  | [] => Ok pwms
  | (channel, val) :: rest =>
      if negb (in_range val) then Raise (ValueError_input val)
      else
        let pwm := raw_pwm val in
        let pwm := clamp_pwm pwm in
        build_pwms rest (dict_set Z.eqb (channel_value channel) pwm pwms)
  end.

Definition set_rc_inputs (values : list (InputChannel * Q)) : M t unit :=
  match build_pwms values [] with
  | Raise e => raise e
  | Ok pwms => set_rc_input_pwms pwms
  end.

Definition stop_thrusters : M t unit :=
  set_rc_inputs
    [(FORWARD, 0%Q); (LATERAL, 0%Q); (THROTTLE, 0%Q);
     (YAW, 0%Q); (PITCH, 0%Q); (ROLL, 0%Q)].

Definition set_mode (mode : string) : M t unit :=
  match dict_get String.eqb mode mode_mapping with
  | Some mode_id => send (link_set_mode mode_id)
  | None => ret tt
  end.

Definition set_relay (relay : Z) (state : bool) : M t unit :=
  c <- gets is_connected ;;
  a <- gets is_armed ;;
  if negb c || (negb a && state) then ret tt
  else modify (log_effect (Start relay state)).

Fixpoint for_each {A} (l : list A) (body : A -> M t unit) : M t unit :=
  match l with
  | [] => ret tt
  | x :: rest => body x ;; for_each rest body
  end.

Definition turn_off_relays : M t unit :=
  for_each Relay_members (fun relay => set_relay relay false).

Definition disarm : M t unit :=
  turn_off_relays ;;
  send arducopter_disarm.

(** Calls a client can make on the object, and the states they reach. *)
Inductive call : Type :=
| c_update (msg : option heartbeat) (hud : option Q) (now : Q)
| c_arm
| c_disarm
| c_set_rc_input_pwms (pwms : list (Z * Z))
| c_set_rc_inputs (values : list (InputChannel * Q))
| c_stop_thrusters
| c_set_mode (mode : string)
| c_set_relay (relay : Z) (state : bool)
| c_turn_off_relays.

Definition perform (c : call) : M t unit :=
  match c with
  | c_update msg hud now => update msg hud now
  | c_arm => arm
  | c_disarm => disarm
  | c_set_rc_input_pwms pwms => set_rc_input_pwms pwms
  | c_set_rc_inputs values => set_rc_inputs values
  | c_stop_thrusters => stop_thrusters
  | c_set_mode m => set_mode m
  | c_set_relay relay state => set_relay relay state
  | c_turn_off_relays => turn_off_relays
  end.

Definition run (cs : list call) (s : t) : t :=
  fold_left (fun s c => snd (perform c s)) cs s.

Definition reachable (s : t) : Prop := exists cs, s = run cs init.

End WithConstants.

(** Readings of the record. *)
Definition is_disconnect (e : effect) : bool :=
  match e with Emit disconnected_signal => true | _ => false end.

Definition is_relay_off (e : effect) : bool :=
  match e with Start _ false => true | _ => false end.

Definition is_disarm (e : effect) : bool :=
  match e with Send arducopter_disarm => true | _ => false end.

Definition count_disconnects (l : list effect) : nat :=
  length (List.filter is_disconnect l).

(** An item of [pwms] that passes both checks of [set_rc_input_pwms], and
    the exception raised for one that does not: the channel check is made
    first. *)
Definition valid_item (item : Z * Z) : Prop :=
  (1 <= fst item <= 18)%Z /\ (1100 <= snd item <= 1900)%Z.

Definition item_error (item : Z * Z) : exn :=
  if ((fst item <? 1) || (fst item >? 18))%Z
  then ValueError_channel (fst item)
  else ValueError_pwm (snd item).

(** A heartbeat with the armed bit (0x80) set, and the object once such a
    heartbeat has been received at time 10: connected and armed. *)
Definition armed_heartbeat : heartbeat :=
  {| base_mode := 209; custom_mode := 19 |}.

Definition linked_armed : t :=
  snd (@update ardusub (Some armed_heartbeat) None 10%Q init).

(** The same after a heartbeat without the armed bit: connected, disarmed. *)
Definition linked_disarmed : t :=
  snd (@update ardusub (Some {| base_mode := 81; custom_mode := 19 |})
         None 10%Q init).

(** Polls that find no heartbeat: [(hud, now)] for each. *)
Definition silent_polls (ps : list (option Q * Q)) : list call :=
  map (fun p => c_update None (fst p) (snd p)) ps.

(** Several entries appended to the record at once. *)
Definition add_effects (l : list effect) (s : t) : t :=
  mk (last_msg_time s) (connected s) (armed s) (mode_id s) (mode s)
     (record s ++ l).

(** The relay-off closures [turn_off_relays] hands to the thread pool. *)
Definition relay_offs (relays : list Z) : list effect :=
  map (fun relay => Start relay false) relays.

(** The depth event of a poll, if a VFR_HUD message was pending. *)
Definition depth_event (hud : option Q) : list effect :=
  match hud with
  | Some alt => [Emit (depth_update_signal alt)]
  | None => []
  end.

(** The invariant behind the subtraction in [update]. *)
Definition has_timestamp (s : t) : Prop :=
  connected s = true -> last_msg_time s <> None.

(** What a call appended to the record. *)
Definition issued (before after : t) : list effect :=
  drop (length (record before)) (record after).

End VehicleControl.

(** ** ButtonDocking *)

(** [math.log] is the C library's logarithm on doubles; only its domain
    (positive arguments) is fixed here. *)
Class Libm : Type := {
  math_log : Q -> Q;
}.

(** A logarithm stand-in for examples: the binade of the argument. *)
Definition binade_log : Libm := {|
  math_log := fun x => inject_Z (Float.ilog2 x);
|}.

Module ButtonDocking.
Import Float.
Local Open Scope Z_scope.

(** Float literals denote the nearest binary64 number. *)
Definition TRANSLATION_SENSITIVITY : Q := Eval vm_compute in Qred (fl64 (45 # 100)).
Definition ROTATIONAL_SENSITIVITY : Q := Eval vm_compute in Qred (fl64 (55 # 100)).

Definition MAX_TASK_DURATION : Q := 500.
Definition MIN_TASK_DURATION : Q := 2.

Definition CRAWL_SPEED : Q := Eval vm_compute in Qred (fl64 (4 # 10)).
Definition FORWARD_SPEED : Q := Eval vm_compute in Qred (fl64 (9 # 10)).
Definition RAM_SPEED : Q := Eval vm_compute in Qred (fl64 (9 # 10)).

Definition START_WIDTH_FRACTION : Q := Eval vm_compute in Qred (fl64 (35 # 1000)).
Definition START_HEIGHT_FRACTION : Q := Eval vm_compute in Qred (fl64 (35 # 1000)).
Definition STOP_WIDTH_FRACTION : Q := Eval vm_compute in Qred (fl64 (15 # 100)).
Definition STOP_HEIGHT_FRACTION : Q := Eval vm_compute in Qred (fl64 (15 # 100)).
Definition END_WIDTH_FRACTION : Q := Eval vm_compute in Qred (fl64 (3 # 10)).
Definition END_HEIGHT_FRACTION : Q := Eval vm_compute in Qred (fl64 (3 # 10)).

(** The literals [0.1], [0.4] and [-0.08] of [periodic] and [vertical_move]. *)
Definition lit_0_1 : Q := Eval vm_compute in Qred (fl64 (1 # 10)).
Definition lit_0_4 : Q := Eval vm_compute in Qred (fl64 (4 # 10)).
Definition lit_m0_08 : Q := Eval vm_compute in Qred (fl64 (- 8 # 100)).

Record t : Type := mk {
  button_pos : Q * Q;
  button_dims : Z * Z;
  image_dims : Z * Z;
  start_time : Q;
  state : Z;                       (* 0 = crawl, 1 = steer, 2 = ram *)
  vehicle : VehicleControl.t;      (* the shared VehicleControl object *)
}.

(** [__init__] *)
Definition init (v : VehicleControl.t) : t := {|
  button_pos := ((-1)%Q, (-1)%Q);
  button_dims := (-1, -1);
  image_dims := (-1, -1);
  start_time := 0%Q;
  state := 0;
  vehicle := v;
|}.

Definition set_button_pos (x : Q * Q) (s : t) : t :=
  mk x (button_dims s) (image_dims s) (start_time s) (state s) (vehicle s).
Definition set_button_dims (x : Z * Z) (s : t) : t :=
  mk (button_pos s) x (image_dims s) (start_time s) (state s) (vehicle s).
Definition set_image_dims (x : Z * Z) (s : t) : t :=
  mk (button_pos s) (button_dims s) x (start_time s) (state s) (vehicle s).
Definition set_start_time (x : Q) (s : t) : t :=
  mk (button_pos s) (button_dims s) (image_dims s) x (state s) (vehicle s).
Definition set_state (x : Z) (s : t) : t :=
  mk (button_pos s) (button_dims s) (image_dims s) (start_time s) x (vehicle s).
Definition set_vehicle (x : VehicleControl.t) (s : t) : t :=
  mk (button_pos s) (button_dims s) (image_dims s) (start_time s) (state s) x.

(** A method call on [self.vehicle]. *)
Definition on_vehicle {A} (m : M VehicleControl.t A) : M t A :=
  fun s => let (r, v) := m (vehicle s) in (r, set_vehicle v s).

(** What [handle_frame] gets from the detector and from the frame:
    [get_button_contour]'s score, [cv2.boundingRect(best_contour)] and
    [frame.cv_img.shape]. *)
Record detection : Type := {
  high_score : Z;
  bounding_rect : Z * Z * Z * Z;     (* x, y, w, h *)
  shape : Z * Z;                     (* height, width *)
}.

Section WithConstants.
Context `{Constants} `{Libm}.
Local Open Scope py_scope.

Definition initialize (now : Q) : M t unit :=
  on_vehicle VehicleControl.stop_thrusters ;;
  modify (set_start_time now) ;;
  on_vehicle (VehicleControl.set_mode "ALT_HOLD") ;;
  modify (set_state 0).

(** [self.button_dims[i] >= FRACTION * self.image_dims[i]] *)
Definition reaches (dim : Z) (fraction : Q) (frame : Z) : bool :=
  Qle_bool (fmul fraction (float_of_int frame)) (inject_Z dim).

(** [self.button_dims[i] > FRACTION * self.image_dims[i]] *)
Definition exceeds (dim : Z) (fraction : Q) (frame : Z) : bool :=
  Qlt_bool (fmul fraction (float_of_int frame)) (inject_Z dim).

Definition horizontal_move : M t Q :=
  pos <- gets button_pos ;;
  dims <- gets image_dims ;;
  half <- of_option ZeroDivisionError (fdiv (inject_Z (fst dims)) 2) ;;
  half' <- of_option ZeroDivisionError (fdiv (inject_Z (fst dims)) 2) ;;
  of_option ZeroDivisionError (fdiv (fsub (fst pos) half) half').

Definition vertical_move : M t Q :=
  pos <- gets button_pos ;;
  dims <- gets image_dims ;;
  let aim := fmul (float_of_int (snd dims)) lit_0_4 in
  let num := fmul (-1) (fsub (snd pos) aim) in
  half <- of_option ZeroDivisionError (fdiv (inject_Z (snd dims)) 2) ;;
  of_option ZeroDivisionError (fdiv num half).

(** [max(-math.log(self.button_dims[0] / self.image_dims[0]) / 10, 0.1)] *)
Definition scale_of (bdims idims : Z * Z) : M t Q :=
  ratio <- of_option ZeroDivisionError
             (fdiv (inject_Z (fst bdims)) (inject_Z (fst idims))) ;;
  lg <- (if Qle_bool ratio 0 then raise ValueError_math_domain
         else ret (math_log ratio)) ;;
  tenth <- of_option ZeroDivisionError (fdiv (fneg lg) 10) ;;
  ret (fmax tenth lit_0_1).

Definition periodic : M t unit :=
  pos <- gets button_pos ;;
  if Qeq_bool (fst pos) (-1) && Qeq_bool (snd pos) (-1) then ret tt
  else
    bdims <- gets button_dims ;;
    idims <- gets image_dims ;;
    scale <- scale_of bdims idims ;;
    st <- gets state ;;
    if st =? 0 then
      when (reaches (fst bdims) START_WIDTH_FRACTION (fst idims)
            || reaches (snd bdims) START_HEIGHT_FRACTION (snd idims))
        (modify (set_state 1) ;;
         on_vehicle (VehicleControl.set_mode "MANUAL")) ;;
      on_vehicle (VehicleControl.set_rc_inputs
        [(FORWARD, CRAWL_SPEED); (LATERAL, 0%Q); (THROTTLE, 0%Q);
         (PITCH, 0%Q); (YAW, 0%Q); (ROLL, 0%Q)])
    else if st =? 1 then
      when (reaches (fst bdims) STOP_WIDTH_FRACTION (fst idims)
            || reaches (snd bdims) STOP_HEIGHT_FRACTION (snd idims))
        (modify (set_state 2)) ;;
      v1 <- vertical_move ;;
      v2 <- vertical_move ;;
      h <- horizontal_move ;;
      on_vehicle (VehicleControl.set_rc_inputs
        [(FORWARD, fmul scale FORWARD_SPEED);
         (LATERAL, 0%Q);
         (THROTTLE, fmul (fmul v1 scale) TRANSLATION_SENSITIVITY);
         (PITCH, fmul (fmul v2 scale) ROTATIONAL_SENSITIVITY);
         (YAW, fmul (fmul h scale) ROTATIONAL_SENSITIVITY);
         (ROLL, 0%Q)])
    else if st =? 2 then
      on_vehicle (VehicleControl.set_rc_inputs
        [(FORWARD, RAM_SPEED); (LATERAL, 0%Q); (THROTTLE, lit_m0_08);
         (PITCH, 0%Q); (YAW, 0%Q); (ROLL, 0%Q)])
    else ret tt.

Definition handle_frame (d : detection) : M t unit :=
  when (0 <? high_score d)
    (let '(x, y, w, h) := bounding_rect d in
     let '(height, width) := shape d in
     half_w <- of_option ZeroDivisionError (fdiv (inject_Z w) 2) ;;
     half_h <- of_option ZeroDivisionError (fdiv (inject_Z h) 2) ;;
     modify (set_button_pos (fadd (float_of_int x) half_w,
                             fadd (float_of_int y) half_h)) ;;
     modify (set_button_dims (w, h)) ;;
     half_width <- of_option ZeroDivisionError (fdiv (inject_Z width) 2) ;;
     modify (set_image_dims (py_int half_width, height))).

(** [is_finished]: [now] and [now'] are the two readings of [time.time()],
    the second taken only when the conjunction reaches it. *)
Definition is_finished (now now' : Q) (s : t) : bool :=
  Qle_bool (fadd (start_time s) MIN_TASK_DURATION) now
  && (exceeds (fst (button_dims s)) END_WIDTH_FRACTION (fst (image_dims s))
      || exceeds (snd (button_dims s)) END_HEIGHT_FRACTION (snd (image_dims s))
      || Qle_bool (fadd (start_time s) MAX_TASK_DURATION) now').

Definition end_ : M t unit :=
  on_vehicle (VehicleControl.set_mode "MANUAL") ;;
  on_vehicle VehicleControl.stop_thrusters.

(** What can happen to a task between its construction and its retirement:
    the scheduler's calls, frames from the video thread, and any call made
    by others on the shared vehicle object. *)
Inductive event : Type :=
| e_initialize (now : Q)
| e_periodic
| e_handle_frame (d : detection)
| e_end
| e_vehicle (c : VehicleControl.call).

Definition step (e : event) : M t unit :=
  match e with
  | e_initialize now => initialize now
  | e_periodic => periodic
  | e_handle_frame d => handle_frame d
  | e_end => end_
  | e_vehicle c => on_vehicle (VehicleControl.perform c)
  end.

Definition run (es : list event) (s : t) : t :=
  fold_left (fun s e => snd (step e s)) es s.

End WithConstants.

(** A frame in which the detector found nothing: [best_contour] is [None]
    and the score is [0]. *)
Definition no_target (e : event) : Prop :=
  match e with
  | e_handle_frame d => high_score d <= 0
  | _ => True
  end.

(** No target has been observed yet: the fields still hold the sentinels
    of [__init__]. *)
Definition unobserved (s : t) : Prop :=
  button_pos s = ((-1)%Q, (-1)%Q) /\
  button_dims s = (-1, -1) /\ image_dims s = (-1, -1).

(** The guard of [periodic]: [self.button_pos == [-1, -1]]. *)
Definition no_position (s : t) : bool :=
  Qeq_bool (fst (button_pos s)) (-1) && Qeq_bool (snd (button_pos s)) (-1).

(** The two phase conditions of [periodic]. *)
Definition start_reached (s : t) : bool :=
  reaches (fst (button_dims s)) START_WIDTH_FRACTION (fst (image_dims s))
  || reaches (snd (button_dims s)) START_HEIGHT_FRACTION (snd (image_dims s)).

Definition stop_reached (s : t) : bool :=
  reaches (fst (button_dims s)) STOP_WIDTH_FRACTION (fst (image_dims s))
  || reaches (snd (button_dims s)) STOP_HEIGHT_FRACTION (snd (image_dims s)).

(** The scheduler's ticks and the frames: everything but [initialize]. *)
Definition after_initialize (e : event) : Prop :=
  match e with
  | e_initialize _ => False
  | _ => True
  end.

End ButtonDocking.

(** ** Sequences of polls and what they emit *)

Module Polls.
Import VehicleControl.
Local Open Scope Z_scope.

(** The armed bit of a heartbeat: [base_mode & 0x80 == 0x80]. *)
Definition armed_bit (hb : heartbeat) : bool :=
  Z.land (base_mode hb) 128 =? 128.

(** One call of [update]: the heartbeat read, if any, the altitude of the
    VFR_HUD message read, if any, and the clock. *)
Definition poll : Type := option heartbeat * option Q * Q.

Definition poll_call (p : poll) : call :=
  let '(msg, hud, now) := p in c_update msg hud now.

(** The armed bits reported by the heartbeats of a sequence of polls. *)
Fixpoint reported_bits (ps : list poll) : list bool :=
  match ps with
  | [] => []
  | (Some hb, _, _) :: rest => armed_bit hb :: reported_bits rest
  | (None, _, _) :: rest => reported_bits rest
  end.

(** How often a sequence of bits differs from the bit before it. *)
Fixpoint flips (current : bool) (bits : list bool) : nat :=
  match bits with
  | [] => 0
  | b :: rest => (if Bool.eqb b current then 0 else 1) + flips b rest
  end.

Definition is_arm_event (e : effect) : bool :=
  match e with
  | Emit armed_signal | Emit disarmed_signal => true
  | _ => false
  end.

Definition is_connect (e : effect) : bool :=
  match e with Emit connected_signal => true | _ => false end.

Definition is_signal (e : effect) : bool :=
  match e with Emit _ => true | _ => false end.

Definition count (f : effect -> bool) (l : list effect) : nat :=
  length (List.filter f l).

(** The calls that are gated on the link: the RC override path and the
    relays. *)
Definition needs_link (c : call) : bool :=
  match c with
  | c_set_rc_input_pwms _ | c_set_rc_inputs _ | c_stop_thrusters
  | c_set_relay _ _ | c_turn_off_relays => true
  | _ => false
  end.

Definition is_update (c : call) : bool :=
  match c with c_update _ _ _ => true | _ => false end.

Section WithConstants.
Context `{Constants}.

(** The signals of a poll that reads the heartbeat [hb], in the order of
    the statements of [update]. *)
Definition heartbeat_events (hb : heartbeat) (hud : option Q) (s : t)
    : list effect :=
  (if connected s then [] else [Emit connected_signal]) ++
  (if Bool.eqb (armed_bit hb) (armed s) then []
   else [Emit (if armed_bit hb then armed_signal else disarmed_signal)]) ++
  (if option_Z_eqb (Some (custom_mode hb)) (mode_id s) then []
   else [Emit (mode_signal (find_mode mode_mapping (custom_mode hb)))]) ++
  depth_event hud.

End WithConstants.
End Polls.

(** ** The detector's selection loop *)

Module Perception.
Import Float ButtonDocking.
Local Open Scope Z_scope.

Section WithContours.
(** OpenCV's contours are opaque here; [cv2.boundingRect] gives the box
    [(x, y, w, h)] of each. *)
Context {contour : Type} (boundingRect : contour -> Z * Z * Z * Z).

(** The loop of [get_button_contour] over the contours found, from the
    running [high_score] and [best_contour]. *)
Fixpoint best_of (width height : Z) (contours : list contour)
    (high_score : Z) (best_contour : option contour) : option contour * Z :=
  match contours with
  | [] => (best_contour, high_score)
  | c :: rest =>
      let '(x, y, w, h) := boundingRect c in
      if (w <? width) && (h <? height) && (w * h >? high_score)
      then best_of width height rest (w * h) (Some c)
      else best_of width height rest high_score best_contour
  end.

(** [int(w / 2)] *)
Definition half_of (w : Z) : Z :=
  match fdiv (inject_Z w) 2 with
  | Some q => py_int q
  | None => 0
  end.

(** [get_button_contour] from the shape [(h, w)] of the frame and the
    contours OpenCV finds in its right half [cv_img[:, int(w/2):w]], whose
    shape is [(h, w - int(w/2))]. *)
Definition get_button_contour (frame_shape : Z * Z) (contours : list contour)
    : option contour * Z :=
  let '(h, w) := frame_shape in
  let width := w - half_of w in
  let height := h in
  best_of width height contours 0 None.

(** What [handle_frame] works with for a frame: the score, the box of the
    best contour when there is one, the shape. *)
Definition observe (frame_shape : Z * Z) (contours : list contour)
    : detection :=
  let (best_contour, score) := get_button_contour frame_shape contours in
  {| high_score := score;
     bounding_rect := match best_contour with
                      | Some c => boundingRect c
                      | None => (0, 0, 0, 0)
                      end;
     shape := frame_shape |}.

(** A contour that passes the size test of the loop. *)
Definition fits (width height : Z) (c : contour) : Prop :=
  let '(x, y, w, h) := boundingRect c in w < width /\ h < height.

Definition area (c : contour) : Z :=
  let '(x, y, w, h) := boundingRect c in w * h.

(** OpenCV's boxes have non-negative corners and sizes. *)
Definition rect_nonneg (c : contour) : Prop :=
  let '(x, y, w, h) := boundingRect c in 0 <= x /\ 0 <= y /\ 0 <= w /\ 0 <= h.

End WithContours.
End Perception.

(** ** PixelSelector and QPixelSelector (vision/stereo/pixels.py)

    The two classes have the same fields and the same [_clamp_view]; the
    first is driven by OpenCV keys and mouse events, the second by Qt mouse
    and wheel events.  One state and one event type carry both. *)

Module PixelSelector.
Import Float.
Local Open Scope Z_scope.

Definition WIN_SIZE : Z := 600.

Inductive Side : Type := LEFT | RIGHT.

Record t : Type := mk {
  view_size : Z;
  view_xl : Z;
  view_xr : Z;
  view_y : Z;
  dragging : bool;
  drag_side : option Side;
  drag_mouse_x : Z;
  drag_mouse_y : Z;
  drag_view_x : Z;
  drag_view_y : Z;
  target_xl : Z;
  target_xr : Z;
  target_y : Z;
  img_width : Z;
  img_height : Z;
}.

(** The class attributes, and the image size set by [__init__]. *)
Definition init (width height : Z) : t := {|
  view_size := 300;
  view_xl := 0; view_xr := 0; view_y := 0;
  dragging := false; drag_side := None;
  drag_mouse_x := 0; drag_mouse_y := 0;
  drag_view_x := 0; drag_view_y := 0;
  target_xl := 50; target_xr := 50; target_y := 50;
  img_width := width; img_height := height;
|}.

Definition set_view_size (x : Z) (s : t) : t :=
  mk x (view_xl s) (view_xr s) (view_y s) (dragging s) (drag_side s)
     (drag_mouse_x s) (drag_mouse_y s) (drag_view_x s) (drag_view_y s)
     (target_xl s) (target_xr s) (target_y s) (img_width s) (img_height s).
Definition set_view_xl (x : Z) (s : t) : t :=
  mk (view_size s) x (view_xr s) (view_y s) (dragging s) (drag_side s)
     (drag_mouse_x s) (drag_mouse_y s) (drag_view_x s) (drag_view_y s)
     (target_xl s) (target_xr s) (target_y s) (img_width s) (img_height s).
Definition set_view_xr (x : Z) (s : t) : t :=
  mk (view_size s) (view_xl s) x (view_y s) (dragging s) (drag_side s)
     (drag_mouse_x s) (drag_mouse_y s) (drag_view_x s) (drag_view_y s)
     (target_xl s) (target_xr s) (target_y s) (img_width s) (img_height s).
Definition set_view_y (x : Z) (s : t) : t :=
  mk (view_size s) (view_xl s) (view_xr s) x (dragging s) (drag_side s)
     (drag_mouse_x s) (drag_mouse_y s) (drag_view_x s) (drag_view_y s)
     (target_xl s) (target_xr s) (target_y s) (img_width s) (img_height s).
Definition set_dragging (x : bool) (s : t) : t :=
  mk (view_size s) (view_xl s) (view_xr s) (view_y s) x (drag_side s)
     (drag_mouse_x s) (drag_mouse_y s) (drag_view_x s) (drag_view_y s)
     (target_xl s) (target_xr s) (target_y s) (img_width s) (img_height s).
Definition set_drag (side : Side) (mx my vx vy : Z) (s : t) : t :=
  mk (view_size s) (view_xl s) (view_xr s) (view_y s) (dragging s) (Some side)
     mx my vx vy
     (target_xl s) (target_xr s) (target_y s) (img_width s) (img_height s).
Definition set_target_xl (x : Z) (s : t) : t :=
  mk (view_size s) (view_xl s) (view_xr s) (view_y s) (dragging s) (drag_side s)
     (drag_mouse_x s) (drag_mouse_y s) (drag_view_x s) (drag_view_y s)
     x (target_xr s) (target_y s) (img_width s) (img_height s).
Definition set_target_xr (x : Z) (s : t) : t :=
  mk (view_size s) (view_xl s) (view_xr s) (view_y s) (dragging s) (drag_side s)
     (drag_mouse_x s) (drag_mouse_y s) (drag_view_x s) (drag_view_y s)
     (target_xl s) x (target_y s) (img_width s) (img_height s).
Definition set_target_y (x : Z) (s : t) : t :=
  mk (view_size s) (view_xl s) (view_xr s) (view_y s) (dragging s) (drag_side s)
     (drag_mouse_x s) (drag_mouse_y s) (drag_view_x s) (drag_view_y s)
     (target_xl s) (target_xr s) x (img_width s) (img_height s).

(** [_clamp_view]: six tests in a row, each on the value the one before
    it left. *)
Definition _clamp_view (s : t) : t :=
  let s := if view_xl s <? 0 then set_view_xl 0 s else s in
  let s := if view_xl s + view_size s >? img_width s
           then set_view_xl (img_width s - view_size s) s else s in
  let s := if view_xr s <? 0 then set_view_xr 0 s else s in
  let s := if view_xr s + view_size s >? img_width s
           then set_view_xr (img_width s - view_size s) s else s in
  let s := if view_y s <? 0 then set_view_y 0 s else s in
  let s := if view_y s + view_size s >? img_height s
           then set_view_y (img_height s - view_size s) s else s in
  s.

(** [int(a / b)] and [int(a * b)] with a float operand. *)
Definition int_div (a b : Q) : Z :=
  match fdiv a b with Some q => py_int q | None => 0 end.

(** The literal [1.25]. *)
Definition lit_1_25 : Q := 5 # 4.

(** Key 'x' of [PixelSelector.run]. *)
Definition key_x (s : t) : t :=
  if view_size s >? 100
  then set_view_size (int_div (inject_Z (view_size s)) 2) s
  else s.

(** Key 'z' of [PixelSelector.run]. *)
Definition key_z (s : t) : t :=
  if 2 * view_size s <=? Z.min (img_width s) (img_height s)
  then _clamp_view (set_view_size (view_size s * 2) s)
  else s.

(** [multiplier = self.view_size / self.WIN_SIZE] *)
Definition multiplier (s : t) : Q :=
  match fdiv (inject_Z (view_size s)) (inject_Z WIN_SIZE) with
  | Some m => m
  | None => 0%Q
  end.

Definition side_of (x : Z) : Side := if x <? WIN_SIZE then LEFT else RIGHT.

Definition is_left (o : option Side) : bool :=
  match o with Some LEFT => true | _ => false end.

(** EVENT_LBUTTONDOWN, and the left-button branch of [mousePressEvent]. *)
Definition left_down (x y : Z) (s : t) : t :=
  let side := side_of x in
  let s := set_dragging true s in
  set_drag side x y
    (match side with LEFT => view_xl s | RIGHT => view_xr s end) (view_y s) s.

(** EVENT_LBUTTONUP, [mouseReleaseEvent]. *)
Definition left_up (s : t) : t := set_dragging false s.

(** EVENT_MOUSEMOVE, [mouseMoveEvent]. *)
Definition mouse_move (x y : Z) (s : t) : t :=
  if dragging s then
    let m := multiplier s in
    let delta_x := py_int (fmul m (float_of_int (drag_mouse_x s - x))) in
    let delta_y := py_int (fmul m (float_of_int (drag_mouse_y s - y))) in
    let s := if is_left (drag_side s)
             then set_view_xl (drag_view_x s + delta_x) s
             else set_view_xr (drag_view_x s + delta_x) s in
    let s := set_view_y (drag_view_y s + delta_y) s in
    _clamp_view s
  else s.

(** EVENT_RBUTTONDOWN, and the right-button branch of [mousePressEvent]. *)
Definition right_down (x y : Z) (s : t) : t :=
  let m := multiplier s in
  let s :=
    match side_of x with
    | LEFT =>
        set_target_xl
          (py_int (fadd (float_of_int (view_xl s)) (fmul m (float_of_int x)))) s
    | RIGHT =>
        set_target_xr
          (py_int (fadd (float_of_int (view_xr s))
                     (fmul m (float_of_int (x - WIN_SIZE))))) s
    end in
  set_target_y
    (py_int (fadd (float_of_int (view_y s)) (fmul m (float_of_int y)))) s.

(** [QPixelSelector.wheelEvent]; [dy] is [event.angleDelta().y()]. *)
Definition wheelEvent (dy : Z) (s : t) : t :=
  if dy >? 0 then
    if view_size s >? 100
    then set_view_size (int_div (float_of_int (view_size s)) lit_1_25) s
    else s
  else
    let grown := py_int (fmul lit_1_25 (float_of_int (view_size s))) in
    if grown <=? Z.min (img_width s) (img_height s)
    then _clamp_view (set_view_size grown s)
    else s.

(** Key 'r': the three targets are replaced by what [refine_coords]
    returns. *)
Definition refine (txl txr ty : Z) (s : t) : t :=
  set_target_y ty (set_target_xr txr (set_target_xl txl s)).

Inductive event : Type :=
| KeyX
| KeyZ
| KeyR (txl txr ty : Z)
| LButtonDown (x y : Z)
| LButtonUp
| MouseMove (x y : Z)
| RButtonDown (x y : Z)
| Wheel (dy : Z).

Definition handle (e : event) (s : t) : t :=
  match e with
  | KeyX => key_x s
  | KeyZ => key_z s
  | KeyR txl txr ty => refine txl txr ty s
  | LButtonDown x y => left_down x y s
  | LButtonUp => left_up s
  | MouseMove x y => mouse_move x y s
  | RButtonDown x y => right_down x y s
  | Wheel dy => wheelEvent dy s
  end.

Definition run (es : list event) (s : t) : t := fold_left (fun s e => handle e s) es s.

(** The view square lies inside the image, so that the crops
    [img[view_y : view_y + view_size, view_x : view_x + view_size]] are
    within bounds. *)
Definition view_inside (s : t) : Prop :=
  0 <= view_xl s /\ view_xl s + view_size s <= img_width s /\
  0 <= view_xr s /\ view_xr s + view_size s <= img_width s /\
  0 <= view_y s /\ view_y s + view_size s <= img_height s.

(** One coordinate of [_clamp_view]. *)
Definition clamp1 (v size lim : Z) : Z :=
  let v := if v <? 0 then 0 else v in
  if v + size >? lim then lim - size else v.

(** A run of mouse moves. *)
Definition moves (ps : list (Z * Z)) : list event :=
  map (fun p => MouseMove (fst p) (snd p)) ps.

(** What every handler keeps: the image size, a view size between 50 and
    the shorter image side, and a view inside the image. *)
Definition framed (w h : Z) (s : t) : Prop :=
  img_width s = w /\ img_height s = h /\
  50 <= view_size s <= Z.min w h /\ view_inside s.

End PixelSelector.

(* ================================================================== *)
(** ** vehicle_control.py: the camera map

    [Camera] is an enum of [vehicle/constants.py], which is not among the
    sources: its members, the two members the code names and the members'
    string [.value]s are parameters.  The camera map is a field of the
    same object as the link state; it is kept beside it here. *)

Class CameraEnum : Type := {
  Camera : Type;
  Camera_eqb : Camera -> Camera -> bool;       (* identity of members *)
  Camera_members : list Camera;                (* [cam for cam in Camera] *)
  Camera_FRONT : Camera;
  Camera_BOTTOM : Camera;
  Camera_value : Camera -> string;             (* [cam.value] *)
}.

(** Three cameras, for the examples. *)
Inductive deck_camera : Type := cam_front | cam_bottom | cam_back.

Definition deck_camera_eqb (a b : deck_camera) : bool :=
  match a, b with
  | cam_front, cam_front | cam_bottom, cam_bottom | cam_back, cam_back => true
  | _, _ => false
  end.

#[export] Instance deck : CameraEnum := {|
  Camera := deck_camera;
  Camera_eqb := deck_camera_eqb;
  Camera_members := [cam_front; cam_bottom; cam_back];
  Camera_FRONT := cam_front;
  Camera_BOTTOM := cam_bottom;
  Camera_value := fun c =>
    match c with
    | cam_front => "front"%string
    | cam_bottom => "bottom"%string
    | cam_back => "back"%string
    end;
|}.

(** A dict comprehension [{k: v for ...}]: the items are stored one by
    one, a repeated key overwriting the earlier value. *)
Definition dict_of_items {K V} (eqb : K -> K -> bool)
    (items : list (K * V)) : list (K * V) :=
  fold_left (fun d kv => dict_set eqb (fst kv) (snd kv) d) items [].

Module CameraControl.
Section WithConstants.
Context `{Constants} `{CameraEnum}.

(** What the camera methods do to the outside, in order. *)
Inductive camera_effect : Type :=
| cameras_set_signal (states : list (Camera * bool))
| camera_task (cams_dict : list (string * bool)).

Record t : Type := mk {
  link : VehicleControl.t;
  camera_states : list (Camera * bool);
  camera_record : list camera_effect;
}.

Definition set_link (l : VehicleControl.t) (s : t) : t :=
  mk l (camera_states s) (camera_record s).
Definition set_camera_states (d : list (Camera * bool)) (s : t) : t :=
  mk (link s) d (camera_record s).
Definition log_camera (e : camera_effect) (s : t) : t :=
  mk (link s) (camera_states s) (camera_record s ++ [e]).

(** [__init__]: every camera off, then FRONT and BOTTOM on. *)
Definition init : t :=
  let states :=
    dict_of_items Camera_eqb (map (fun cam => (cam, false)) Camera_members) in
  let states := dict_set Camera_eqb Camera_FRONT true states in
  let states := dict_set Camera_eqb Camera_BOTTOM true states in
  mk VehicleControl.init states [].

Definition send_camera_state (s : t) : t :=
  let cams_dict :=
    dict_of_items String.eqb
      (map (fun cv => (Camera_value (fst cv), snd cv)) (camera_states s)) in
  let s := log_camera (cameras_set_signal (camera_states s)) s in
  log_camera (camera_task cams_dict) s.

Definition set_camera_enabled (cam : Camera) (enabled : bool) (s : t) : t :=
  if negb (VehicleControl.is_connected (link s)) then s
  else
    let s := set_camera_states
               (dict_set Camera_eqb cam enabled (camera_states s)) s in
    send_camera_state s.

(** The calls of the object: those of the link, and the camera setter. *)
Inductive call : Type :=
| on_link (c : VehicleControl.call)
| c_set_camera_enabled (cam : Camera) (enabled : bool).

Definition perform (c : call) (s : t) : t :=
  match c with
  | on_link c => set_link (snd (VehicleControl.perform c (link s))) s
  | c_set_camera_enabled cam enabled => set_camera_enabled cam enabled s
  end.

Definition run (cs : list call) (s : t) : t :=
  fold_left (fun s c => perform c s) cs s.

(** The maps a recorded effect carries, as their lists of keys. *)
Definition effect_keys (e : camera_effect) : list string :=
  match e with
  | cameras_set_signal states => map (fun cv => Camera_value (fst cv)) states
  | camera_task cams_dict => map fst cams_dict
  end.

(** [{cam: False for cam in Camera}] when the members are distinct. *)
Definition all_off : list (Camera * bool) :=
  map (fun cam => (cam, false)) Camera_members.

(** The invariant of the object: the map has one entry per camera, in the
    enum's order, and so had every map that was sent. *)
Definition complete (s : t) : Prop :=
  map fst (camera_states s) = Camera_members /\
  List.Forall (fun e => effect_keys e = map Camera_value Camera_members)
    (camera_record s).

End WithConstants.
End CameraControl.

(** A connected object with the three example cameras. *)
Definition deck_linked : @CameraControl.t deck :=
  CameraControl.set_link VehicleControl.linked_armed (@CameraControl.init deck).


(** * Part II: theorems *)
(* ================================================================== *)

(** ** Rounding is monotone *)

Module FloatFacts.
Import Float.
Local Open Scope Q_scope.

Lemma rne_floor_or_succ x : rne x = Qfloor x \/ rne x = (Qfloor x + 1)%Z.
Proof.
  unfold rne. destruct (Qcompare _ _); auto. destruct (Z.even _); auto.
Qed.

Lemma rne_Z z : rne (inject_Z z) = z.
Proof.
  unfold rne. rewrite Qfloor_Z.
  destruct (Qcompare_spec (inject_Z z - inject_Z z) (1 # 2)); [lra | reflexivity | lra].
Qed.

Lemma rne_mono x y : x <= y -> (rne x <= rne y)%Z.
Proof.
  intros Hxy. pose proof (Qfloor_resp_le _ _ Hxy) as Hfl.
  destruct (Z.eq_dec (Qfloor x) (Qfloor y)) as [E | NE].
  - unfold rne. rewrite E.
    destruct (Qcompare_spec (x - inject_Z (Qfloor y)) (1 # 2));
      destruct (Qcompare_spec (y - inject_Z (Qfloor y)) (1 # 2));
      try lra; destruct (Z.even (Qfloor y)); lia.
  - destruct (rne_floor_or_succ x) as [-> | ->], (rne_floor_or_succ y) as [-> | ->]; lia.
Qed.

Lemma pow2_pos s : 0 < 2 ^ s.
Proof. apply Qpower_0_lt. reflexivity. Qed.

Lemma pow2_Z n : (0 <= n)%Z -> inject_Z (2 ^ n) == 2 ^ n.
Proof. intros Hn. now rewrite Zpower_Qpower. Qed.

Lemma ilog2_spec x : 0 < x -> 2 ^ ilog2 x <= x /\ x < 2 ^ (ilog2 x + 1).
Proof.
  intros Hx. unfold ilog2. destruct (Qle_bool 1 x) eqn:Hb.
  - apply Qle_bool_iff in Hb.
    assert (Hf : (1 <= Qfloor x)%Z).
    { rewrite <- (Qfloor_Z 1). now apply Qfloor_resp_le. }
    destruct (Z.log2_spec (Qfloor x)) as [Hlo Hhi]; [lia |].
    pose proof (Z.log2_nonneg (Qfloor x)) as Hnn.
    rewrite <- !pow2_Z by lia. split.
    + apply Qle_trans with (inject_Z (Qfloor x)); [| apply Qfloor_le].
      now rewrite <- Zle_Qle.
    + apply Qlt_le_trans with (inject_Z (Qfloor x + 1)); [apply Qlt_floor |].
      rewrite <- Zle_Qle. unfold Z.succ in Hhi. lia.
  - assert (Hlt : x < 1).
    { apply Qnot_le_lt. intros H. apply Qle_bool_iff in H. congruence. }
    assert (Hr : 1 < / x).
    { apply Qlt_shift_inv_l; lra. }
    assert (Hc : (1 < Qceiling (/ x))%Z).
    { rewrite Zlt_Qlt. eapply Qlt_le_trans; [exact Hr | apply Qle_ceiling]. }
    destruct (Z.log2_up_spec _ Hc) as [Hlo Hhi].
    set (k := Z.log2_up (Qceiling (/ x))) in *.
    assert (Hk : (0 < k)%Z) by (apply Z.log2_up_pos; lia).
    assert (Hup : / x <= 2 ^ k).
    { rewrite <- pow2_Z by lia. eapply Qle_trans; [apply Qle_ceiling |].
      now rewrite <- Zle_Qle. }
    assert (Hdn : 2 ^ (k - 1) < / x).
    { rewrite <- pow2_Z by lia.
      eapply Qle_lt_trans; [| apply Qceiling_lt].
      rewrite <- Zle_Qle. change (Z.pred k) with (k - 1)%Z in Hlo. lia. }
    pose proof (pow2_pos k) as Pk. pose proof (pow2_pos (k - 1)) as Pk1.
    split.
    + rewrite Qpower_opp. apply Qle_shift_inv_r; [exact Pk |].
      assert (E : x * / x == 1) by (field; lra).
      rewrite <- E. apply Qmult_le_l; lra.
    + replace (- k + 1)%Z with (- (k - 1))%Z by lia.
      rewrite Qpower_opp. apply Qlt_shift_inv_l; [exact Pk1 |].
      assert (E : x * / x == 1) by (field; lra).
      rewrite <- E. apply Qmult_lt_l; lra.
Qed.

Lemma ilog2_mono x y : 0 < x -> x <= y -> (ilog2 x <= ilog2 y)%Z.
Proof.
  intros Hx Hxy.
  destruct (ilog2_spec x Hx) as [Hlo _].
  destruct (ilog2_spec y) as [_ Hhi]; [lra |].
  assert (H : 2 ^ ilog2 x < 2 ^ (ilog2 y + 1)) by lra.
  apply Qpower_lt_compat_l_inv in H; [lia | reflexivity].
Qed.

Lemma ulp_exp_mono x y : 0 < x -> x <= y -> (ulp_exp x <= ulp_exp y)%Z.
Proof.
  intros Hx Hxy. unfold ulp_exp. pose proof (ilog2_mono x y Hx Hxy). lia.
Qed.

Lemma round_pos_nonneg x : 0 < x -> 0 <= round_pos x.
Proof.
  intros Hx. unfold round_pos. pose proof (pow2_pos (ulp_exp x)) as P.
  apply Qmult_le_0_compat; [| lra].
  change 0 with (inject_Z 0). rewrite <- Zle_Qle.
  rewrite <- (rne_Z 0). apply rne_mono.
  apply Qle_shift_div_l; [exact P |]. change (inject_Z 0) with 0. lra.
Qed.

Lemma round_pos_mono x y : 0 < x -> x <= y -> round_pos x <= round_pos y.
Proof.
  intros Hx Hxy. unfold round_pos.
  pose proof (ulp_exp_mono x y Hx Hxy) as Hs.
  pose proof (pow2_pos (ulp_exp x)) as Px.
  pose proof (pow2_pos (ulp_exp y)) as Py.
  destruct (Z.eq_dec (ulp_exp x) (ulp_exp y)) as [E | NE].
  - rewrite E in *. apply Qmult_le_compat_r; [| lra].
    rewrite <- Zle_Qle. apply rne_mono.
    apply Qmult_le_compat_r; [exact Hxy |].
    apply Qinv_le_0_compat. lra.
  - assert (Hy : ulp_exp y = (ilog2 y - 52)%Z) by (unfold ulp_exp in *; lia).
    assert (Hx' : (ilog2 x - 52 <= ulp_exp x)%Z) by (unfold ulp_exp; lia).
    destruct (ilog2_spec x Hx) as [_ Hxhi].
    destruct (ilog2_spec y) as [Hylo _]; [lra |].
    apply Qle_trans with (2 ^ (53 + ulp_exp x)).
    + rewrite Qpower_plus by discriminate.
      apply Qmult_le_compat_r; [| lra].
      rewrite <- (pow2_Z 53) by lia. rewrite <- Zle_Qle.
      rewrite <- (rne_Z (2 ^ 53)). apply rne_mono.
      apply Qle_shift_div_r; [exact Px |].
      rewrite (pow2_Z 53) by lia. rewrite <- Qpower_plus by discriminate.
      apply Qle_trans with (2 ^ (ilog2 x + 1)); [lra |].
      apply Qpower_le_compat_l; [lia | discriminate].
    + apply Qle_trans with (2 ^ (52 + ulp_exp y)).
      * apply Qpower_le_compat_l; [lia | discriminate].
      * rewrite Qpower_plus by discriminate.
        apply Qmult_le_compat_r; [| lra].
        rewrite <- (pow2_Z 52) by lia. rewrite <- Zle_Qle.
        rewrite <- (rne_Z (2 ^ 52)) at 1. apply rne_mono.
        apply Qle_shift_div_l; [exact Py |].
        rewrite (pow2_Z 52) by lia. rewrite <- Qpower_plus by discriminate.
        rewrite Hy. replace (52 + (ilog2 y - 52))%Z with (ilog2 y) by lia.
        exact Hylo.
Qed.

Lemma fl64_mono x y : x <= y -> fl64 x <= fl64 y.
Proof.
  intros Hxy. unfold fl64.
  destruct (Qcompare_spec x 0) as [Ex | Lx | Gx];
    destruct (Qcompare_spec y 0) as [Ey | Ly | Gy]; try lra.
  - apply round_pos_nonneg; lra.
  - pose proof (round_pos_nonneg (- x)). lra.
  - pose proof (round_pos_mono (- y) (- x)). lra.
  - pose proof (round_pos_nonneg (- x)). pose proof (round_pos_nonneg y). lra.
  - apply round_pos_mono; lra.
Qed.

Lemma fl64_proper x y : x == y -> fl64 x == fl64 y.
Proof.
  intros E. apply Qle_antisym; apply fl64_mono; lra.
Qed.

Lemma fadd_mono a b c d : a <= c -> b <= d -> fadd a b <= fadd c d.
Proof. intros. apply fl64_mono. lra. Qed.

Lemma fmul_mono_pos a c k : 0 <= k -> a <= c -> fmul a k <= fmul c k.
Proof. intros. apply fl64_mono. now apply Qmult_le_compat_r. Qed.

End FloatFacts.

(** ** Rounding is exact on binary64 numbers *)

Module FloatExact.
Import Float FloatFacts.
Local Open Scope Q_scope.

Lemma rne_proper x y : x == y -> rne x = rne y.
Proof.
  intros E. apply Z.le_antisymm; apply rne_mono; lra.
Qed.

Lemma pow2_nonzero k : ~ 2 ^ k == 0.
Proof. pose proof (pow2_pos k). lra. Qed.

(** A positive number [m * 2^k] with [m] below [2^53] and [k] on or above
    the subnormal exponent is a binary64 number: rounding returns it. *)
Lemma round_pos_exact x m k :
  x == inject_Z m * 2 ^ k -> (0 < m < 2 ^ 53)%Z -> (-1074 <= k)%Z ->
  round_pos x == x.
Proof.
  intros Ex Hm Hk.
  pose proof (pow2_pos k) as Pk.
  assert (Hm0 : 0 < inject_Z m) by (change 0 with (inject_Z 0); rewrite <- Zlt_Qlt; lia).
  assert (Hx : 0 < x) by (rewrite Ex; apply Qmult_lt_0_compat; assumption).
  destruct (ilog2_spec x Hx) as [Hlo _].
  assert (Hup : x < 2 ^ (53 + k)).
  { rewrite Ex, Qpower_plus by discriminate.
    apply Qmult_lt_compat_r; [exact Pk |].
    rewrite <- (pow2_Z 53) by lia. rewrite <- Zlt_Qlt. lia. }
  assert (He : (ilog2 x < 53 + k)%Z).
  { apply (Qpower_lt_compat_l_inv 2); [lra | reflexivity]. }
  unfold round_pos. set (s := ulp_exp x).
  assert (Hs : (s <= k)%Z) by (subst s; unfold ulp_exp; lia).
  pose proof (pow2_pos s) as Ps.
  assert (Ek : 2 ^ k == 2 ^ (k - s) * 2 ^ s).
  { rewrite <- Qpower_plus by discriminate. now replace (k - s + s)%Z with k by lia. }
  assert (Eq : x / 2 ^ s == inject_Z (m * 2 ^ (k - s))).
  { rewrite inject_Z_mult, (pow2_Z (k - s)) by lia.
    rewrite Ex, Ek. field. apply pow2_nonzero. }
  rewrite (rne_proper _ _ Eq), rne_Z.
  rewrite inject_Z_mult, (pow2_Z (k - s)) by lia.
  rewrite Ex, Ek. ring.
Qed.

Lemma fl64_exact x m k :
  x == inject_Z m * 2 ^ k -> (Z.abs m < 2 ^ 53)%Z -> (-1074 <= k)%Z ->
  fl64 x == x.
Proof.
  intros Ex Hm Hk. pose proof (pow2_pos k) as Pk. unfold fl64.
  destruct (Qcompare_spec x 0) as [E0 | Hneg | Hpos].
  - now rewrite E0.
  - assert (Hm' : (m < 0)%Z).
    { destruct (Z_lt_ge_dec m 0) as [? | Hge]; [assumption | exfalso].
      assert (0 <= inject_Z m) by (change 0 with (inject_Z 0); rewrite <- Zle_Qle; lia).
      assert (0 <= inject_Z m * 2 ^ k) by (apply Qmult_le_0_compat; lra).
      lra. }
    rewrite (round_pos_exact (- x) (- m) k); [ring | | lia | exact Hk].
    rewrite Ex, inject_Z_opp. ring.
  - assert (Hm' : (0 < m)%Z).
    { destruct (Z_lt_ge_dec 0 m) as [? | Hge]; [assumption | exfalso].
      assert (inject_Z m <= 0) by (change 0 with (inject_Z 0); rewrite <- Zle_Qle; lia).
      assert (0 <= (- inject_Z m) * 2 ^ k) by (apply Qmult_le_0_compat; lra).
      lra. }
    apply (round_pos_exact x m k); [exact Ex | lia | exact Hk].
Qed.

Lemma float_of_int_exact n : (Z.abs n < 2 ^ 53)%Z -> float_of_int n == inject_Z n.
Proof.
  intros Hn. unfold float_of_int. apply (fl64_exact _ n 0); [| exact Hn | lia].
  change (2 ^ 0) with 1. ring.
Qed.

(** [n / 2 ^ j] for a small integer [n]. *)
Lemma fl64_dyadic n j :
  (Z.abs n < 2 ^ 53)%Z -> (0 <= j <= 1074)%Z ->
  fl64 (inject_Z n / inject_Z (2 ^ j)) == inject_Z n / inject_Z (2 ^ j).
Proof.
  intros Hn Hj. apply (fl64_exact _ n (- j)); [| exact Hn | lia].
  rewrite Qpower_opp, (pow2_Z j) by lia. reflexivity.
Qed.

(** [int(x)] lies between the integers that bracket a non-negative [x]. *)
Lemma py_int_lower a x : (0 <= a)%Z -> inject_Z a <= x -> (a <= py_int x)%Z.
Proof.
  intros Ha Hax. unfold py_int. destruct x as [n d]. simpl.
  unfold Qle in Hax. simpl in Hax.
  assert (Hn : (0 <= n)%Z) by nia.
  rewrite Z.quot_div_nonneg by lia.
  apply Z.div_le_lower_bound; lia.
Qed.

Lemma py_int_upper b x : 0 <= x -> x <= inject_Z b -> (py_int x <= b)%Z.
Proof.
  intros H0 Hxb. unfold py_int. destruct x as [n d]. simpl.
  unfold Qle in H0, Hxb. simpl in H0, Hxb.
  assert (Hn : (0 <= n)%Z) by lia.
  rewrite Z.quot_div_nonneg by lia.
  apply Z.div_le_upper_bound; lia.
Qed.

Lemma py_int_Z n : py_int (inject_Z n) = n.
Proof. unfold py_int. simpl. apply Z.quot_1_r. Qed.

End FloatExact.

(** ** VehicleControl: the PWM mapping *)

Module PwmFacts.
Import Float FloatFacts VehicleControl.
Local Open Scope Z_scope.

Lemma in_range_iff v : in_range v = true <-> (-1 <= v <= 1)%Q.
Proof.
  unfold in_range. rewrite andb_true_iff, !Qle_bool_iff. reflexivity.
Qed.

Lemma raw_pwm_mono a b : (a <= b)%Q -> raw_pwm a <= raw_pwm b.
Proof.
  intros Hab. unfold raw_pwm, py_round. apply rne_mono.
  apply fadd_mono; [| lra]. apply fmul_mono_pos; [lra | exact Hab].
Qed.

Lemma raw_pwm_bounds v : (-1 <= v <= 1)%Q -> 1100 <= raw_pwm v <= 1900.
Proof.
  intros [Hlo Hhi].
  pose proof (raw_pwm_mono _ _ Hlo) as L.
  pose proof (raw_pwm_mono _ _ Hhi) as U.
  assert (E1 : raw_pwm (-1) = 1100) by (vm_compute; reflexivity).
  assert (E2 : raw_pwm 1 = 1900) by (vm_compute; reflexivity).
  lia.
Qed.

Lemma clamp_pwm_id p : 1100 <= p <= 1900 -> clamp_pwm p = p.
Proof. unfold clamp_pwm. lia. Qed.

Lemma clamp_pwm_mono p q : p <= q -> clamp_pwm p <= clamp_pwm q.
Proof. unfold clamp_pwm. lia. Qed.

Lemma pwm_of_in_range v : (-1 <= v <= 1)%Q -> pwm_of v = raw_pwm v.
Proof. intros Hv. apply clamp_pwm_id. now apply raw_pwm_bounds. Qed.

(** C9, as stated: the biconditional fails.  The inputs [1/1024] and [0]
    both round to 1500, so [pwm(a) <= pwm(b)] holds although [a > b]. *)
Lemma pwm_biconditional_fails :
  ~ (forall a b : Q, (-1 <= a <= 1)%Q -> (-1 <= b <= 1)%Q ->
       ((a < b)%Q <-> pwm_of a <= pwm_of b)).
Proof.
  intros Hc.
  destruct (Hc (1 # 1024)%Q 0%Q) as [_ Hback]; [split; discriminate .. |].
  assert (Hlt : (1 # 1024 < 0)%Q) by (apply Hback; vm_compute; discriminate).
  revert Hlt. vm_compute. discriminate.
Qed.

(** C9, amended: the mapping is monotone in the weak sense, [a <= b]
    implies [pwm(a) <= pwm(b)] (in particular for [a < b]); the converse
    direction of the biconditional is dropped. *)
Theorem pwm_of_monotone (a b : Q) :
  (a <= b)%Q -> pwm_of a <= pwm_of b.
Proof.
  intros Hab. apply clamp_pwm_mono, raw_pwm_mono, Hab.
Qed.

Lemma pwm_of_monotone_witness :
  (1 # 4 <= 1 # 2)%Q /\ pwm_of (1 # 4) <= pwm_of (1 # 2).
Proof.
  split; [discriminate | apply (pwm_of_monotone (1 # 4) (1 # 2)); discriminate].
Defined.

End PwmFacts.

(** ** The command in exact arithmetic *)

Module PwmValue.
Import Float FloatFacts FloatExact VehicleControl.
Local Open Scope Q_scope.

(** Rounding to an integer moves a number by at most one half. *)
Lemma rne_near x :
  x - (1 # 2) <= inject_Z (rne x) /\ inject_Z (rne x) <= x + (1 # 2).
Proof.
  pose proof (Qfloor_le x) as L. pose proof (Qlt_floor x) as U.
  rewrite inject_Z_plus in U. change (inject_Z 1) with 1 in U.
  unfold rne.
  destruct (Qcompare_spec (x - inject_Z (Qfloor x)) (1 # 2)) as [E | Hlt | Hgt].
  - destruct (Z.even (Qfloor x)).
    + lra.
    + rewrite inject_Z_plus. change (inject_Z 1) with 1. lra.
  - lra.
  - rewrite inject_Z_plus. change (inject_Z 1) with 1. lra.
Qed.

(** Below 2048 in magnitude, binary64 rounding moves a number by at most
    [2^-41]: the multiples of [2^-41] there are binary64 numbers, and
    rounding is monotone. *)
Lemma fl64_near x :
  -2048 <= x <= 2048 ->
  x - (1 # 2199023255552) <= fl64 x /\ fl64 x <= x + (1 # 2199023255552).
Proof.
  intros Hx.
  set (K := inject_Z (2 ^ 41)).
  assert (HK : K == 2199023255552) by reflexivity.
  set (n := Qfloor (x * K)).
  pose proof (Qfloor_le (x * K)) as L. pose proof (Qlt_floor (x * K)) as U.
  fold n in L, U. rewrite inject_Z_plus in U. change (inject_Z 1) with 1 in U.
  assert (Hn : (- 2 ^ 52 <= n <= 2 ^ 52)%Z).
  { split.
    - rewrite <- (Qfloor_Z (- 2 ^ 52)). apply Qfloor_resp_le.
      change (inject_Z (- 2 ^ 52)) with (-4503599627370496). rewrite HK. lra.
    - rewrite <- (Qfloor_Z (2 ^ 52)). apply Qfloor_resp_le.
      change (inject_Z (2 ^ 52)) with 4503599627370496. rewrite HK. lra. }
  pose proof (fl64_dyadic n 41 ltac:(lia) ltac:(lia)) as Ea.
  pose proof (fl64_dyadic (n + 1) 41 ltac:(lia) ltac:(lia)) as Eb.
  fold K in Ea, Eb.
  assert (Pk : 0 < K) by (rewrite HK; reflexivity).
  assert (La : inject_Z n / K <= x) by (apply Qle_shift_div_r; [exact Pk | exact L]).
  assert (Ub : x <= inject_Z (n + 1) / K).
  { apply Qle_shift_div_l; [exact Pk |]. rewrite inject_Z_plus.
    change (inject_Z 1) with 1. lra. }
  assert (Hab : inject_Z (n + 1) / K == inject_Z n / K + (1 # 2199023255552)).
  { rewrite inject_Z_plus. change (inject_Z 1) with 1.
    assert (E1 : (inject_Z n + 1) / K == inject_Z n / K + 1 / K)
      by (field; lra).
    rewrite E1. apply Qplus_comp; [reflexivity |]. rewrite HK. reflexivity. }
  pose proof (fl64_mono _ _ La) as Ma. pose proof (fl64_mono _ _ Ub) as Mb.
  rewrite Ea in Ma. rewrite Eb in Mb.
  split; lra.
Qed.

(** The command of the code, [round(val * 400 + 1500)] in binary64, is
    the exact [val * 400 + 1500] rounded to an integer: it differs from it
    by at most one half plus the [2^-40] that the two float operations can
    add. *)
Lemma command_near v :
  -1 <= v <= 1 ->
  v * 400 + 1500 - (1 # 2) - (1 # 1099511627776)
    <= inject_Z (py_round (fadd (fmul v 400) 1500)) /\
  inject_Z (py_round (fadd (fmul v 400) 1500))
    <= v * 400 + 1500 + (1 # 2) + (1 # 1099511627776).
Proof.
  intros Hv. unfold py_round, fadd, fmul.
  destruct (fl64_near (v * 400)) as [L1 U1]; [lra |].
  destruct (fl64_near (fl64 (v * 400) + 1500)) as [L2 U2]; [lra |].
  destruct (rne_near (fl64 (fl64 (v * 400) + 1500))) as [L3 U3].
  split; lra.
Qed.

End PwmValue.

(** ** Dictionaries *)

Module DictFacts.
Local Open Scope Z_scope.

Lemma dict_get_set_eq {V} k (v : V) d :
  dict_get Z.eqb k (dict_set Z.eqb k v d) = Some v.
Proof.
  induction d as [| [k' v'] d IH]; simpl.
  - now rewrite Z.eqb_refl.
  - destruct (k =? k') eqn:E; simpl; rewrite ?Z.eqb_refl, ?E; auto.
Qed.

Lemma dict_get_set_ne {V} k k' (v : V) d :
  k <> k' -> dict_get Z.eqb k' (dict_set Z.eqb k v d) = dict_get Z.eqb k' d.
Proof.
  intros Hne. induction d as [| [k0 v0] d IH]; simpl.
  - destruct (k' =? k) eqn:E; [apply Z.eqb_eq in E; congruence | reflexivity].
  - destruct (k =? k0) eqn:E; simpl.
    + apply Z.eqb_eq in E. subst k0.
      destruct (k' =? k) eqn:E'; [apply Z.eqb_eq in E'; congruence | reflexivity].
    + now rewrite IH.
Qed.

Lemma dict_get_Some_In {V} k (v : V) d :
  dict_get Z.eqb k d = Some v -> In (k, v) d.
Proof.
  induction d as [| [k' v'] d IH]; simpl; [discriminate |].
  destruct (k =? k') eqn:E.
  - apply Z.eqb_eq in E. intros [= ->]. left. now subst.
  - auto.
Qed.

Lemma dict_set_In {V} k (v : V) d k' v' :
  In (k', v') (dict_set Z.eqb k v d) -> (k', v') = (k, v) \/ In (k', v') d.
Proof.
  induction d as [| [k0 v0] d IH]; simpl.
  - intros [E | []]. now left.
  - destruct (k =? k0); simpl; intros [E | Hin]; auto.
    destruct (IH Hin); auto.
Qed.

Lemma dict_set_keys {V} k (v : V) d k' :
  In k' (map fst (dict_set Z.eqb k v d)) -> k' = k \/ In k' (map fst d).
Proof.
  intros Hin. apply in_map_iff in Hin as [[k0 v0] [E Hin]]. simpl in E. subst k0.
  destruct (dict_set_In _ _ _ _ _ Hin) as [[= -> _] | Hin']; [now left | right].
  apply in_map_iff. now exists (k', v0).
Qed.

Lemma dict_set_NoDup {V} k (v : V) d :
  List.NoDup (map fst d) -> List.NoDup (map fst (dict_set Z.eqb k v d)).
Proof.
  induction d as [| [k0 v0] d IH]; simpl; intros Hnd.
  - constructor; [intros [] | constructor].
  - inversion Hnd as [| ? ? Hnotin Hnd']; subst.
    destruct (k =? k0) eqn:E; simpl.
    + apply Z.eqb_eq in E. subst k0. now constructor.
    + constructor; [| auto].
      intros Hin. destruct (dict_set_keys _ _ _ _ Hin) as [-> | Hin'].
      * now rewrite Z.eqb_refl in E.
      * contradiction.
Qed.

End DictFacts.

(** ** VehicleControl: the RC override path *)

Module RcFacts.
Import Float FloatFacts VehicleControl PwmFacts DictFacts.
Local Open Scope Z_scope.

Section WithConstants.
Context `{Constants}.

Lemma valid_item_checks ch pwm :
  valid_item (ch, pwm) <->
  (ch <? 1) || (ch >? 18) = false /\
  negb ((1100 <=? pwm) && (pwm <=? 1900)) = false.
Proof. unfold valid_item; simpl. lia. Qed.

Lemma fill_channels_valid items : forall rc,
  Forall valid_item items ->
  exists rc', fill_channels items rc = Ok rc' /\ length rc' = length rc.
Proof.
  induction items as [| [ch pwm] items IH]; intros rc Hall; simpl.
  - now exists rc.
  - inversion Hall as [| ? ? Hv Hrest]; subst.
    apply valid_item_checks in Hv as [-> ->].
    destruct (IH (<[Z.to_nat (ch - 1) := pwm]> rc) Hrest) as (rc' & E & L).
    exists rc'. split; [exact E |]. now rewrite L, length_insert.
Qed.

Lemma fill_channels_invalid pre item post : forall rc,
  Forall valid_item pre -> ~ valid_item item ->
  fill_channels (pre ++ item :: post) rc = Raise (item_error item).
Proof.
  induction pre as [| [ch pwm] pre IH]; intros rc Hall Hbad; simpl.
  - destruct item as [ch pwm]. unfold item_error; simpl.
    destruct ((ch <? 1) || (ch >? 18)) eqn:E1; [reflexivity |].
    destruct (negb ((1100 <=? pwm) && (pwm <=? 1900))) eqn:E2; [reflexivity |].
    exfalso. apply Hbad. now apply valid_item_checks.
  - inversion Hall as [| ? ? Hv Hrest]; subst.
    apply valid_item_checks in Hv as [-> ->]. now apply IH.
Qed.

Lemma fill_channels_other items i : forall rc rc',
  fill_channels items rc = Ok rc' ->
  (forall item, In item items -> Z.to_nat (fst item - 1) <> i) ->
  rc' !! i = rc !! i.
Proof.
  induction items as [| [ch pwm] items IH]; intros rc rc' E Hother; simpl in E.
  - now injection E as ->.
  - destruct ((ch <? 1) || (ch >? 18)); [discriminate |].
    destruct (negb ((1100 <=? pwm) && (pwm <=? 1900))); [discriminate |].
    rewrite (IH _ _ E) by (intros item Hin; apply Hother; now right).
    apply list_lookup_insert_ne. apply (Hother (ch, pwm)). now left.
Qed.

Lemma fill_channels_lookup items : forall rc rc',
  fill_channels items rc = Ok rc' ->
  Forall valid_item items -> List.NoDup (map fst items) ->
  length rc = 18%nat ->
  forall ch pwm, In (ch, pwm) items -> rc' !! Z.to_nat (ch - 1) = Some pwm.
Proof.
  induction items as [| [ch0 pwm0] items IH];
    intros rc rc' E Hall Hnd Hlen ch pwm Hin; [destruct Hin |].
  inversion Hall as [| ? ? Hv Hrest]; subst.
  inversion Hnd as [| ? ? Hfresh Hnd']; subst.
  simpl in E. pose proof Hv as Hv0.
  apply valid_item_checks in Hv as [E1 E2]. rewrite E1, E2 in E.
  destruct Hv0 as [Hch0 _]; simpl in Hch0.
  destruct Hin as [[= -> ->] | Hin].
  - rewrite (fill_channels_other _ _ _ _ E).
    + apply list_lookup_insert_eq. lia.
    + intros [ch' pwm'] Hin' Heq; simpl in Heq.
      rewrite List.Forall_forall in Hrest. destruct (Hrest _ Hin') as [Hch' _].
      simpl in Hch'. assert (ch' = ch) by lia. subst ch'.
      apply Hfresh. apply in_map_iff. now exists (ch, pwm').
  - apply (IH _ _ E); auto. now rewrite length_insert.
Qed.

(** The items [build_pwms] adds are valid and keep the keys distinct. *)
Lemma build_pwms_inv (P : list (Z * Z) -> Prop) values :
  (forall c v d, in_range v = true -> P d ->
     P (dict_set Z.eqb (channel_value c) (pwm_of v) d)) ->
  forall acc pwms, P acc -> build_pwms values acc = Ok pwms -> P pwms.
Proof.
  intros Hstep. induction values as [| [c v] values IH]; intros acc pwms Hacc E.
  - simpl in E. now injection E as <-.
  - simpl in E. destruct (in_range v) eqn:Hv; simpl in E; [| discriminate].
    apply (IH _ _ (Hstep c v acc Hv Hacc) E).
Qed.

Lemma build_pwms_in_range values : forall acc,
  Forall (fun cv => (-1 <= snd cv <= 1)%Q) values ->
  exists pwms, build_pwms values acc = Ok pwms.
Proof.
  induction values as [| [c v] values IH]; intros acc Hall; simpl.
  - now exists acc.
  - inversion Hall as [| ? ? Hv Hrest]; subst. simpl in Hv.
    apply in_range_iff in Hv. rewrite Hv. simpl. now apply IH.
Qed.

Lemma build_pwms_out_of_range values : forall acc,
  Exists (fun cv => ~ (-1 <= snd cv <= 1)%Q) values ->
  exists v, In v (map snd values) /\ ~ (-1 <= v <= 1)%Q /\
            build_pwms values acc = Raise (ValueError_input v).
Proof.
  induction values as [| [c v] values IH]; intros acc Hex;
    [inversion Hex |].
  simpl. destruct (in_range v) eqn:Hv; simpl.
  - inversion Hex as [? ? Hbad | ? ? Hlater]; subst.
    + simpl in Hbad. apply in_range_iff in Hv. contradiction.
    + destruct (IH (dict_set Z.eqb (channel_value c)
                      (clamp_pwm (raw_pwm v)) acc) Hlater)
        as (v' & Hin & Hbad & E).
      exists v'. auto.
  - exists v. split; [now left |]. split; [| reflexivity].
    intros Hr. apply in_range_iff in Hr. congruence.
Qed.

Lemma build_pwms_other values k : forall acc pwms,
  build_pwms values acc = Ok pwms ->
  (forall c v, In (c, v) values -> channel_value c <> k) ->
  dict_get Z.eqb k pwms = dict_get Z.eqb k acc.
Proof.
  induction values as [| [c v] values IH]; intros acc pwms E Hother; simpl in E.
  - now injection E as <-.
  - destruct (in_range v); simpl in E; [| discriminate].
    rewrite (IH _ _ E) by (intros c' v' Hin; apply (Hother c' v'); now right).
    apply dict_get_set_ne. apply (Hother c v). now left.
Qed.

Lemma build_pwms_lookup values : forall acc pwms,
  (forall c c', channel_value c = channel_value c' -> c = c') ->
  build_pwms values acc = Ok pwms ->
  List.NoDup (map fst values) ->
  forall c v, In (c, v) values ->
    dict_get Z.eqb (channel_value c) pwms = Some (pwm_of v).
Proof.
  intros acc pwms Hinj. revert acc pwms.
  induction values as [| [c0 v0] values IH];
    intros acc pwms E Hnd c v Hin; [destruct Hin |].
  inversion Hnd as [| ? ? Hfresh Hnd']; subst.
  simpl in E. destruct (in_range v0); simpl in E; [| discriminate].
  destruct Hin as [[= -> ->] | Hin].
  - rewrite (build_pwms_other _ _ _ _ E).
    + exact (dict_get_set_eq _ _ _).
    + intros c' v' Hin' Heq. apply Hinj in Heq. subst c'.
      apply Hfresh. apply in_map_iff. now exists (c, v').
  - apply (IH _ _ E Hnd' _ _ Hin).
Qed.

End WithConstants.
End RcFacts.

(** ** VehicleControl: normalized inputs and raw channel values *)

Module Actuator.
Import Float FloatFacts VehicleControl PwmFacts DictFacts RcFacts.
Local Open Scope Z_scope.

Lemma set_rc_input_pwms_eq pwms s :
  set_rc_input_pwms pwms s =
  if negb (connected s) || negb (armed s) then (Ok tt, s)
  else match fill_channels pwms (replicate 18 65535) with
       | Raise e => (Raise e, s)
       | Ok rc => (Ok tt, log_effect (Send (rc_channels_override_send rc)) s)
       end.
Proof.
  unfold set_rc_input_pwms, bind, gets, is_connected, is_armed.
  destruct (negb (connected s) || negb (armed s)); [reflexivity |].
  destruct (fill_channels pwms (replicate 18 65535)); reflexivity.
Qed.

(** C2: disconnected or disarmed, [set_rc_input_pwms] returns normally and
    leaves the whole object as it was; the record of what was sent or
    handed to the thread pool is part of it, so nothing is transmitted and
    nothing is kept for later. *)
Theorem set_rc_input_pwms_dropped (pwms : list (Z * Z)) (s : t) :
  connected s = false \/ armed s = false ->
  set_rc_input_pwms pwms s = (Ok tt, s).
Proof.
  intros Hoff. rewrite set_rc_input_pwms_eq.
  destruct Hoff as [-> | ->]; [reflexivity |].
  now rewrite orb_true_r.
Qed.

Lemma set_rc_input_pwms_dropped_witness :
  (connected init = false \/ armed init = false) /\
  set_rc_input_pwms [(5, 1700); (0, 99)] init = (Ok tt, init).
Proof.
  split; [now left | apply (set_rc_input_pwms_dropped _ init); now left].
Defined.

(** C8, as stated: the checks are not made on a disconnected link.  On the
    freshly constructed object channel id 0 is accepted without an error. *)
Lemma channel_checks_need_link :
  ~ (forall (s : t) (ch pwm : Z), In ch [0; 19; -1] ->
       exists e, fst (set_rc_input_pwms [(ch, pwm)] s) = Raise e /\
                 is_InvalidChannelError e = true).
Proof.
  intros Hc. destruct (Hc init 0 1500) as (e & E & _); [now left |].
  vm_compute in E. discriminate.
Qed.

(** C8, amended: on a connected and armed vehicle the first item, in
    iteration order, with a channel id outside 1..18 or a PWM outside
    [1100, 1900] aborts the call with its error (the channel error when the
    id is bad) and nothing is sent; ids 0, 19 and -1 are rejected with the
    channel error, ids 1 and 18 with a PWM in range are accepted and sent,
    and a PWM out of range on a valid channel gets the range error. *)
Theorem set_rc_input_pwms_checks (s : t) :
  connected s = true -> armed s = true ->
  (forall pre item post, Forall valid_item pre -> ~ valid_item item ->
     set_rc_input_pwms (pre ++ item :: post) s = (Raise (item_error item), s)) /\
  (forall ch pwm, In ch [0; 19; -1] ->
     set_rc_input_pwms [(ch, pwm)] s = (Raise (ValueError_channel ch), s) /\
     is_InvalidChannelError (ValueError_channel ch) = true) /\
  (forall ch pwm, 1 <= ch <= 18 -> ~ 1100 <= pwm <= 1900 ->
     set_rc_input_pwms [(ch, pwm)] s = (Raise (ValueError_pwm pwm), s) /\
     is_OutOfRangeError (ValueError_pwm pwm) = true) /\
  (forall pwms, Forall valid_item pwms ->
     exists rc, set_rc_input_pwms pwms s =
                (Ok tt, log_effect (Send (rc_channels_override_send rc)) s)) /\
  (forall ch pwm, In ch [1; 18] -> 1100 <= pwm <= 1900 ->
     fst (set_rc_input_pwms [(ch, pwm)] s) = Ok tt).
Proof.
  intros Hc Ha.
  assert (Hbad : forall pre item post,
            Forall valid_item pre -> ~ valid_item item ->
            set_rc_input_pwms (pre ++ item :: post) s
            = (Raise (item_error item), s)).
  { intros pre item post Hpre Hitem.
    rewrite set_rc_input_pwms_eq, Hc, Ha. simpl.
    now rewrite fill_channels_invalid. }
  assert (Hgood : forall pwms, Forall valid_item pwms ->
            exists rc, set_rc_input_pwms pwms s =
              (Ok tt, log_effect (Send (rc_channels_override_send rc)) s)).
  { intros pwms Hall.
    destruct (fill_channels_valid pwms (replicate 18 65535) Hall) as (rc & E & _).
    exists rc. now rewrite set_rc_input_pwms_eq, Hc, Ha, E. }
  split; [exact Hbad |]. split; [| split; [| split; [exact Hgood |]]].
  - intros ch pwm Hin. split; [| reflexivity].
    change [(ch, pwm)] with ([] ++ [(ch, pwm)]).
    rewrite Hbad; [| constructor |].
    + unfold item_error; simpl.
      destruct Hin as [<- | [<- | [<- | []]]]; reflexivity.
    + unfold valid_item; simpl. destruct Hin as [<- | [<- | [<- | []]]]; lia.
  - intros ch pwm Hch Hpwm. split; [| reflexivity].
    change [(ch, pwm)] with ([] ++ [(ch, pwm)]).
    rewrite Hbad; [| constructor |].
    + unfold item_error; simpl.
      replace ((ch <? 1) || (ch >? 18)) with false by lia. reflexivity.
    + unfold valid_item; simpl. lia.
  - intros ch pwm Hin Hpwm.
    destruct (Hgood [(ch, pwm)]) as (rc & ->); [| reflexivity].
    constructor; [| constructor]. unfold valid_item; simpl.
    destruct Hin as [<- | [<- | []]]; lia.
Qed.

Lemma set_rc_input_pwms_checks_witness :
  connected linked_armed = true /\ armed linked_armed = true /\
  set_rc_input_pwms [(19, 1500)] linked_armed
  = (Raise (ValueError_channel 19), linked_armed).
Proof.
  split; [reflexivity |]. split; [reflexivity |].
  apply (set_rc_input_pwms_checks linked_armed); [reflexivity .. |].
  right. now left.
Defined.

End Actuator.

Module NormalizedInputs.
Import Float FloatFacts VehicleControl PwmFacts DictFacts RcFacts Actuator.
Local Open Scope Z_scope.

Section WithConstants.
Context `{Constants}.
(** Every logical axis is mapped to a physical channel, and distinct
    members of a Python [Enum] have distinct values. *)
Hypothesis channel_supported : forall c, 1 <= channel_value c <= 18.
Hypothesis channel_distinct :
  forall c c', channel_value c = channel_value c' -> c = c'.

Lemma pwm_of_bounds v : 1100 <= pwm_of v <= 1900.
Proof. unfold pwm_of, clamp_pwm. lia. Qed.

Lemma built_pwms_valid values pwms :
  build_pwms values [] = Ok pwms ->
  Forall valid_item pwms /\ List.NoDup (map fst pwms).
Proof.
  apply (build_pwms_inv
           (fun d => Forall valid_item d /\ List.NoDup (map fst d))).
  - intros c v d _ [Hvalid Hnd]. split; [| now apply dict_set_NoDup].
    apply List.Forall_forall. intros [k p] Hin.
    destruct (dict_set_In _ _ _ _ _ Hin) as [[= -> ->] | Hold].
    + split; simpl; [apply channel_supported | apply pwm_of_bounds].
    + rewrite List.Forall_forall in Hvalid. now apply Hvalid.
  - split; constructor.
Qed.

Lemma set_rc_inputs_returns values s :
  Forall (fun cv => (-1 <= snd cv <= 1)%Q) values ->
  fst (set_rc_inputs values s) = Ok tt.
Proof.
  intros Hall.
  destruct (build_pwms_in_range values [] Hall) as [pwms E].
  destruct (built_pwms_valid _ _ E) as [Hvalid _].
  destruct (fill_channels_valid pwms (replicate 18 65535) Hvalid)
    as (rc & Efill & _).
  unfold set_rc_inputs. rewrite E, set_rc_input_pwms_eq, Efill.
  destruct (negb (connected s) || negb (armed s)); reflexivity.
Qed.

Lemma stop_thrusters_returns s : fst (stop_thrusters s) = Ok tt.
Proof.
  apply set_rc_inputs_returns. repeat constructor; discriminate.
Qed.

(** C1: when every value of the input dict lies in [-1, 1] the call
    returns normally; the command computed for each entry is
    [round(val * 400 + 1500)], written out here with the float operations
    of the code: it lies in [1100, 1900], so that the clamp leaves it
    alone, and it is the exact [val * 400 + 1500] rounded to an integer,
    within one half plus the [2^-40] of float rounding.  This is the value
    stored in [pwms] under the entry's channel and, on a connected and
    armed vehicle, the value in the channel's slot of the one RC override
    message sent (otherwise nothing is sent).  When some value lies
    outside [-1, 1] the call raises the range error for a value of the
    dict and the object is unchanged: nothing at all is sent. *)
Theorem set_rc_inputs_all_or_nothing
    (values : list (InputChannel * Q)) (s : t) :
  (List.NoDup (map fst values) ->
   Forall (fun cv => (-1 <= snd cv <= 1)%Q) values ->
   fst (set_rc_inputs values s) = Ok tt /\
   (forall c v, In (c, v) values ->
      pwm_of v = py_round (fadd (fmul v 400) 1500) /\
      1100 <= py_round (fadd (fmul v 400) 1500) <= 1900 /\
      (v * 400 + 1500 - (1 # 2) - (1 # 1099511627776)
         <= inject_Z (py_round (fadd (fmul v 400) 1500)))%Q /\
      (inject_Z (py_round (fadd (fmul v 400) 1500))
         <= v * 400 + 1500 + (1 # 2) + (1 # 1099511627776))%Q) /\
   (exists pwms,
      build_pwms values [] = Ok pwms /\
      forall c v, In (c, v) values ->
        dict_get Z.eqb (channel_value c) pwms
        = Some (py_round (fadd (fmul v 400) 1500))) /\
   (if connected s && armed s then
      exists rc,
        snd (set_rc_inputs values s)
        = log_effect (Send (rc_channels_override_send rc)) s /\
        forall c v, In (c, v) values ->
          rc !! Z.to_nat (channel_value c - 1)
          = Some (py_round (fadd (fmul v 400) 1500))
    else snd (set_rc_inputs values s) = s))
  /\
  (Exists (fun cv => ~ (-1 <= snd cv <= 1)%Q) values ->
   exists v, In v (map snd values) /\ ~ (-1 <= v <= 1)%Q /\
     set_rc_inputs values s = (Raise (ValueError_input v), s) /\
     is_OutOfRangeError (ValueError_input v) = true).
Proof.
  split.
  - intros Hnd Hall.
    destruct (build_pwms_in_range values [] Hall) as [pwms E].
    destruct (built_pwms_valid _ _ E) as [Hvalid Hkeys].
    assert (Hval : forall c v, In (c, v) values ->
              pwm_of v = raw_pwm v /\ 1100 <= raw_pwm v <= 1900).
    { intros c v Hin. rewrite List.Forall_forall in Hall.
      specialize (Hall _ Hin). simpl in Hall.
      split; [now apply pwm_of_in_range | now apply raw_pwm_bounds]. }
    assert (Hget : forall c v, In (c, v) values ->
              dict_get Z.eqb (channel_value c) pwms = Some (raw_pwm v)).
    { intros c v Hin. destruct (Hval c v Hin) as [<- _].
      now apply (build_pwms_lookup values [] pwms channel_distinct E Hnd). }
    destruct (fill_channels_valid pwms (replicate 18 65535) Hvalid)
      as (rc & Efill & _).
    split; [now apply set_rc_inputs_returns |].
    unfold set_rc_inputs. rewrite E, set_rc_input_pwms_eq, Efill.
    split; [| split; [exists pwms; split; [reflexivity | exact Hget] |]].
    + intros c v Hin. destruct (Hval c v Hin) as [Hp Hb].
      split; [exact Hp |]. split; [exact Hb |].
      apply PwmValue.command_near.
      rewrite List.Forall_forall in Hall. exact (Hall _ Hin).
    + destruct (connected s), (armed s); simpl; try reflexivity.
      exists rc. split; [reflexivity |].
      intros c v Hin.
      apply (fill_channels_lookup pwms _ rc Efill Hvalid Hkeys).
      * apply length_replicate.
      * apply dict_get_Some_In. now apply Hget.
  - intros Hex.
    destruct (build_pwms_out_of_range values [] Hex) as (v & Hin & Hbad & E).
    exists v. unfold set_rc_inputs. rewrite E. auto.
Qed.

End WithConstants.

Lemma ardusub_supported c : 1 <= @channel_value ardusub c <= 18.
Proof. destruct c; simpl; lia. Qed.

Lemma ardusub_distinct c c' :
  @channel_value ardusub c = @channel_value ardusub c' -> c = c'.
Proof. destruct c, c'; simpl; intros E; congruence. Qed.

Lemma set_rc_inputs_all_or_nothing_witness :
  snd (@set_rc_inputs ardusub [(FORWARD, (1 # 2)%Q); (YAW, 2%Q)] linked_armed)
  = linked_armed /\
  fst (@set_rc_inputs ardusub [(FORWARD, (1 # 2)%Q); (YAW, (-1)%Q)] linked_armed)
  = Ok tt /\
  exists rc,
    snd (@set_rc_inputs ardusub [(FORWARD, (1 # 2)%Q); (YAW, (-1)%Q)]
           linked_armed)
    = log_effect (Send (rc_channels_override_send rc)) linked_armed /\
    rc !! 4%nat = Some 1700 /\ rc !! 3%nat = Some 1100.
Proof.
  split.
  - destruct (proj2 (@set_rc_inputs_all_or_nothing ardusub
               ardusub_supported ardusub_distinct
               [(FORWARD, (1 # 2)%Q); (YAW, 2%Q)] linked_armed))
      as (v & _ & _ & E & _).
    + right. left. simpl. intros [_ Hle]. revert Hle. vm_compute. auto.
    + now rewrite E.
  - destruct (proj1 (@set_rc_inputs_all_or_nothing ardusub
               ardusub_supported ardusub_distinct
               [(FORWARD, (1 # 2)%Q); (YAW, (-1)%Q)] linked_armed))
      as (Hok & _ & _ & Hsent).
    + repeat constructor; simpl; intuition discriminate.
    + repeat constructor; simpl; discriminate.
    + split; [exact Hok |].
      change (connected linked_armed && armed linked_armed) with true in Hsent.
      destruct Hsent as (rc & Es & Hrc).
      exists rc. split; [exact Es |].
      assert (E1 : py_round (fadd (fmul (1 # 2) 400) 1500) = 1700)
        by (vm_compute; reflexivity).
      assert (E2 : py_round (fadd (fmul (-1) 400) 1500) = 1100)
        by (vm_compute; reflexivity).
      split.
      * rewrite <- E1.
        exact (Hrc FORWARD (1 # 2)%Q (or_introl eq_refl)).
      * rewrite <- E2.
        exact (Hrc YAW (-1)%Q (or_intror (or_introl eq_refl))).
Defined.

End NormalizedInputs.

(** ** VehicleControl: relays, disarm, heartbeat timeout *)

Module LinkFacts.
Import Float FloatFacts VehicleControl Actuator.
Local Open Scope Z_scope.

Lemma add_effects_nil s : add_effects [] s = s.
Proof. destruct s. unfold add_effects; simpl. now rewrite app_nil_r. Qed.

Lemma add_effects_app l1 l2 s :
  add_effects l2 (add_effects l1 s) = add_effects (l1 ++ l2) s.
Proof. unfold add_effects; simpl. now rewrite app_assoc. Qed.

Lemma issued_add_effects l s : issued s (add_effects l s) = l.
Proof. unfold issued, add_effects; simpl. apply drop_app_length. Qed.

Lemma set_relay_eq relay state s :
  set_relay relay state s =
  if negb (connected s) || (negb (armed s) && state) then (Ok tt, s)
  else (Ok tt, add_effects [Start relay state] s).
Proof.
  unfold set_relay, bind, gets, is_connected, is_armed.
  destruct (negb (connected s) || (negb (armed s) && state)); reflexivity.
Qed.

(** C7: [set_relay] does nothing on a disconnected link, whatever the
    requested state, and nothing when asked to enable a relay on a disarmed
    vehicle; on a connected link a request to disable a relay is handed to
    the thread pool whether the vehicle is armed or not. *)
Theorem set_relay_gate (relay : Z) (s : t) :
  (connected s = false ->
     forall state, set_relay relay state s = (Ok tt, s)) /\
  (armed s = false -> set_relay relay true s = (Ok tt, s)) /\
  (connected s = true ->
     set_relay relay false s = (Ok tt, add_effects [Start relay false] s) /\
     issued s (snd (set_relay relay false s)) = [Start relay false]).
Proof.
  split; [| split].
  - intros Hc state. now rewrite set_relay_eq, Hc.
  - intros Ha. rewrite set_relay_eq, Ha. simpl. now rewrite orb_true_r.
  - intros Hc. rewrite set_relay_eq, Hc, andb_false_r. simpl.
    split; [reflexivity | apply issued_add_effects].
Qed.

Lemma set_relay_gate_witness :
  set_relay 1 true linked_disarmed = (Ok tt, linked_disarmed) /\
  issued linked_disarmed (snd (set_relay 1 false linked_disarmed))
  = [Start 1 false] /\
  set_relay 1 false init = (Ok tt, init).
Proof.
  destruct (set_relay_gate 1 linked_disarmed) as (_ & Hen & Hdis).
  destruct (set_relay_gate 1 init) as (Hoff & _).
  split; [apply Hen; reflexivity |].
  split; [apply Hdis; reflexivity | apply Hoff; reflexivity].
Defined.

Section WithConstants.
Context `{Constants}.

Lemma for_each_relay_off relays : forall s,
  for_each relays (fun relay => set_relay relay false) s =
  (Ok tt, add_effects (if connected s then relay_offs relays else []) s).
Proof.
  induction relays as [| r relays IH]; intros s; simpl.
  - unfold ret. destruct (connected s); now rewrite add_effects_nil.
  - unfold bind. rewrite set_relay_eq, andb_false_r, orb_false_r.
    destruct (connected s) eqn:Hc; simpl; rewrite IH; simpl; rewrite Hc.
    + now rewrite add_effects_app.
    + reflexivity.
Qed.

Lemma disarm_eq s :
  disarm s =
  (Ok tt, add_effects ((if connected s then relay_offs Relay_members else [])
                       ++ [Send arducopter_disarm]) s).
Proof.
  unfold disarm, turn_off_relays, bind. rewrite for_each_relay_off.
  unfold send, modify.
  set (offs := if connected s then relay_offs Relay_members else []).
  change (log_effect (Send arducopter_disarm) (add_effects offs s))
    with (add_effects [Send arducopter_disarm] (add_effects offs s)).
  now rewrite add_effects_app.
Qed.

(** C6, amended: [disarm] returns normally in every state; what it issues
    is, in this order, one relay-off closure per relay when the link is
    connected and none when it is not, and then the disarm command, which
    is always last.  So every relay-off that is dispatched stands before
    the disarm command in the record. *)
Theorem disarm_relays_then_command (s : t) :
  let offs := if connected s then relay_offs Relay_members else [] in
  let out := issued s (snd (disarm s)) in
  disarm s = (Ok tt, add_effects (offs ++ [Send arducopter_disarm]) s) /\
  out = offs ++ [Send arducopter_disarm] /\
  Forall (fun e => is_relay_off e = true) offs /\
  (forall i j e e',
     out !! i = Some e -> is_relay_off e = true ->
     out !! j = Some e' -> is_disarm e' = true -> (i < j)%nat).
Proof.
  intros offs out.
  assert (E : disarm s = (Ok tt, add_effects (offs ++ [Send arducopter_disarm]) s))
    by apply disarm_eq.
  assert (Eout : out = offs ++ [Send arducopter_disarm])
    by (subst out; rewrite E; apply issued_add_effects).
  assert (Hoffs : Forall (fun e => is_relay_off e = true) offs).
  { subst offs. destruct (connected s); [| constructor].
    unfold relay_offs. apply List.Forall_forall. intros e Hin.
    apply in_map_iff in Hin as (r & <- & _). reflexivity. }
  split; [exact E |]. split; [exact Eout |]. split; [exact Hoffs |].
  intros i j e e' Hi He Hj He'. rewrite Eout in Hi, Hj.
  apply lookup_app_Some in Hi as [Hi | [_ Hi]].
  - apply lookup_lt_Some in Hi.
    apply lookup_app_Some in Hj as [Hj | [Hj _]]; [| lia].
    rewrite Forall_lookup in Hoffs. specialize (Hoffs _ _ Hj).
    destruct e' as [| | ? []]; discriminate.
  - destruct (i - length offs)%nat; simpl in Hi; [| discriminate].
    injection Hi as <-. discriminate He.
Qed.

End WithConstants.

(** C6, as stated: not every call forces the relays off.  On the freshly
    constructed (disconnected) object [disarm] sends the disarm command and
    dispatches no relay-off at all. *)
Lemma disarm_disconnected_leaves_relays :
  ~ (forall s, @reachable ardusub s ->
       forall relay, In relay (@Relay_members ardusub) ->
         In (Start relay false) (issued s (snd (@disarm ardusub s)))).
Proof.
  intros Hc.
  assert (Hr : @reachable ardusub init) by (now exists []).
  specialize (Hc init Hr 0). simpl in Hc.
  destruct Hc as [E | []]; [now left | discriminate E].
Qed.

End LinkFacts.

Module HeartbeatFacts.
Import Float FloatFacts VehicleControl Actuator LinkFacts.
Local Open Scope Z_scope.

Ltac split_ifs :=
  repeat match goal with
         | |- context [if ?b then _ else _] => destruct b eqn:?
         | |- context [match ?o with Some _ => _ | None => _ end] =>
             destruct o eqn:?
         end.

Ltac run_monad :=
  cbv beta iota delta
    [bind gets when modify emit send ret raise of_option
     is_connected is_armed].

Lemma count_disconnects_app l1 l2 :
  count_disconnects (l1 ++ l2) = (count_disconnects l1 + count_disconnects l2)%nat.
Proof. unfold count_disconnects. now rewrite List.filter_app, length_app. Qed.

Lemma count_disconnects_depth hud : count_disconnects (depth_event hud) = 0%nat.
Proof. now destruct hud. Qed.

Section WithConstants.
Context `{Constants}.

Lemma update_silent s hud now :
  update None hud now s =
  if connected s then
    match last_msg_time s with
    | None => (Raise TypeError, s)
    | Some last =>
        if Qlt_bool TIMEOUT (fsub now last) then
          (Ok tt, add_effects (depth_event hud)
                    (set_connected false
                       (add_effects [Emit disconnected_signal] s)))
        else (Ok tt, add_effects (depth_event hud) s)
    end
  else (Ok tt, add_effects (depth_event hud) s).
Proof.
  unfold update. run_monad.
  destruct (connected s); [destruct (last_msg_time s) as [last |] |];
    [destruct (Qlt_bool TIMEOUT (fsub now last)) | |];
    destruct hud; simpl; rewrite ?add_effects_nil; reflexivity.
Qed.

Lemma update_heartbeat s hb hud now :
  let r := update (Some hb) hud now s in
  fst r = Ok tt /\ connected (snd r) = true /\
  last_msg_time (snd r) = Some now.
Proof.
  unfold update. run_monad. split_ifs; simpl; repeat split; auto;
    destruct (connected s); simpl in *; congruence.
Qed.

Lemma run_silent_disconnected ps : forall s,
  connected s = false ->
  exists l, run (silent_polls ps) s = add_effects l s /\
            count_disconnects l = 0%nat.
Proof.
  induction ps as [| [hud now] ps IH]; intros s Hc.
  - exists []. now rewrite add_effects_nil.
  - unfold run in *. simpl. rewrite update_silent, Hc. simpl.
    destruct (IH (add_effects (depth_event hud) s) Hc) as (l & E & Hl).
    exists (depth_event hud ++ l). rewrite E, add_effects_app.
    split; [reflexivity |].
    now rewrite count_disconnects_app, count_disconnects_depth.
Qed.

(** C5, amended: on a connected object a poll that finds no heartbeat
    disconnects when the time since the last heartbeat is strictly more
    than the 2 s timeout; it then fires the disconnect event once, and the
    heartbeat-less polls that follow, however many, fire none.  When the
    time since the last heartbeat is at most 2 s, and so when it is exactly
    2 s, the object stays connected and no disconnect event fires. *)
Theorem heartbeat_timeout_edge
    (s : t) (last now : Q) (hud : option Q) (ps : list (option Q * Q)) :
  connected s = true -> last_msg_time s = Some last ->
  let s' := snd (update None hud now s) in
  ((TIMEOUT < fsub now last)%Q ->
     fst (update None hud now s) = Ok tt /\
     connected s' = false /\
     count_disconnects (issued s s') = 1%nat /\
     connected (run (silent_polls ps) s') = false /\
     count_disconnects (issued s (run (silent_polls ps) s')) = 1%nat) /\
  ((fsub now last <= TIMEOUT)%Q ->
     update None hud now s = (Ok tt, add_effects (depth_event hud) s) /\
     connected s' = true /\
     count_disconnects (issued s s') = 0%nat) /\
  ((now - last == TIMEOUT)%Q ->
     connected s' = true /\ count_disconnects (issued s s') = 0%nat).
Proof.
  intros Hc Hl s'.
  assert (Hstay : (fsub now last <= TIMEOUT)%Q ->
     update None hud now s = (Ok tt, add_effects (depth_event hud) s) /\
     connected s' = true /\
     count_disconnects (issued s s') = 0%nat).
  { intros Hle. subst s'. rewrite update_silent, Hc, Hl.
    unfold Qlt_bool. apply Qle_bool_iff in Hle. rewrite Hle. simpl.
    split; [reflexivity |]. split; [exact Hc |].
    rewrite issued_add_effects. apply count_disconnects_depth. }
  split; [| split; [exact Hstay |]].
  - intros Hgt. subst s'. rewrite update_silent, Hc, Hl.
    assert (Hb : Qlt_bool TIMEOUT (fsub now last) = true).
    { unfold Qlt_bool. destruct (Qle_bool (fsub now last) TIMEOUT) eqn:E;
        [| reflexivity].
      apply Qle_bool_iff in E. lra. }
    rewrite Hb. simpl.
    set (s1 := add_effects (depth_event hud)
                 (set_connected false (add_effects [Emit disconnected_signal] s))).
    assert (E1 : s1 = set_connected false
                   (add_effects ([Emit disconnected_signal] ++ depth_event hud) s)).
    { subst s1. unfold add_effects, set_connected; simpl.
      now rewrite <- app_assoc. }
    assert (Hc1 : connected s1 = false) by reflexivity.
    assert (Hi1 : issued s s1 = [Emit disconnected_signal] ++ depth_event hud).
    { rewrite E1. unfold issued, set_connected, add_effects; simpl.
      apply drop_app_length. }
    destruct (run_silent_disconnected ps s1 Hc1) as (l & E & Hl0).
    split; [reflexivity |]. split; [exact Hc1 |].
    split; [rewrite Hi1, count_disconnects_app, count_disconnects_depth;
            reflexivity |].
    rewrite E. split; [exact Hc1 |].
    assert (Hi2 : issued s (add_effects l s1)
                  = ([Emit disconnected_signal] ++ depth_event hud) ++ l).
    { rewrite E1. unfold issued, set_connected, add_effects; simpl.
      rewrite <- app_assoc. apply drop_app_length. }
    rewrite Hi2, !count_disconnects_app, count_disconnects_depth, Hl0.
    reflexivity.
  - intros Heq. apply Hstay.
    assert (E : (fsub now last == fl64 TIMEOUT)%Q) by (apply fl64_proper, Heq).
    rewrite E. vm_compute. discriminate.
Qed.

End WithConstants.

Lemma heartbeat_timeout_edge_witness :
  connected (snd (@update ardusub None None 13%Q linked_armed)) = false /\
  connected (snd (@update ardusub None None 12%Q linked_armed)) = true.
Proof.
  split.
  - apply (@heartbeat_timeout_edge ardusub linked_armed 10%Q 13%Q None []);
      reflexivity.
  - apply (@heartbeat_timeout_edge ardusub linked_armed 10%Q 12%Q None []);
      reflexivity.
Defined.

(** C5, as stated: a gap of exactly the timeout does not disconnect.  Last
    heartbeat at time 10, poll at time 12: the object stays connected and
    no disconnect event fires. *)
Lemma exact_timeout_keeps_connection :
  ~ (forall (s : t) (last now : Q),
       connected s = true -> last_msg_time s = Some last ->
       (now - last == TIMEOUT)%Q ->
       let s' := snd (@update ardusub None None now s) in
       connected s' = false /\ count_disconnects (issued s s') = 1%nat).
Proof.
  intros Hc.
  destruct (Hc linked_armed 10%Q 12%Q) as [E _]; try reflexivity.
  vm_compute in E. discriminate.
Qed.

End HeartbeatFacts.

Module TimestampInvariant.
Import Float FloatFacts VehicleControl Actuator LinkFacts HeartbeatFacts.
Local Open Scope Z_scope.

Section WithConstants.
Context `{Constants}.

Lemma set_rc_inputs_appends values s :
  exists l, snd (set_rc_inputs values s) = add_effects l s.
Proof.
  unfold set_rc_inputs. destruct (build_pwms values []) as [pwms | e].
  - rewrite set_rc_input_pwms_eq.
    destruct (negb (connected s) || negb (armed s));
      [exists []; now rewrite add_effects_nil |].
    destruct (fill_channels pwms (replicate 18 65535)) as [rc | e];
      [now exists [Send (rc_channels_override_send rc)] |].
    exists []. now rewrite add_effects_nil.
  - exists []. now rewrite add_effects_nil.
Qed.

Lemma set_mode_appends m s :
  exists l, snd (set_mode m s) = add_effects l s.
Proof.
  unfold set_mode. destruct (dict_get String.eqb m mode_mapping) as [id |].
  - now exists [Send (link_set_mode id)].
  - exists []. now rewrite add_effects_nil.
Qed.

(** Every call but [update] only appends to the record. *)
Lemma perform_appends c s :
  match c with c_update _ _ _ => False | _ => True end ->
  exists l, snd (perform c s) = add_effects l s.
Proof.
  destruct c; simpl; intros Hc; try contradiction.
  - now exists [Send arducopter_arm].
  - rewrite disarm_eq. simpl. eauto.
  - rewrite set_rc_input_pwms_eq.
    destruct (negb (connected s) || negb (armed s));
      [exists []; now rewrite add_effects_nil |].
    destruct (fill_channels pwms (replicate 18 65535)) as [rc | e];
      [now exists [Send (rc_channels_override_send rc)] |].
    exists []. now rewrite add_effects_nil.
  - apply set_rc_inputs_appends.
  - apply set_rc_inputs_appends.
  - apply set_mode_appends.
  - rewrite set_relay_eq.
    destruct (negb (connected s) || (negb (armed s) && state)); simpl; eauto.
    exists []. now rewrite add_effects_nil.
  - unfold turn_off_relays. rewrite for_each_relay_off. simpl. eauto.
Qed.

Lemma update_keeps_timestamp msg hud now s :
  has_timestamp s -> has_timestamp (snd (update msg hud now s)).
Proof.
  intros Hinv. destruct msg as [hb |].
  - destruct (update_heartbeat s hb hud now) as (_ & _ & Hl).
    intros _. rewrite Hl. discriminate.
  - rewrite update_silent.
    destruct (connected s) eqn:Hc; [| intros Hc'; simpl in Hc'; congruence].
    destruct (last_msg_time s) as [last |] eqn:Hl; [| now apply Hinv].
    destruct (Qlt_bool TIMEOUT (fsub now last)); simpl.
    + intros Hc'. discriminate Hc'.
    + intros _. simpl. rewrite Hl. discriminate.
Qed.

Lemma perform_keeps_timestamp c s :
  has_timestamp s -> has_timestamp (snd (perform c s)).
Proof.
  intros Hinv.
  destruct c;
    try match goal with
        | |- has_timestamp (snd (perform ?c s)) =>
            destruct (perform_appends c s I) as [l ->]; exact Hinv
        end.
  apply update_keeps_timestamp, Hinv.
Qed.

Lemma run_keeps_timestamp cs : forall s,
  has_timestamp s -> has_timestamp (run cs s).
Proof.
  induction cs as [| c cs IH]; intros s Hinv; [exact Hinv |].
  apply IH, perform_keeps_timestamp, Hinv.
Qed.

(** C10: whenever [connected] is true, [last_msg_time] holds a timestamp.
    It holds after [__init__], where [connected] is false and
    [last_msg_time] is [None]; [update] preserves it, and so does every
    other call, so it holds in every reachable state; there [update] never
    subtracts from an unset [last_msg_time]: it returns without raising. *)
Theorem connected_has_timestamp :
  (connected init = false /\ last_msg_time init = None /\ has_timestamp init) /\
  (forall s msg hud now,
     has_timestamp s -> has_timestamp (snd (update msg hud now s))) /\
  (forall s, reachable s -> has_timestamp s) /\
  (forall s msg hud now, reachable s -> fst (update msg hud now s) = Ok tt).
Proof.
  assert (Hreach : forall s, reachable s -> has_timestamp s).
  { intros s [cs ->]. apply run_keeps_timestamp. intros Hc. discriminate Hc. }
  split; [| split; [| split; [exact Hreach |]]].
  - repeat split. intros Hc. discriminate Hc.
  - intros s msg hud now. apply update_keeps_timestamp.
  - intros s msg hud now Hr. specialize (Hreach s Hr).
    destruct msg as [hb |]; [apply update_heartbeat |].
    rewrite update_silent.
    destruct (connected s) eqn:Hc; [| reflexivity].
    destruct (last_msg_time s) as [last |] eqn:Hl.
    + destruct (Qlt_bool TIMEOUT (fsub now last)); reflexivity.
    + exfalso. now apply Hreach.
Qed.

End WithConstants.

Lemma connected_has_timestamp_witness :
  has_timestamp linked_armed /\
  fst (@update ardusub None None 15%Q linked_armed) = Ok tt.
Proof.
  assert (Hr : @reachable ardusub linked_armed).
  { now exists [c_update (Some armed_heartbeat) None 10%Q]. }
  destruct (@connected_has_timestamp ardusub) as (_ & _ & Hinv & Hok).
  split; [apply Hinv, Hr | apply Hok, Hr].
Defined.

End TimestampInvariant.

(** ** ButtonDocking *)

Module DockingFacts.
Import Float FloatFacts ButtonDocking.
Local Open Scope Z_scope.

Ltac run_monad :=
  cbv beta iota delta
    [bind gets when modify ret raise of_option on_vehicle].

(** Case analysis on an innermost scrutinee of the goal. *)
Ltac break_match :=
  match goal with
  | |- context [match ?x with _ => _ end] =>
      lazymatch x with
      | context [match _ with _ => _ end] => fail
      | _ => destruct x eqn:?; cbv beta iota
      end
  end.

Section WithConstants.
Context `{Constants} `{Libm}.

(** What [periodic] does to the phase and to the observation fields. *)
Lemma periodic_fields s :
  let s' := snd (periodic s) in
  button_pos s' = button_pos s /\ button_dims s' = button_dims s /\
  image_dims s' = image_dims s /\ start_time s' = start_time s /\
  (state s' = state s \/
   (state s = 0 /\ state s' = 1 /\ start_reached s = true) \/
   (state s = 1 /\ state s' = 2 /\ stop_reached s = true)).
Proof.
  unfold periodic, scale_of, vertical_move, horizontal_move,
    start_reached, stop_reached.
  run_monad. repeat break_match; simpl; repeat split; auto;
    repeat match goal with
           | E : (_ =? _) = true |- _ => apply Z.eqb_eq in E
           end; auto.
Qed.

Lemma initialize_fields now s :
  let s' := snd (initialize now s) in
  button_pos s' = button_pos s /\ button_dims s' = button_dims s /\
  image_dims s' = image_dims s /\
  (fst (initialize now s) = Ok tt -> state s' = 0 /\ start_time s' = now).
Proof.
  unfold initialize. run_monad. repeat break_match; simpl;
    repeat split; auto; discriminate.
Qed.

Lemma end_fields s :
  let s' := snd (end_ s) in
  button_pos s' = button_pos s /\ button_dims s' = button_dims s /\
  image_dims s' = image_dims s /\ start_time s' = start_time s /\
  state s' = state s.
Proof.
  unfold end_. run_monad. repeat break_match; simpl; repeat split; auto.
Qed.

Lemma on_vehicle_fields {A} (m : M VehicleControl.t A) s :
  let s' := snd (on_vehicle m s) in
  button_pos s' = button_pos s /\ button_dims s' = button_dims s /\
  image_dims s' = image_dims s /\ start_time s' = start_time s /\
  state s' = state s.
Proof.
  unfold on_vehicle. destruct (m (vehicle s)); simpl; repeat split; auto.
Qed.

Lemma handle_frame_fields d s :
  let s' := snd (handle_frame d s) in
  start_time s' = start_time s /\ state s' = state s /\
  (high_score d <= 0 -> s' = s).
Proof.
  unfold handle_frame.
  destruct (bounding_rect d) as [[[x y] w] h0], (shape d) as [height width].
  destruct (0 <? high_score d) eqn:E; simpl.
  - run_monad. repeat break_match; simpl; repeat split; auto; lia.
  - repeat split; auto.
Qed.

(** A step that brings no target leaves the observation fields alone. *)
Lemma step_unobserved e s :
  no_target e -> unobserved s -> unobserved (snd (step e s)).
Proof.
  unfold unobserved. intros He (Hp & Hd & Hi). destruct e; simpl in *.
  - destruct (initialize_fields now s) as (-> & -> & -> & _). auto.
  - destruct (periodic_fields s) as (-> & -> & -> & _). auto.
  - destruct (handle_frame_fields d s) as (_ & _ & ->); auto.
  - destruct (end_fields s) as (-> & -> & -> & _). auto.
  - destruct (on_vehicle_fields (VehicleControl.perform c) s)
      as (-> & -> & -> & _). auto.
Qed.

Lemma run_unobserved es : forall s,
  Forall no_target es -> unobserved s -> unobserved (run es s).
Proof.
  induction es as [| e es IH]; intros s Hall Hs; [exact Hs |].
  inversion Hall; subst. apply IH; [assumption |]. now apply step_unobserved.
Qed.

(** Outside [initialize] the phase never decreases. *)
Lemma step_phase e s :
  after_initialize e -> state s <= state (snd (step e s)).
Proof.
  intros He. destruct e; simpl in *; try contradiction.
  - destruct (periodic_fields s) as (_ & _ & _ & _ & [-> | [(-> & -> & _) | (-> & -> & _)]]); lia.
  - destruct (handle_frame_fields d s) as (_ & -> & _). lia.
  - destruct (end_fields s) as (_ & _ & _ & _ & ->). lia.
  - destruct (on_vehicle_fields (VehicleControl.perform c) s)
      as (_ & _ & _ & _ & ->). lia.
Qed.

Lemma run_phase es : forall s,
  Forall after_initialize es -> state s <= state (run es s).
Proof.
  induction es as [| e es IH]; intros s Hall; [simpl; lia |].
  inversion Hall; subst.
  etransitivity; [apply (step_phase e s); assumption |]. now apply IH.
Qed.

Lemma run_app es1 es2 s : run (es1 ++ es2) s = run es2 (run es1 s).
Proof. unfold run. apply fold_left_app. Qed.

End WithConstants.

Lemma Qlt_bool_iff a b : Qlt_bool a b = true <-> (a < b)%Q.
Proof.
  unfold Qlt_bool. rewrite negb_true_iff. split.
  - intros E. apply Qnot_le_lt. intros Hle. apply Qle_bool_iff in Hle. congruence.
  - intros Hlt. destruct (Qle_bool b a) eqn:E; [| reflexivity].
    apply Qle_bool_iff in E. lra.
Qed.

(** C3: [is_finished] is true exactly when the minimum duration has
    elapsed since [start_time] and the box width or height exceeds the end
    fraction of the frame dimension or the maximum duration has elapsed.
    As long as no frame has shown a target, the fields keep the sentinels
    of [__init__], neither box test holds, and the task is finished exactly
    when the maximum duration has elapsed. *)
Theorem is_finished_exactly `{Constants} `{Libm} :
  (forall now now' s,
     is_finished now now' s = true <->
     (fadd (start_time s) MIN_TASK_DURATION <= now)%Q /\
     ((fmul END_WIDTH_FRACTION (float_of_int (fst (image_dims s)))
       < inject_Z (fst (button_dims s)))%Q \/
      (fmul END_HEIGHT_FRACTION (float_of_int (snd (image_dims s)))
       < inject_Z (snd (button_dims s)))%Q \/
      (fadd (start_time s) MAX_TASK_DURATION <= now')%Q)) /\
  (forall v es, Forall no_target es ->
     let s := run es (init v) in
     unobserved s /\
     exceeds (fst (button_dims s)) END_WIDTH_FRACTION (fst (image_dims s))
       = false /\
     exceeds (snd (button_dims s)) END_HEIGHT_FRACTION (snd (image_dims s))
       = false /\
     forall now now',
       (is_finished now now' s = true <->
        (fadd (start_time s) MIN_TASK_DURATION <= now)%Q /\
        (fadd (start_time s) MAX_TASK_DURATION <= now')%Q) /\
       (is_finished now now s = true <->
        (fadd (start_time s) MAX_TASK_DURATION <= now)%Q)).
Proof.
  assert (Hiff : forall now now' s,
     is_finished now now' s = true <->
     (fadd (start_time s) MIN_TASK_DURATION <= now)%Q /\
     ((fmul END_WIDTH_FRACTION (float_of_int (fst (image_dims s)))
       < inject_Z (fst (button_dims s)))%Q \/
      (fmul END_HEIGHT_FRACTION (float_of_int (snd (image_dims s)))
       < inject_Z (snd (button_dims s)))%Q \/
      (fadd (start_time s) MAX_TASK_DURATION <= now')%Q)).
  { intros now now' s. unfold is_finished, exceeds.
    rewrite andb_true_iff, !orb_true_iff, !Qlt_bool_iff, !Qle_bool_iff.
    split; (intros [Hmin Hor]; split; [exact Hmin |]).
    - destruct Hor as [[Hw | Hh] | Hmax];
        [left; exact Hw | right; left; exact Hh | right; right; exact Hmax].
    - destruct Hor as [Hw | [Hh | Hmax]];
        [left; left; exact Hw | left; right; exact Hh | right; exact Hmax]. }
  split; [exact Hiff |].
  intros v es Hall s.
  assert (Hs : unobserved s).
  { apply run_unobserved; [exact Hall |]. repeat split. }
  destruct Hs as (Hp & Hd & Hi).
  assert (Hw : exceeds (fst (button_dims s)) END_WIDTH_FRACTION
                 (fst (image_dims s)) = false)
    by (rewrite Hd, Hi; vm_compute; reflexivity).
  assert (Hh : exceeds (snd (button_dims s)) END_HEIGHT_FRACTION
                 (snd (image_dims s)) = false)
    by (rewrite Hd, Hi; vm_compute; reflexivity).
  split; [repeat split; assumption |]. split; [exact Hw |].
  split; [exact Hh |].
  assert (Hboth : forall now now',
     is_finished now now' s = true <->
     (fadd (start_time s) MIN_TASK_DURATION <= now)%Q /\
     (fadd (start_time s) MAX_TASK_DURATION <= now')%Q).
  { intros now now'. unfold is_finished. rewrite Hw, Hh. simpl.
    rewrite andb_true_iff, !Qle_bool_iff. reflexivity. }
  intros now now'. split; [apply Hboth |].
  rewrite Hboth. split; [intros [_ Hmax]; exact Hmax |].
  intros Hmax. split; [| exact Hmax].
  eapply Qle_trans; [| exact Hmax].
  apply fadd_mono; [lra | discriminate].
Qed.

Lemma is_finished_exactly_witness :
  let s := @run ardusub binade_log
             [e_initialize 100%Q;
              e_handle_frame {| high_score := 0; bounding_rect := (0, 0, 0, 0);
                                shape := (480, 1280) |};
              e_periodic]
             (init VehicleControl.init) in
  (fadd (start_time s) MAX_TASK_DURATION <= 600)%Q /\
  is_finished 600%Q 600%Q s = true.
Proof.
  intros s.
  assert (Hmax : (fadd (start_time s) MAX_TASK_DURATION <= 600)%Q)
    by (vm_compute; discriminate).
  split; [exact Hmax |].
  assert (Hall : Forall no_target
            [e_initialize 100%Q;
             e_handle_frame {| high_score := 0; bounding_rect := (0, 0, 0, 0);
                               shape := (480, 1280) |};
             e_periodic]).
  { repeat constructor. simpl. lia. }
  destruct (proj2 (@is_finished_exactly ardusub binade_log)
              VehicleControl.init _ Hall) as (_ & _ & _ & Hfin).
  apply (Hfin 600%Q 600%Q). exact Hmax.
Defined.

Section Phases.
Context `{Constants} `{Libm}.
Hypothesis channel_supported : forall c, 1 <= channel_value c <= 18.

Lemma set_mode_returns m v : fst (VehicleControl.set_mode m v) = Ok tt.
Proof.
  unfold VehicleControl.set_mode.
  destruct (dict_get String.eqb m mode_mapping); reflexivity.
Qed.

Lemma initialize_returns now s :
  fst (initialize now s) = Ok tt /\ state (snd (initialize now s)) = 0 /\
  start_time (snd (initialize now s)) = now.
Proof.
  unfold initialize. run_monad.
  pose proof (NormalizedInputs.stop_thrusters_returns channel_supported
                (vehicle s)) as Hstop.
  destruct (VehicleControl.stop_thrusters (vehicle s)) as [r v].
  simpl in Hstop. subst r. cbv beta iota.
  match goal with
  | |- context [VehicleControl.set_mode ?m ?v] =>
      pose proof (set_mode_returns m v) as Hmode;
      destruct (VehicleControl.set_mode m v) as [r' v']
  end.
  simpl in Hmode. subst r'. simpl. auto.
Qed.

Lemma step_phase_range e s :
  0 <= state s <= 2 -> 0 <= state (snd (step e s)) <= 2.
Proof.
  intros Hs. destruct e; simpl.
  - destruct (initialize_returns now s) as (_ & -> & _). lia.
  - destruct (periodic_fields s)
      as (_ & _ & _ & _ & [-> | [(_ & -> & _) | (_ & -> & _)]]); lia.
  - destruct (handle_frame_fields d s) as (_ & -> & _). lia.
  - destruct (end_fields s) as (_ & _ & _ & _ & ->). lia.
  - destruct (on_vehicle_fields (VehicleControl.perform c) s)
      as (_ & _ & _ & _ & ->). lia.
Qed.

Lemma run_phase_range es : forall s,
  0 <= state s <= 2 -> 0 <= state (run es s) <= 2.
Proof.
  induction es as [| e es IH]; intros s Hs; [exact Hs |].
  apply IH, step_phase_range, Hs.
Qed.

(** C4: [initialize] returns with the phase at 0 (crawl); a call of
    [periodic] keeps the phase, or moves it from 0 to 1 when the start
    condition holds, or from 1 to 2 when the stop condition holds;
    [handle_frame] never touches it.  So along any sequence of calls made
    after [initialize] the phase stays within 0..2, never decreases, and a
    phase that has been left is not entered again. *)
Theorem phase_only_advances :
  (forall now s,
     fst (initialize now s) = Ok tt /\ state (snd (initialize now s)) = 0) /\
  (forall s,
     let s' := snd (periodic s) in
     state s' = state s \/
     (state s = 0 /\ state s' = 1 /\ start_reached s = true) \/
     (state s = 1 /\ state s' = 2 /\ stop_reached s = true)) /\
  (forall d s, state (snd (handle_frame d s)) = state s) /\
  (forall now s0 es, Forall after_initialize es ->
     0 <= state (run es (snd (initialize now s0))) <= 2) /\
  (forall s es1 es2,
     Forall after_initialize es1 -> Forall after_initialize es2 ->
     state (run es1 s) <= state (run (es1 ++ es2) s)) /\
  (forall s es1 es2 es3,
     Forall after_initialize es1 -> Forall after_initialize es2 ->
     Forall after_initialize es3 ->
     state (run (es1 ++ es2) s) <> state (run es1 s) ->
     state (run (es1 ++ es2 ++ es3) s) <> state (run es1 s)).
Proof.
  split; [| split; [| split; [| split; [| split]]]].
  - intros now s. destruct (initialize_returns now s) as (E & Hs & _). auto.
  - intros s. apply periodic_fields.
  - intros d s. apply handle_frame_fields.
  - intros now s0 es _. apply run_phase_range.
    destruct (initialize_returns now s0) as (_ & -> & _). lia.
  - intros s es1 es2 _ H2. rewrite run_app. now apply run_phase.
  - intros s es1 es2 es3 _ H2 H3 Hleft.
    rewrite app_assoc, (run_app (es1 ++ es2) es3).
    pose proof (run_phase es3 (run (es1 ++ es2) s) H3) as Hup.
    rewrite run_app in Hleft, Hup |- *.
    pose proof (run_phase es2 (run es1 s) H2). lia.
Qed.

End Phases.

Lemma phase_only_advances_witness :
  let seen := e_handle_frame {| high_score := 5000;
                                bounding_rect := (300, 200, 100, 50);
                                shape := (480, 1280) |} in
  let s0 := snd (@initialize ardusub 100%Q (init VehicleControl.init)) in
  state (@run ardusub binade_log [seen; e_periodic] s0) = 1 /\
  state (@run ardusub binade_log [seen; e_periodic; e_periodic] s0) = 2 /\
  state (@run ardusub binade_log [seen; e_periodic] s0)
  <= state (@run ardusub binade_log ([seen; e_periodic] ++ [e_periodic]) s0).
Proof.
  intros seen s0.
  split; [vm_compute; reflexivity |]. split; [vm_compute; reflexivity |].
  apply (@phase_only_advances ardusub binade_log
           NormalizedInputs.ardusub_supported);
    repeat constructor.
Defined.

End DockingFacts.

(** ** VehicleControl: events are edge-triggered *)

Module LinkEvents.
Import Float FloatFacts VehicleControl Actuator LinkFacts HeartbeatFacts Polls.
Local Open Scope Z_scope.

Lemma count_app f l1 l2 : count f (l1 ++ l2) = (count f l1 + count f l2)%nat.
Proof. unfold count. now rewrite List.filter_app, length_app. Qed.

Lemma count_depth f hud :
  f = is_arm_event \/ f = is_connect \/ f = is_disconnect ->
  count f (depth_event hud) = 0%nat.
Proof. intros [-> | [-> | ->]]; now destruct hud. Qed.

Lemma last_nonempty {A} (b : A) l d d' :
  List.last (b :: l) d = List.last (b :: l) d'.
Proof.
  revert b. induction l as [| a l IH]; intros b; [reflexivity |].
  change (List.last (a :: l) d = List.last (a :: l) d'). apply IH.
Qed.

Lemma issued_trans s l1 l2 :
  issued s (add_effects l2 (add_effects l1 s)) = l1 ++ l2.
Proof. rewrite add_effects_app. apply issued_add_effects. Qed.

Section WithConstants.
Context `{Constants}.

(** What a poll that reads a heartbeat does to the object. *)
Lemma update_heartbeat_full s hb hud now :
  let s' := snd (update (Some hb) hud now s) in
  last_msg_time s' = Some now /\ connected s' = true /\
  armed s' = armed_bit hb /\ mode_id s' = Some (custom_mode hb) /\
  mode s' = (if option_Z_eqb (Some (custom_mode hb)) (mode_id s) then mode s
             else find_mode mode_mapping (custom_mode hb)) /\
  record s' = record s ++ heartbeat_events hb hud s.
Proof.
  unfold update, heartbeat_events, armed_bit. run_monad.
  destruct s as [l c a mi m r]; simpl.
  destruct mi as [i |];
    destruct c, (Z.land (base_mode hb) 128 =? 128), a, hud; simpl;
    try match goal with
        | |- context [custom_mode hb =? ?i] =>
            destruct (custom_mode hb =? i) eqn:Em; simpl
        end;
    rewrite <- ?app_assoc, ?app_nil_r; simpl; repeat split; auto;
    apply Z.eqb_eq in Em; congruence.
Qed.

Lemma issued_append s s' l : record s' = record s ++ l -> issued s s' = l.
Proof. intros E. unfold issued. rewrite E. apply drop_app_length. Qed.

Lemma heartbeat_events_counts hb hud s :
  count is_arm_event (heartbeat_events hb hud s)
  = (if Bool.eqb (armed_bit hb) (armed s) then 0 else 1)%nat /\
  count is_connect (heartbeat_events hb hud s)
  = (if connected s then 0 else 1)%nat /\
  count is_disconnect (heartbeat_events hb hud s) = 0%nat.
Proof.
  unfold heartbeat_events.
  destruct (connected s), (Bool.eqb (armed_bit hb) (armed s)),
    (armed_bit hb), (option_Z_eqb (Some (custom_mode hb)) (mode_id s)), hud;
    repeat split; reflexivity.
Qed.

(** What a poll that reads no heartbeat does to the object. *)
Lemma update_silent_full s hud now :
  let s' := snd (update None hud now s) in
  armed s' = armed s /\ mode_id s' = mode_id s /\ mode s' = mode s /\
  last_msg_time s' = last_msg_time s /\
  exists l, record s' = record s ++ l /\
    count is_arm_event l = 0%nat /\ count is_connect l = 0%nat /\
    (count is_disconnect l + Nat.b2n (connected s'))%nat
    = Nat.b2n (connected s).
Proof.
  rewrite update_silent.
  destruct (connected s) eqn:Hc;
    [destruct (last_msg_time s) as [last |] eqn:Hl;
     [destruct (Qlt_bool TIMEOUT (fsub now last)) |] |]; simpl;
    repeat split; auto.
  - exists ([Emit disconnected_signal] ++ depth_event hud).
    rewrite app_assoc. split; [reflexivity |]. now destruct hud.
  - exists (depth_event hud). rewrite Hc. split; [reflexivity |]. now destruct hud.
  - exists []. rewrite Hc, app_nil_r. auto.
  - exists (depth_event hud). rewrite Hc. split; [reflexivity |]. now destruct hud.
Qed.

(** Every call but [update] appends commands to the record, never a
    signal, and leaves the tracked fields alone. *)
Lemma perform_command c s :
  is_update c = false ->
  exists l, snd (perform c s) = add_effects l s /\
            Forall (fun e => is_signal e = false) l.
Proof.
  assert (Hrc : forall pwms,
            exists l, snd (set_rc_input_pwms pwms s) = add_effects l s /\
                      Forall (fun e => is_signal e = false) l).
  { intros pwms. rewrite set_rc_input_pwms_eq.
    destruct (negb (connected s) || negb (armed s));
      [exists []; now rewrite add_effects_nil |].
    destruct (fill_channels pwms (replicate 18 65535)) as [rc | e].
    - exists [Send (rc_channels_override_send rc)]. split; [reflexivity |].
      now repeat constructor.
    - exists []. now rewrite add_effects_nil. }
  assert (Hin : forall values,
            exists l, snd (set_rc_inputs values s) = add_effects l s /\
                      Forall (fun e => is_signal e = false) l).
  { intros values. unfold set_rc_inputs.
    destruct (build_pwms values []) as [pwms | e]; [apply Hrc |].
    exists []. now rewrite add_effects_nil. }
  destruct c; simpl; intros Hc; try discriminate.
  - exists [Send arducopter_arm]. split; [reflexivity | now repeat constructor].
  - rewrite disarm_eq. simpl. eexists. split; [reflexivity |].
    apply Forall_app. split; [| now repeat constructor].
    destruct (connected s); [| constructor].
    unfold relay_offs. apply List.Forall_forall. intros e Hin'.
    apply in_map_iff in Hin' as (r & <- & _). reflexivity.
  - apply Hrc.
  - apply Hin.
  - apply Hin.
  - unfold set_mode. destruct (dict_get String.eqb mode0 mode_mapping) as [id |].
    + exists [Send (link_set_mode id)]. split; [reflexivity | now repeat constructor].
    + exists []. now rewrite add_effects_nil.
  - rewrite set_relay_eq.
    destruct (negb (connected s) || (negb (armed s) && state)); simpl.
    + exists []. now rewrite add_effects_nil.
    + exists [Start relay state]. split; [reflexivity | now repeat constructor].
  - unfold turn_off_relays. rewrite for_each_relay_off. simpl.
    eexists. split; [reflexivity |].
    destruct (connected s); [| constructor].
    unfold relay_offs. apply List.Forall_forall. intros e Hin'.
    apply in_map_iff in Hin' as (r & <- & _). reflexivity.
Qed.

Lemma no_signal_counts l f :
  Forall (fun e => is_signal e = false) l ->
  f = is_arm_event \/ f = is_connect \/ f = is_disconnect ->
  count f l = 0%nat.
Proof.
  intros Hall Hf. induction Hall as [| e l He _ IH]; [reflexivity |].
  unfold count in *. simpl.
  assert (Hfe : f e = false)
    by (destruct Hf as [-> | [-> | ->]]; destruct e as [[] | |]; auto; discriminate).
  now rewrite Hfe.
Qed.

(** One call, seen through the record and the flags. *)
Lemma perform_events c s :
  let s' := snd (perform c s) in
  exists l, record s' = record s ++ l /\
    (count is_connect l + Nat.b2n (connected s))%nat
    = (count is_disconnect l + Nat.b2n (connected s'))%nat.
Proof.
  destruct (is_update c) eqn:Hu.
  - destruct c; try discriminate. simpl.
    destruct msg as [hb |].
    + destruct (update_heartbeat_full s hb hud now) as (_ & -> & _ & _ & _ & ->).
      eexists. split; [reflexivity |].
      destruct (heartbeat_events_counts hb hud s) as (_ & -> & ->).
      now destruct (connected s).
    + destruct (update_silent_full s hud now) as (_ & _ & _ & _ & l & E & _ & C & B).
      exists l. split; [exact E | lia].
  - destruct (perform_command c s Hu) as (l & -> & Hl).
    exists l. split; [reflexivity |]. simpl.
    now rewrite !(no_signal_counts l) by auto.
Qed.

(** X2: connection events are balanced against the flag.  Over any
    sequence of calls, the number of connected signals plus the initial
    flag equals the number of disconnected signals plus the final flag: the
    two signals are fired on the edges of [connected] and nowhere else. *)
Theorem connection_events_balance (cs : list call) (s : t) :
  let s' := run cs s in
  (count is_connect (issued s s') + Nat.b2n (connected s))%nat
  = (count is_disconnect (issued s s') + Nat.b2n (connected s'))%nat.
Proof.
  assert (Hgen : forall cs s, exists l, record (run cs s) = record s ++ l /\
            (count is_connect l + Nat.b2n (connected s))%nat
            = (count is_disconnect l + Nat.b2n (connected (run cs s)))%nat).
  { clear cs s. induction cs as [| c cs IH]; intros s.
    - exists []. now rewrite app_nil_r.
    - destruct (perform_events c s) as (l1 & E1 & B1).
      destruct (IH (snd (perform c s))) as (l2 & E2 & B2).
      exists (l1 ++ l2). unfold run in *. simpl.
      rewrite E2, E1, <- app_assoc. split; [reflexivity |].
      rewrite !count_app. lia. }
  intros s'. destruct (Hgen cs s) as (l & E & B).
  subst s'. now rewrite (issued_append _ _ _ E).
Qed.

(** X1: arm events follow the reported bit.  Over any sequence of polls
    the number of armed and disarmed signals equals the number of times
    the armed bit reported by a heartbeat differs from the one before it
    (the stored flag, for the first); polls without a heartbeat fire none.
    The flag ends as the last reported bit. *)
Theorem arm_events_follow_reports (ps : list poll) (s : t) :
  let s' := run (map poll_call ps) s in
  count is_arm_event (issued s s') = flips (armed s) (reported_bits ps) /\
  armed s' = List.last (reported_bits ps) (armed s).
Proof.
  assert (Hgen : forall ps s, exists l,
            record (run (map poll_call ps) s) = record s ++ l /\
            count is_arm_event l = flips (armed s) (reported_bits ps) /\
            armed (run (map poll_call ps) s)
            = List.last (reported_bits ps) (armed s)).
  { clear ps s. induction ps as [| [[msg hud] now] ps IH]; intros s.
    - exists []. now rewrite app_nil_r.
    - unfold run in *. simpl. destruct msg as [hb |].
      + destruct (update_heartbeat_full s hb hud now) as (_ & _ & Ha & _ & _ & E1).
        destruct (IH (snd (update (Some hb) hud now s))) as (l2 & E2 & C2 & A2).
        exists (heartbeat_events hb hud s ++ l2).
        rewrite E2, E1, <- app_assoc. split; [reflexivity |].
        rewrite count_app, C2, A2, Ha.
        destruct (heartbeat_events_counts hb hud s) as (-> & _).
        split; [reflexivity |].
        destruct (reported_bits ps) as [| b bits]; [reflexivity |].
        change (List.last (b :: bits) (armed_bit hb)
                = List.last (b :: bits) (armed s)).
        apply last_nonempty.
      + destruct (update_silent_full s hud now) as (Ha & _ & _ & _ & l1 & E1 & C1 & _).
        destruct (IH (snd (update None hud now s))) as (l2 & E2 & C2 & A2).
        exists (l1 ++ l2). rewrite E2, E1, <- app_assoc. split; [reflexivity |].
        rewrite count_app, C1, C2, A2, Ha. auto. }
  intros s'. destruct (Hgen ps s) as (l & E & C & A).
  subst s'. now rewrite (issued_append _ _ _ E).
Qed.

(** X3: only [update] changes what the object knows of the vehicle.  Any
    other call leaves [last_msg_time], [connected], [armed], [mode_id] and
    [mode] as they were and fires no signal; in particular [arm] and
    [disarm] do not touch [armed], which changes only when a heartbeat
    reports it. *)
Theorem commands_keep_link_state (c : call) (s : t) :
  is_update c = false ->
  let s' := snd (perform c s) in
  last_msg_time s' = last_msg_time s /\ connected s' = connected s /\
  armed s' = armed s /\ mode_id s' = mode_id s /\ mode s' = mode s /\
  Forall (fun e => is_signal e = false) (issued s s').
Proof.
  intros Hc s'. subst s'.
  destruct (perform_command c s Hc) as (l & -> & Hl).
  rewrite issued_add_effects. repeat split; auto.
Qed.

(** X4: on a disconnected object the RC override path and the relays do
    nothing at all: whatever the arguments, the calls [set_rc_input_pwms],
    [set_rc_inputs], [stop_thrusters], [set_relay] and [turn_off_relays]
    leave the object, its record included, exactly as it was. *)
Theorem gated_calls_dropped (c : call) (s : t) :
  needs_link c = true -> connected s = false ->
  snd (perform c s) = s.
Proof.
  intros Hn Hc.
  assert (Hrc : forall pwms, snd (set_rc_input_pwms pwms s) = s)
    by (intros pwms; now rewrite set_rc_input_pwms_eq, Hc).
  assert (Hin : forall values, snd (set_rc_inputs values s) = s).
  { intros values. unfold set_rc_inputs.
    destruct (build_pwms values []); [apply Hrc | reflexivity]. }
  destruct c; try discriminate Hn; cbn [perform].
  - apply Hrc.
  - apply Hin.
  - apply Hin.
  - now rewrite set_relay_eq, Hc.
  - unfold turn_off_relays. rewrite for_each_relay_off, Hc. simpl.
    apply add_effects_nil.
Qed.

End WithConstants.

Lemma commands_keep_link_state_witness :
  is_update c_disarm = false /\
  armed (snd (@perform ardusub c_disarm linked_armed)) = true.
Proof.
  split; [reflexivity |].
  destruct (@commands_keep_link_state ardusub c_disarm linked_armed eq_refl)
    as (_ & _ & -> & _).
  reflexivity.
Defined.

Lemma gated_calls_dropped_witness :
  needs_link (c_set_relay 1 false) = true /\ connected init = false /\
  snd (@perform ardusub (c_set_relay 1 false) init) = init.
Proof.
  split; [reflexivity |]. split; [reflexivity |].
  apply (@gated_calls_dropped ardusub); reflexivity.
Defined.

End LinkEvents.

(** ** VehicleControl: what the commands send *)

Module CommandFacts.
Import Float FloatFacts VehicleControl PwmFacts DictFacts RcFacts Actuator
  NormalizedInputs LinkFacts Polls LinkEvents.
Local Open Scope Z_scope.

Lemma set_rc_input_pwms_dropped_eq pwms s :
  connected s = false \/ armed s = false ->
  snd (set_rc_input_pwms pwms s) = s.
Proof.
  intros Hoff. rewrite set_rc_input_pwms_eq.
  destruct Hoff as [-> | ->]; [reflexivity |].
  now rewrite orb_true_r.
Qed.

Lemma string_dict_get_In {V} k (v : V) d :
  dict_get String.eqb k d = Some v -> In (k, v) d.
Proof.
  induction d as [| [k' v'] d IH]; simpl; [discriminate |].
  destruct (String.eqb k k') eqn:E.
  - apply String.eqb_eq in E. intros [= ->]. left. now subst.
  - auto.
Qed.

(** With distinct mode ids, the name looked up for an id is the name
    whose lookup gave the id. *)
Lemma find_mode_dict_get mapping name id :
  List.NoDup (map snd mapping) ->
  dict_get String.eqb name mapping = Some id ->
  find_mode mapping id = Some name.
Proof.
  induction mapping as [| [m mid] mapping IH]; simpl; [discriminate |].
  intros Hnd Hget. inversion Hnd as [| ? ? Hfresh Hnd']; subst.
  destruct (String.eqb name m) eqn:E.
  - apply String.eqb_eq in E. injection Hget as ->. subst m.
    now rewrite Z.eqb_refl.
  - destruct (mid =? id) eqn:Eid; [| now apply IH].
    apply Z.eqb_eq in Eid. subst mid. exfalso. apply Hfresh.
    apply string_dict_get_In in Hget. apply in_map_iff. now exists (name, id).
Qed.

Section WithConstants.
Context `{Constants}.

(** X5: mode names and ids round-trip.  [set_mode] with a name that is not
    in the link's table sends nothing and does not raise.  With a name of
    the table it sends that name's id, whatever the connection state; and
    when the ids of the table are distinct, a later heartbeat that reports
    this id as a new mode id stores the same name in [mode] and fires the
    mode signal with it. *)
Theorem set_mode_roundtrip (name : string) (s : t) :
  List.NoDup (map snd mode_mapping) ->
  (dict_get String.eqb name mode_mapping = None ->
   set_mode name s = (Ok tt, s)) /\
  (forall id, dict_get String.eqb name mode_mapping = Some id ->
     set_mode name s = (Ok tt, add_effects [Send (link_set_mode id)] s) /\
     forall s1 hb hud now,
       custom_mode hb = id -> mode_id s1 <> Some id ->
       let s2 := snd (update (Some hb) hud now s1) in
       mode_id s2 = Some id /\ mode s2 = Some name /\
       In (Emit (mode_signal (Some name))) (issued s1 s2)).
Proof.
  intros Hnd. split.
  - intros Hget. unfold set_mode. now rewrite Hget.
  - intros id Hget. split; [unfold set_mode; now rewrite Hget |].
    intros s1 hb hud now Hid Hnew s2. subst s2.
    destruct (update_heartbeat_full s1 hb hud now) as (_ & _ & _ & Emi & Em & Er).
    assert (Hneq : option_Z_eqb (Some (custom_mode hb)) (mode_id s1) = false).
    { rewrite Hid. destruct (mode_id s1) as [i |]; simpl; [| reflexivity].
      destruct (id =? i) eqn:E; [| reflexivity].
      apply Z.eqb_eq in E. congruence. }
    rewrite Hneq in Em. rewrite Hid in Em, Emi.
    rewrite (find_mode_dict_get _ _ _ Hnd Hget) in Em.
    split; [exact Emi |]. split; [exact Em |].
    rewrite (issued_append _ _ _ Er). unfold heartbeat_events.
    rewrite Hneq, Hid, (find_mode_dict_get _ _ _ Hnd Hget).
    apply in_or_app. right. apply in_or_app. right. now left.
Qed.

(** X6: the shape of an RC override.  On a connected and armed vehicle a
    dict of valid items is sent as one message of exactly 18 slots: the
    slot of each listed channel holds its PWM and every other slot holds
    65535, the value that tells the autopilot to ignore the channel. *)
Theorem rc_override_shape (pwms : list (Z * Z)) (s : t) :
  connected s = true -> armed s = true ->
  Forall valid_item pwms -> List.NoDup (map fst pwms) ->
  exists rc,
    set_rc_input_pwms pwms s
    = (Ok tt, add_effects [Send (rc_channels_override_send rc)] s) /\
    length rc = 18%nat /\
    (forall ch pwm, In (ch, pwm) pwms -> rc !! Z.to_nat (ch - 1) = Some pwm) /\
    (forall i, (i < 18)%nat ->
       (forall ch, In ch (map fst pwms) -> Z.to_nat (ch - 1) <> i) ->
       rc !! i = Some 65535).
Proof.
  intros Hc Ha Hvalid Hnd.
  destruct (fill_channels_valid pwms (replicate 18 65535) Hvalid)
    as (rc & E & Hlen).
  exists rc. rewrite set_rc_input_pwms_eq, Hc, Ha, E.
  split; [reflexivity |]. rewrite length_replicate in Hlen.
  split; [exact Hlen |]. split.
  - intros ch pwm Hin.
    apply (fill_channels_lookup pwms _ rc E Hvalid Hnd); [| exact Hin].
    apply length_replicate.
  - intros i Hi Hother.
    rewrite (fill_channels_other pwms i _ rc E).
    + now apply lookup_replicate_2.
    + intros [ch pwm] Hin. apply Hother. apply in_map_iff. now exists (ch, pwm).
Qed.

End WithConstants.

Lemma rc_override_shape_witness :
  exists rc,
    set_rc_input_pwms [(5, 1700); (3, 1500)] linked_armed
    = (Ok tt, add_effects [Send (rc_channels_override_send rc)] linked_armed) /\
    rc !! 4%nat = Some 1700 /\ rc !! 0%nat = Some 65535.
Proof.
  destruct (rc_override_shape [(5, 1700); (3, 1500)] linked_armed)
    as (rc & E & _ & Hin & Hout).
  - reflexivity.
  - reflexivity.
  - repeat constructor; simpl; lia.
  - repeat constructor; simpl; intuition discriminate.
  - exists rc. split; [exact E |]. split.
    + apply (Hin 5 1700). now left.
    + apply Hout; [lia |]. simpl. intros ch [<- | [<- | []]]; discriminate.
Defined.

Lemma set_mode_roundtrip_witness :
  List.NoDup (map snd (@mode_mapping ardusub)) /\
  mode (snd (@update ardusub (Some armed_heartbeat) None 10%Q init))
  = Some "MANUAL"%string.
Proof.
  assert (Hnd : List.NoDup (map snd (@mode_mapping ardusub)))
    by (repeat constructor; simpl; intuition discriminate).
  split; [exact Hnd |].
  destruct (@set_mode_roundtrip ardusub "MANUAL"%string init Hnd) as [_ Hknown].
  destruct (Hknown 19 eq_refl) as [_ Hback].
  apply (Hback init armed_heartbeat None 10%Q); [reflexivity | discriminate].
Defined.

Section Channels.
Context `{Constants}.
Hypothesis channel_supported : forall c, 1 <= channel_value c <= 18.
Hypothesis channel_distinct :
  forall c c', channel_value c = channel_value c' -> c = c'.

Lemma build_pwms_keys values : forall acc pwms,
  build_pwms values acc = Ok pwms ->
  forall k, In k (map fst pwms) ->
    In k (map fst acc) \/ exists c v, In (c, v) values /\ k = channel_value c.
Proof.
  induction values as [| [c v] values IH]; intros acc pwms E k Hk; simpl in E.
  - injection E as <-. now left.
  - destruct (in_range v); simpl in E; [| discriminate].
    destruct (IH _ _ E k Hk) as [Hacc | (c' & v' & Hin & ->)].
    + destruct (dict_set_keys _ _ _ _ Hacc) as [-> | Hold]; [| now left].
      right. exists c, v. split; [now left | reflexivity].
    + right. exists c', v'. split; [now right | reflexivity].
Qed.

(** What [set_rc_inputs] sends for a dict of in-range values. *)
Lemma set_rc_inputs_sent values s :
  connected s = true -> armed s = true ->
  List.NoDup (map fst values) ->
  Forall (fun cv => (-1 <= snd cv <= 1)%Q) values ->
  exists rc,
    set_rc_inputs values s
    = (Ok tt, add_effects [Send (rc_channels_override_send rc)] s) /\
    length rc = 18%nat /\
    (forall c v, In (c, v) values ->
       rc !! Z.to_nat (channel_value c - 1) = Some (pwm_of v)) /\
    (forall i, (i < 18)%nat ->
       (forall c v, In (c, v) values -> Z.to_nat (channel_value c - 1) <> i) ->
       rc !! i = Some 65535).
Proof.
  intros Hc Ha Hnd Hall.
  destruct (build_pwms_in_range values [] Hall) as [pwms E].
  destruct (built_pwms_valid channel_supported _ _ E) as [Hvalid Hkeys].
  destruct (fill_channels_valid pwms (replicate 18 65535) Hvalid)
    as (rc & Efill & Hlen).
  exists rc. unfold set_rc_inputs.
  rewrite E, set_rc_input_pwms_eq, Hc, Ha, Efill.
  split; [reflexivity |]. rewrite length_replicate in Hlen.
  split; [exact Hlen |]. split.
  - intros c v Hin.
    apply (fill_channels_lookup pwms _ rc Efill Hvalid Hkeys).
    + apply length_replicate.
    + apply dict_get_Some_In.
      now apply (build_pwms_lookup values [] pwms channel_distinct E Hnd).
  - intros i Hi Hother.
    rewrite (fill_channels_other pwms i _ rc Efill).
    + now apply lookup_replicate_2.
    + intros [k pwm] Hin.
      destruct (build_pwms_keys values [] pwms E k) as [[] | (c & v & Hcv & ->)].
      * apply in_map_iff. now exists (k, pwm).
      * now apply (Hother c v).
Qed.

(** X7: axes that are not commanded are left to the autopilot.  For a dict
    of in-range values on a connected and armed vehicle, [set_rc_inputs]
    sends one message of 18 slots in which every slot that is not the slot
    of a listed channel holds the ignore value 65535. *)
Theorem set_rc_inputs_ignores_absent
    (values : list (InputChannel * Q)) (s : t) :
  connected s = true -> armed s = true ->
  List.NoDup (map fst values) ->
  Forall (fun cv => (-1 <= snd cv <= 1)%Q) values ->
  exists rc,
    issued s (snd (set_rc_inputs values s))
    = [Send (rc_channels_override_send rc)] /\
    length rc = 18%nat /\
    (forall i, (i < 18)%nat ->
       (forall c v, In (c, v) values -> Z.to_nat (channel_value c - 1) <> i) ->
       rc !! i = Some 65535).
Proof.
  intros Hc Ha Hnd Hall.
  destruct (set_rc_inputs_sent values s Hc Ha Hnd Hall)
    as (rc & E & Hlen & _ & Hout).
  exists rc. rewrite E. simpl. rewrite issued_add_effects. auto.
Qed.

(** X8: [stop_thrusters] never raises.  On a connected and armed vehicle
    it sends exactly one RC override, with the neutral PWM 1500 in the slot
    of each of the six axes and 65535 in the twelve others; otherwise it
    sends nothing. *)
Theorem stop_thrusters_neutral (s : t) :
  fst (stop_thrusters s) = Ok tt /\
  (connected s = true -> armed s = true ->
   exists rc,
     issued s (snd (stop_thrusters s))
     = [Send (rc_channels_override_send rc)] /\
     length rc = 18%nat /\
     (forall c, rc !! Z.to_nat (channel_value c - 1) = Some 1500) /\
     (forall i, (i < 18)%nat ->
        (forall c, Z.to_nat (channel_value c - 1) <> i) ->
        rc !! i = Some 65535)) /\
  (connected s = false \/ armed s = false -> snd (stop_thrusters s) = s).
Proof.
  split; [apply (stop_thrusters_returns channel_supported) |]. split.
  - intros Hc Ha. unfold stop_thrusters.
    match goal with
    | |- context [set_rc_inputs ?values s] =>
        destruct (set_rc_inputs_sent values s Hc Ha)
          as (rc & E & Hlen & Hin & Hout)
    end.
    + repeat constructor; simpl; intuition discriminate.
    + repeat constructor; discriminate.
    + exists rc. rewrite E. simpl. rewrite issued_add_effects.
      split; [reflexivity |]. split; [exact Hlen |]. split.
      * intros c. change 1500 with (pwm_of 0).
        apply (Hin c 0%Q). destruct c; simpl; auto 10.
      * intros i Hi Hother. apply Hout; [exact Hi |].
        intros c v _. apply Hother.
  - intros Hoff. unfold stop_thrusters, set_rc_inputs.
    destruct (build_pwms _ []) as [pwms | e]; [| reflexivity].
    now rewrite (set_rc_input_pwms_dropped_eq pwms s Hoff).
Qed.

End Channels.

Lemma set_rc_inputs_ignores_absent_witness :
  exists rc,
    issued linked_armed
      (snd (@set_rc_inputs ardusub [(FORWARD, (1 # 2)%Q)] linked_armed))
    = [Send (rc_channels_override_send rc)] /\
    rc !! 0%nat = Some 65535.
Proof.
  destruct (@set_rc_inputs_ignores_absent ardusub ardusub_supported
              ardusub_distinct [(FORWARD, (1 # 2)%Q)] linked_armed)
    as (rc & E & _ & Hout).
  - reflexivity.
  - reflexivity.
  - repeat constructor. intros [].
  - repeat constructor; simpl; discriminate.
  - exists rc. split; [exact E |]. apply Hout; [lia |].
    intros c v [[= <- <-] | []]. discriminate.
Defined.

Lemma stop_thrusters_neutral_witness :
  exists rc,
    issued linked_armed (snd (@stop_thrusters ardusub linked_armed))
    = [Send (rc_channels_override_send rc)] /\
    rc !! 4%nat = Some 1500 /\ rc !! 10%nat = Some 65535.
Proof.
  destruct (@stop_thrusters_neutral ardusub ardusub_supported
              ardusub_distinct linked_armed) as (_ & Hon & _).
  destruct Hon as (rc & E & _ & Hin & Hout); [reflexivity | reflexivity |].
  exists rc. split; [exact E |]. split.
  - apply (Hin FORWARD).
  - apply Hout; [lia |]. intros c. destruct c; discriminate.
Defined.

End CommandFacts.

(** ** The detector and what the task makes of it *)

Module PerceptionFacts.
Import Float FloatFacts FloatExact ButtonDocking DockingFacts Perception.
Local Open Scope Z_scope.

Section WithContours.
Context {contour : Type} (boundingRect : contour -> Z * Z * Z * Z).

Lemma best_of_spec width height contours : forall score best,
  0 <= score ->
  (best = None <-> score = 0) ->
  (forall c, best = Some c -> area boundingRect c = score) ->
  let '(best', score') := best_of boundingRect width height contours score best in
  score <= score' /\
  (best' = None <-> score' = 0) /\
  (forall c, best' = Some c ->
     area boundingRect c = score' /\
     (best = Some c \/ (In c contours /\ fits boundingRect width height c))) /\
  (forall c, In c contours -> fits boundingRect width height c ->
     area boundingRect c <= score').
Proof.
  induction contours as [| c0 contours IH]; intros score best Hs Hnone Harea.
  - simpl. repeat split; try apply Hnone; try lia; auto.
  - simpl. unfold fits, area in *.
    destruct (boundingRect c0) as [[[x y] w] h] eqn:Hrect.
    destruct ((w <? width) && (h <? height) && (w * h >? score)) eqn:Hcond.
    + assert (Hc : w < width /\ h < height /\ score < w * h) by lia.
      specialize (IH (w * h) (Some c0)).
      destruct (best_of boundingRect width height contours (w * h) (Some c0))
        as [best' score'].
      destruct IH as (Hle & Hn' & Ha' & Hmax'); [lia | | |].
      * split; [discriminate | lia].
      * intros c [= <-]. now rewrite Hrect.
      * split; [lia |]. split; [exact Hn' |]. split.
        -- intros c Hc'. destruct (Ha' c Hc') as [Hac [[= <-] | [Hin Hfit]]];
             (split; [exact Hac |]); right.
           ++ split; [now left |]. rewrite Hrect. tauto.
           ++ split; [now right | exact Hfit].
        -- intros c [<- | Hin] Hfit; [rewrite Hrect; lia | now apply Hmax'].
    + specialize (IH score best Hs Hnone Harea).
      destruct (best_of boundingRect width height contours score best)
        as [best' score'].
      destruct IH as (Hle & Hn' & Ha' & Hmax').
      split; [exact Hle |]. split; [exact Hn' |]. split.
      * intros c Hc'. destruct (Ha' c Hc') as [Hac [Hold | [Hin Hfit]]];
          (split; [exact Hac |]); [now left | right].
        split; [now right | exact Hfit].
      * intros c [<- | Hin] Hfit; [| now apply Hmax'].
        rewrite Hrect in *. lia.
Qed.

Lemma get_button_contour_spec h w contours :
  let '(best, score) := get_button_contour boundingRect (h, w) contours in
  0 <= score /\
  (best = None <-> score = 0) /\
  (forall c, best = Some c ->
     In c contours /\ fits boundingRect (w - half_of w) h c /\
     area boundingRect c = score).
Proof.
  unfold get_button_contour.
  pose proof (best_of_spec (w - half_of w) h contours 0 None) as Hspec.
  destruct (best_of boundingRect (w - half_of w) h contours 0 None)
    as [best score].
  destruct Hspec as (Hle & Hn & Ha & _); [lia | tauto | discriminate |].
  split; [exact Hle |]. split; [exact Hn |].
  intros c Hc. destruct (Ha c Hc) as [Hac [Hold | [Hin Hfit]]];
    [discriminate | auto].
Qed.

(** X9: what the detector returns.  The score is never negative, and it
    is positive exactly when a contour is returned; the contour returned
    is one of those found, its box is strictly smaller than the searched
    half frame in both directions and its area is the score; no contour
    that fits has a larger area. *)
Theorem get_button_contour_best (frame_shape : Z * Z) (contours : list contour) :
  let '(h, w) := frame_shape in
  let '(best, score) := get_button_contour boundingRect frame_shape contours in
  0 <= score /\
  (best = None <-> score = 0) /\
  (forall c, best = Some c ->
     In c contours /\ fits boundingRect (w - half_of w) h c /\
     area boundingRect c = score) /\
  (forall c, In c contours -> fits boundingRect (w - half_of w) h c ->
     area boundingRect c <= score).
Proof.
  destruct frame_shape as [h w]. unfold get_button_contour.
  pose proof (best_of_spec (w - half_of w) h contours 0 None) as Hspec.
  destruct (best_of boundingRect (w - half_of w) h contours 0 None)
    as [best score].
  destruct Hspec as (Hle & Hn & Ha & Hmax); [lia | tauto | discriminate |].
  split; [exact Hle |]. split; [exact Hn |]. split; [| exact Hmax].
  intros c Hc. destruct (Ha c Hc) as [Hac [Hold | [Hin Hfit]]];
    [discriminate | auto].
Qed.

Lemma fl64_nonneg x : (0 <= x)%Q -> (0 <= fl64 x)%Q.
Proof.
  intros Hx. apply fl64_mono in Hx.
  assert (E : (fl64 0 == 0)%Q) by (vm_compute; reflexivity). lra.
Qed.

Lemma fdiv_2 a : fdiv a 2 = Some (fl64 (a / 2)).
Proof. reflexivity. Qed.

Lemma half_of_eq w : half_of w = py_int (fl64 (inject_Z w / 2)).
Proof. unfold half_of. now rewrite fdiv_2. Qed.

Lemma half_of_nonneg w : 0 <= w -> 0 <= half_of w.
Proof.
  intros Hw. rewrite half_of_eq.
  apply py_int_lower; [lia |]. apply fl64_nonneg.
  assert (0 <= inject_Z w)%Q by (change 0%Q with (inject_Z 0); rewrite <- Zle_Qle; lia).
  apply Qle_shift_div_l; lra.
Qed.

Lemma half_of_positive w : 2 <= w -> 1 <= half_of w.
Proof.
  intros Hw. rewrite half_of_eq.
  apply py_int_lower; [lia |].
  assert (E : (fl64 1 == 1)%Q) by (vm_compute; reflexivity).
  change (inject_Z 1) with 1%Q. rewrite <- E. apply fl64_mono.
  assert (2 <= inject_Z w)%Q by (change 2%Q with (inject_Z 2); rewrite <- Zle_Qle; lia).
  apply Qle_shift_div_l; lra.
Qed.

(** X10: what [handle_frame] stores from the detector.  When no contour
    fits, the frame changes nothing.  Otherwise the stored box is at least
    1 pixel wide and high and strictly smaller than the searched half frame
    and the frame height, the stored frame size is [(int(w/2), h)] with
    both at least 1, and the stored position is no longer the "no target"
    sentinel, so that [periodic] acts on it. *)
Theorem handle_frame_stores_detection
    (h w : Z) (contours : list contour) (s : t) :
  0 <= w -> Forall (rect_nonneg boundingRect) contours ->
  let d := observe boundingRect (h, w) contours in
  let s' := snd (handle_frame d s) in
  fst (handle_frame d s) = Ok tt /\
  (high_score d <= 0 -> s' = s) /\
  (0 < high_score d ->
     1 <= fst (button_dims s') < w - half_of w /\
     1 <= snd (button_dims s') < h /\
     fst (button_dims s') * snd (button_dims s') = high_score d /\
     image_dims s' = (half_of w, h) /\
     1 <= half_of w /\ 2 <= h /\
     no_position s' = false /\
     state s' = state s /\ start_time s' = start_time s).
Proof.
  intros Hw Hrects d s'. subst d s'. unfold observe.
  pose proof (get_button_contour_spec h w contours) as Hspec.
  destruct (get_button_contour boundingRect (h, w) contours) as [best score].
  destruct Hspec as (Hs0 & Hnone & Hbest).
  unfold handle_frame. cbn [high_score bounding_rect shape].
  destruct (0 <? score) eqn:Hpos; simpl.
  - assert (Hscore : 0 < score) by lia.
    destruct best as [c |]; [| exfalso; assert (score = 0) by (now apply Hnone); lia].
    destruct (Hbest c eq_refl) as (Hin & Hfit & Harea).
    rewrite List.Forall_forall in Hrects. pose proof (Hrects c Hin) as Hnn.
    unfold fits, area, rect_nonneg in *.
    destruct (boundingRect c) as [[[x y] bw] bh].
    run_monad. simpl.
    split; [reflexivity |]. split; [lia |]. intros _.
    assert (Hbw : 1 <= bw) by nia. assert (Hbh : 1 <= bh) by nia.
    pose proof (half_of_nonneg w Hw) as Hh0.
    repeat split; try lia.
    + apply half_of_positive. lia.
    + unfold no_position. simpl.
      assert (Hx : (0 <= fadd (float_of_int x) (fl64 (inject_Z bw / 2)))%Q).
      { apply fl64_nonneg.
        assert (0 <= float_of_int x)%Q.
        { apply fl64_nonneg. change 0%Q with (inject_Z 0).
          rewrite <- Zle_Qle. lia. }
        assert (0 <= fl64 (inject_Z bw / 2))%Q.
        { apply fl64_nonneg.
          assert (0 <= inject_Z bw)%Q
            by (change 0%Q with (inject_Z 0); rewrite <- Zle_Qle; lia).
          apply Qle_shift_div_l; lra. }
        lra. }
      destruct (Qeq_bool (fadd (float_of_int x) (fl64 (inject_Z bw / 2))) (-1))
        eqn:E; [| reflexivity].
      apply Qeq_bool_iff in E. lra.
  - split; [reflexivity |]. split; [reflexivity | lia].
Qed.

End WithContours.

Lemma handle_frame_stores_detection_witness :
  let boxes := [(10, 20, 100, 50); (30, 40, 700, 10)] in
  let s' := snd (handle_frame
                   (observe (fun c : Z * Z * Z * Z => c) (480, 1280) boxes)
                   (init VehicleControl.init)) in
  0 <= 1280 /\ image_dims s' = (half_of 1280, 480) /\ no_position s' = false.
Proof.
  intros boxes s'. split; [lia |].
  assert (Hboxes : Forall (rect_nonneg (fun c : Z * Z * Z * Z => c)) boxes)
    by (repeat constructor; simpl; lia).
  destruct (handle_frame_stores_detection (fun c : Z * Z * Z * Z => c)
              480 1280 boxes (init VehicleControl.init)) as (_ & _ & Hseen);
    [lia | exact Hboxes |].
  destruct Hseen as (_ & _ & _ & Himg & _ & _ & Hpos & _);
    [vm_compute; reflexivity |].
  split; [exact Himg | exact Hpos].
Defined.

End PerceptionFacts.

(** ** ButtonDocking: the steering offsets *)

Module MoveFacts.
Import Float FloatFacts FloatExact ButtonDocking DockingFacts.
Local Open Scope Q_scope.

Lemma fdiv_two a : fdiv a 2 = Some (fl64 (a / 2)).
Proof. reflexivity. Qed.

Lemma fdiv_nonzero a b : ~ b == 0 -> fdiv a b = Some (fl64 (a / b)).
Proof.
  intros Hb. unfold fdiv. destruct (Qeq_bool b 0) eqn:E; [| reflexivity].
  apply Qeq_bool_iff in E. contradiction.
Qed.

Lemma Qdiv2 x : x / 2 == x * (1 # 2).
Proof. unfold Qdiv. change (/ 2) with (1 # 2). reflexivity. Qed.

(** Rounding keeps a number between two binary64 numbers. *)
Lemma fl64_between a b x :
  fl64 a == a -> fl64 b == b -> a <= x <= b -> a <= fl64 x <= b.
Proof.
  intros Ea Eb [Hlo Hhi].
  apply fl64_mono in Hlo. apply fl64_mono in Hhi. lra.
Qed.

(** [n * 2^-j] is a binary64 number for a small integer [n]. *)
Lemma fl64_scaled n j :
  (Z.abs n < 2 ^ 53)%Z -> (0 <= j <= 1074)%Z ->
  fl64 (inject_Z n * 2 ^ (- j)) == inject_Z n * 2 ^ (- j).
Proof.
  intros Hn Hj. apply (fl64_exact _ n (- j)); [reflexivity | exact Hn | lia].
Qed.

Lemma inject_Z_pos n : (1 <= n)%Z -> 1 <= inject_Z n.
Proof. intros Hn. change 1 with (inject_Z 1). now rewrite <- Zle_Qle. Qed.

Lemma horizontal_move_eq s :
  horizontal_move s =
  (match fdiv (fsub (fst (button_pos s))
                 (fl64 (inject_Z (fst (image_dims s)) / 2)))
           (fl64 (inject_Z (fst (image_dims s)) / 2)) with
   | Some v => Ok v
   | None => Raise ZeroDivisionError
   end, s).
Proof.
  unfold horizontal_move. run_monad. rewrite fdiv_two.
  destruct (fdiv _ _); reflexivity.
Qed.

Lemma vertical_move_eq s :
  vertical_move s =
  (match fdiv (fmul (-1) (fsub (snd (button_pos s))
                            (fmul (float_of_int (snd (image_dims s))) lit_0_4)))
           (fl64 (inject_Z (snd (image_dims s)) / 2)) with
   | Some v => Ok v
   | None => Raise ZeroDivisionError
   end, s).
Proof.
  unfold vertical_move. run_monad. rewrite fdiv_two.
  destruct (fdiv _ _); reflexivity.
Qed.

(** X11: the horizontal offset keeps the promise of its docstring.  For a
    stored frame width [W] of at least 1 (below [2^53]) and a target centre
    between 0 and [W], [horizontal_move] returns a value in [-1, 1] and
    changes nothing. *)
Theorem horizontal_move_in_range (s : t) :
  let W := fst (image_dims s) in
  (1 <= W < 2 ^ 53)%Z ->
  0 <= fst (button_pos s) <= inject_Z W ->
  exists v, horizontal_move s = (Ok v, s) /\ -1 <= v <= 1.
Proof.
  intros W HW Hpos. rewrite horizontal_move_eq. fold W.
  set (half := fl64 (inject_Z W / 2)).
  pose proof (inject_Z_pos W (proj1 HW)) as HW1.
  assert (Ehalf : half == inject_Z W * (1 # 2)).
  { subst half. rewrite (fl64_proper _ _ (Qdiv2 _)).
    apply (fl64_scaled W 1); lia. }
  assert (Hhalf : 0 < half) by lra.
  assert (Hnum : - half <= fsub (fst (button_pos s)) half <= half).
  { unfold fsub.
    assert (Ea : fl64 (- half) == - half).
    { assert (E : - half == inject_Z (- W) * (1 # 2))
        by (rewrite inject_Z_opp; lra).
      rewrite (fl64_proper _ _ E), E. apply (fl64_scaled (- W) 1); lia. }
    assert (Eb : fl64 half == half).
    { rewrite (fl64_proper _ _ Ehalf), Ehalf. apply (fl64_scaled W 1); lia. }
    apply fl64_between; [exact Ea | exact Eb | lra]. }
  rewrite fdiv_nonzero by lra.
  eexists. split; [reflexivity |].
  assert (E1 : fl64 1 == 1) by (vm_compute; reflexivity).
  assert (Em1 : fl64 (-1) == -1) by (vm_compute; reflexivity).
  apply fl64_between; [exact Em1 | exact E1 |]. split.
  - apply Qle_shift_div_l; lra.
  - apply Qle_shift_div_r; lra.
Qed.

Lemma horizontal_move_in_range_witness :
  let s := set_button_pos ((100 # 1), (50 # 1))
             (set_image_dims (640, 480)%Z (init VehicleControl.init)) in
  (1 <= 640 < 2 ^ 53)%Z /\
  exists v, horizontal_move s = (Ok v, s) /\ -1 <= v <= 1.
Proof.
  intros s. split; [lia |].
  apply (horizontal_move_in_range s); [simpl; lia |].
  split; discriminate.
Defined.

(** X12: the vertical offset does not stay in [-1, 1].  For a stored frame
    height [H] of at least 1 (below [2^48]) and a target centre between 0
    and [H], [vertical_move] returns a value between -5/4 and 13/16 and
    changes nothing; when the centre lies in the lowest 1/32 of the frame
    the value is at most -9/8, outside the [-1, 1] of the docstring. *)
Theorem vertical_move_range (s : t) :
  let H := snd (image_dims s) in
  (1 <= H < 2 ^ 48)%Z ->
  0 <= snd (button_pos s) <= inject_Z H ->
  exists v, vertical_move s = (Ok v, s) /\
    - (5 # 4) <= v <= 13 # 16 /\
    (inject_Z H * (31 # 32) <= snd (button_pos s) -> v <= - (9 # 8)).
Proof.
  intros H HH Hpos. rewrite vertical_move_eq. fold H.
  set (pos := snd (button_pos s)) in *.
  pose proof (inject_Z_pos H (proj1 HH)) as HH1.
  set (h := inject_Z H) in *.
  (* exact binary64 numbers used as brackets *)
  assert (X : forall n j, (Z.abs n < 2 ^ 5)%Z -> (0 <= j <= 5)%Z ->
            fl64 (inject_Z (n * H) * 2 ^ (- j)) == inject_Z (n * H) * 2 ^ (- j)).
  { intros n j Hn Hj. apply fl64_scaled; [nia | lia]. }
  assert (B : forall n p q x, (Z.abs n < 2 ^ 5)%Z ->
            In p [1; 3; 4; 5]%Z -> q = 2 ^ (- p) ->
            x == inject_Z n * h * q -> fl64 x == x).
  { intros n p q x Hn Hp -> Ex.
    assert (Ex' : x == inject_Z (n * H) * 2 ^ (- p))
      by (rewrite Ex, inject_Z_mult; reflexivity).
    rewrite (fl64_proper _ _ Ex'), Ex'.
    apply X; [exact Hn |]. simpl in Hp. lia. }
  assert (Ehalf : fl64 (h / 2) == h * (1 # 2)).
  { rewrite (fl64_proper _ _ (Qdiv2 _)).
    apply (fl64_scaled H 1); lia. }
  assert (Eh : float_of_int H == h) by (apply float_of_int_exact; lia).
  (* aim = H * 0.4 *)
  assert (Haim : h * (3 # 8) <= fmul (float_of_int H) lit_0_4 <= h * (13 # 32)).
  { unfold fmul. apply fl64_between.
    - apply (B 3%Z 3%Z (1 # 8)); [lia | simpl; auto | reflexivity |].
      change (inject_Z 3) with 3. ring.
    - apply (B 13%Z 5%Z (1 # 32)); [lia | simpl; auto | reflexivity |].
      change (inject_Z 13) with 13. ring.
    - rewrite Eh. unfold lit_0_4. lra. }
  set (aim := fmul (float_of_int H) lit_0_4) in *.
  assert (Hsub : - (h * (13 # 32)) <= fsub pos aim <= h * (5 # 8)).
  { unfold fsub. apply fl64_between; [| | lra].
    - apply (B (-13)%Z 5%Z (1 # 32)); [lia | simpl; auto | reflexivity |].
      change (inject_Z (-13)) with (-13). ring.
    - apply (B 5%Z 3%Z (1 # 8)); [lia | simpl; auto | reflexivity |].
      change (inject_Z 5) with 5. ring. }
  assert (Hlow : h * (31 # 32) <= pos -> h * (9 # 16) <= fsub pos aim).
  { intros Hp. unfold fsub.
    assert (E : fl64 (h * (9 # 16)) == h * (9 # 16)).
    { apply (B 9%Z 4%Z (1 # 16)); [lia | simpl; auto | reflexivity |].
      change (inject_Z 9) with 9. ring. }
    rewrite <- E. apply fl64_mono. lra. }
  set (d := fsub pos aim) in *.
  assert (Hnum : - (h * (5 # 8)) <= fmul (-1) d <= h * (13 # 32)).
  { unfold fmul. apply fl64_between; [| | lra].
    - apply (B (-5)%Z 3%Z (1 # 8)); [lia | simpl; auto | reflexivity |].
      change (inject_Z (-5)) with (-5). ring.
    - apply (B 13%Z 5%Z (1 # 32)); [lia | simpl; auto | reflexivity |].
      change (inject_Z 13) with 13. ring. }
  assert (Hnumlow : h * (31 # 32) <= pos -> fmul (-1) d <= - (h * (9 # 16))).
  { intros Hp. specialize (Hlow Hp). unfold fmul.
    assert (E : fl64 (- (h * (9 # 16))) == - (h * (9 # 16))).
    { apply (B (-9)%Z 4%Z (1 # 16)); [lia | simpl; auto | reflexivity |].
      change (inject_Z (-9)) with (-9). ring. }
    rewrite <- E. apply fl64_mono. lra. }
  set (num := fmul (-1) d) in *.
  set (half := fl64 (h / 2)) in *.
  assert (Hhalf : 0 < half) by lra.
  rewrite fdiv_nonzero by lra.
  eexists. split; [reflexivity |]. split.
  - apply fl64_between.
    + vm_compute. reflexivity.
    + vm_compute. reflexivity.
    + split; [apply Qle_shift_div_l | apply Qle_shift_div_r]; lra.
  - intros Hp. specialize (Hnumlow Hp).
    assert (E : fl64 (- (9 # 8)) == - (9 # 8)) by (vm_compute; reflexivity).
    rewrite <- E. apply fl64_mono. apply Qle_shift_div_r; lra.
Qed.

Lemma vertical_move_range_witness :
  let s := set_button_pos ((100 # 1), (479 # 1))
             (set_image_dims (640, 480)%Z (init VehicleControl.init)) in
  (1 <= 480 < 2 ^ 48)%Z /\
  exists v, vertical_move s = (Ok v, s) /\ v <= - (9 # 8).
Proof.
  intros s. split; [lia |].
  destruct (vertical_move_range s) as (v & E & _ & Hlow).
  - simpl. lia.
  - split; discriminate.
  - exists v. split; [exact E |]. apply Hlow. discriminate.
Defined.

End MoveFacts.

(** ** ButtonDocking: what a tick can do *)

Module TaskFacts.
Import Float FloatFacts FloatExact VehicleControl ButtonDocking DockingFacts
  MoveFacts.
Local Open Scope Z_scope.

Section WithConstants.
Context `{Constants} `{Libm}.
Hypothesis channel_supported : forall c, 1 <= channel_value c <= 18.

Lemma scale_of_ok bdims idims s :
  1 <= fst bdims -> 1 <= fst idims <= 2 ^ 53 ->
  exists scale, scale_of bdims idims s = (Ok scale, s).
Proof.
  intros Hb Hi. unfold scale_of. run_monad.
  pose proof (inject_Z_pos _ Hb) as Hb1.
  pose proof (inject_Z_pos _ (proj1 Hi)) as Hi1.
  assert (Hi2 : (inject_Z (fst idims) <= 9007199254740992)%Q).
  { change 9007199254740992%Q with (inject_Z (2 ^ 53)).
    rewrite <- Zle_Qle. lia. }
  rewrite fdiv_nonzero by lra.
  assert (Hratio : (1 # 9007199254740992
                    <= fl64 (inject_Z (fst bdims) / inject_Z (fst idims)))%Q).
  { assert (E : (fl64 (1 # 9007199254740992) == 1 # 9007199254740992)%Q)
      by (vm_compute; reflexivity).
    rewrite <- E. apply fl64_mono. apply Qle_shift_div_l; lra. }
  destruct (Qle_bool _ 0) eqn:E.
  - apply Qle_bool_iff in E. lra.
  - rewrite fdiv_nonzero by discriminate. eauto.
Qed.

Lemma half_positive n : 1 <= n -> (0 < fl64 (inject_Z n / 2))%Q.
Proof.
  intros Hn. pose proof (inject_Z_pos _ Hn) as Hn1.
  assert (E : (fl64 (1 # 2) == 1 # 2)%Q) by (vm_compute; reflexivity).
  assert ((1 # 2) <= inject_Z n / 2)%Q by (apply Qle_shift_div_l; lra).
  apply fl64_mono in H1. lra.
Qed.

Lemma vertical_move_ok s :
  1 <= snd (image_dims s) -> exists v, vertical_move s = (Ok v, s).
Proof.
  intros Hh. rewrite vertical_move_eq.
  pose proof (half_positive _ Hh). rewrite fdiv_nonzero by lra. eauto.
Qed.

Lemma horizontal_move_ok s :
  1 <= fst (image_dims s) -> exists v, horizontal_move s = (Ok v, s).
Proof.
  intros Hw. rewrite horizontal_move_eq.
  pose proof (half_positive _ Hw). rewrite fdiv_nonzero by lra. eauto.
Qed.

Lemma build_pwms_raises values : forall acc e,
  build_pwms values acc = Raise e -> exists v, e = ValueError_input v.
Proof.
  induction values as [| [c v] values IH]; intros acc e E; simpl in E;
    [discriminate |].
  destruct (in_range v); simpl in E; [now apply IH in E |].
  injection E as <-. eauto.
Qed.

(** The only exception [set_rc_inputs] raises is the range error of an
    input. *)
Lemma set_rc_inputs_raises values v e :
  fst (set_rc_inputs values v) = Raise e -> exists x, e = ValueError_input x.
Proof.
  unfold set_rc_inputs. destruct (build_pwms values []) as [pwms | e0] eqn:E.
  - destruct (NormalizedInputs.built_pwms_valid channel_supported _ _ E)
      as [Hvalid _].
    destruct (RcFacts.fill_channels_valid pwms (replicate 18 65535) Hvalid)
      as (rc & Efill & _).
    rewrite Actuator.set_rc_input_pwms_eq, Efill.
    destruct (negb (connected v) || negb (armed v)); discriminate.
  - simpl. intros [= <-]. now apply build_pwms_raises in E.
Qed.

Lemma periodic_raise_cases (s : t) (e : exn) :
  1 <= fst (button_dims s) ->
  1 <= fst (image_dims s) <= 2 ^ 53 ->
  1 <= snd (image_dims s) ->
  fst (periodic s) = Raise e ->
  state s = 1 /\ exists v, e = ValueError_input v.
Proof.
  intros Hb Hw Hh. unfold periodic. run_monad.
  destruct (Qeq_bool _ _ && Qeq_bool _ _); [discriminate |].
  destruct (scale_of_ok (button_dims s) (image_dims s) s Hb Hw) as [scale ->].
  cbv beta iota.
  assert (Hin : forall values v,
            Forall (fun cv => (-1 <= snd cv <= 1)%Q) values ->
            fst (VehicleControl.set_rc_inputs values v) = Ok tt)
    by (intros; now apply NormalizedInputs.set_rc_inputs_returns).
  destruct (state s =? 0) eqn:E0; [| destruct (state s =? 1) eqn:E1;
    [| destruct (state s =? 2) eqn:E2; [| discriminate]]].
  - destruct (reaches _ _ _ || reaches _ _ _); cbv beta iota.
    + match goal with
      | |- context [VehicleControl.set_mode ?m ?v] =>
          pose proof (set_mode_returns m v) as Hm;
          destruct (VehicleControl.set_mode m v) as [r v']
      end.
      simpl in Hm. subst r. cbv beta iota.
      match goal with
      | |- context [VehicleControl.set_rc_inputs ?values ?v] =>
          pose proof (Hin values v) as Hr;
          destruct (VehicleControl.set_rc_inputs values v) as [r v'']
      end.
      simpl in *. rewrite Hr; [discriminate |].
      repeat constructor; simpl; discriminate.
    + match goal with
      | |- context [VehicleControl.set_rc_inputs ?values ?v] =>
          pose proof (Hin values v) as Hr;
          destruct (VehicleControl.set_rc_inputs values v) as [r v'']
      end.
      simpl in *. rewrite Hr; [discriminate |].
      repeat constructor; simpl; discriminate.
  - apply Z.eqb_eq in E1. intros Hraise. split; [exact E1 |].
    revert Hraise.
    destruct (reaches _ _ _ || reaches _ _ _); cbv beta iota;
      match goal with
      | |- context [vertical_move ?s1] =>
          destruct (vertical_move_ok s1 Hh) as [v1 Ev];
          destruct (horizontal_move_ok s1 (proj1 Hw)) as [h1 Eh];
          rewrite Ev; cbv beta iota; rewrite Ev; cbv beta iota;
          rewrite Eh
      end; cbv beta iota;
      match goal with
      | |- context [VehicleControl.set_rc_inputs ?values ?v] =>
          pose proof (set_rc_inputs_raises values v) as Hr;
          destruct (VehicleControl.set_rc_inputs values v) as [[[] | e'] v'']
      end; simpl; try discriminate; intros [= <-]; now apply Hr.
  - match goal with
    | |- context [VehicleControl.set_rc_inputs ?values ?v] =>
        pose proof (Hin values v) as Hr;
        destruct (VehicleControl.set_rc_inputs values v) as [r v'']
    end.
    simpl in *. rewrite Hr; [discriminate |].
    repeat constructor; simpl; discriminate.
Qed.

(** X13: what can go wrong in a tick.  With a stored box at least 1 pixel
    wide and a stored frame at least 1 pixel wide (at most [2^53]) and
    high, [periodic] never divides by zero and never takes the logarithm of
    a non-positive number: the only exception it can raise is the range
    error of a steering input, and only when the tick starts in the steer
    phase; in the crawl and ram phases it returns normally. *)
Theorem periodic_raises_only_in_steer (s : t) :
  1 <= fst (button_dims s) ->
  1 <= fst (image_dims s) <= 2 ^ 53 ->
  1 <= snd (image_dims s) ->
  (state s <> 1 -> fst (periodic s) = Ok tt) /\
  (forall e, fst (periodic s) = Raise e -> exists v, e = ValueError_input v).
Proof.
  intros Hb Hw Hh. split.
  - intros Hs. destruct (fst (periodic s)) as [[] | e] eqn:E; [reflexivity |].
    destruct (periodic_raise_cases s e Hb Hw Hh E) as [Hs1 _]. contradiction.
  - intros e E. now destruct (periodic_raise_cases s e Hb Hw Hh E).
Qed.

End WithConstants.

Lemma periodic_raises_only_in_steer_witness :
  let s := set_button_dims (100, 50)
             (set_button_pos ((350 # 1), (225 # 1))
                (set_image_dims (640, 480) (init VehicleControl.init))) in
  1 <= 100 /\ fst (@periodic ardusub binade_log s) = Ok tt.
Proof.
  intros s. split; [lia |].
  apply (@periodic_raises_only_in_steer ardusub binade_log
           NormalizedInputs.ardusub_supported s); simpl; try lia;
    discriminate.
Defined.

Section Retirement.
Context `{Constants} `{Libm}.
Hypothesis channel_supported : forall c, 1 <= channel_value c <= 18.
Hypothesis channel_distinct :
  forall c c', channel_value c = channel_value c' -> c = c'.

Lemma set_mode_eq m v :
  VehicleControl.set_mode m v =
  (Ok tt, add_effects match dict_get String.eqb m mode_mapping with
                      | Some id => [Send (link_set_mode id)]
                      | None => []
                      end v).
Proof.
  unfold VehicleControl.set_mode.
  destruct (dict_get String.eqb m mode_mapping); [reflexivity |].
  unfold ret. now rewrite LinkFacts.add_effects_nil.
Qed.

Lemma stop_thrusters_off v :
  connected v = false \/ armed v = false -> stop_thrusters v = (Ok tt, v).
Proof.
  intros Hoff.
  pose proof (NormalizedInputs.stop_thrusters_returns channel_supported v) as Hr.
  assert (Hs : snd (stop_thrusters v) = v).
  { unfold stop_thrusters, set_rc_inputs.
    destruct (build_pwms _ []) as [pwms | e]; [| reflexivity].
    now apply CommandFacts.set_rc_input_pwms_dropped_eq. }
  destruct (stop_thrusters v) as [r v']. simpl in *. now subst.
Qed.

Lemma stop_thrusters_on v :
  connected v = true -> armed v = true ->
  exists rc,
    stop_thrusters v
    = (Ok tt, add_effects [Send (rc_channels_override_send rc)] v) /\
    forall c, rc !! Z.to_nat (channel_value c - 1) = Some 1500.
Proof.
  intros Hc Ha. unfold stop_thrusters.
  match goal with
  | |- context [set_rc_inputs ?values v] =>
      destruct (CommandFacts.set_rc_inputs_sent channel_supported
                  channel_distinct values v Hc Ha)
        as (rc & E & _ & Hin & _)
  end.
  - repeat constructor; simpl; intuition discriminate.
  - repeat constructor; discriminate.
  - exists rc. split; [exact E |].
    intros c. change 1500 with (pwm_of 0).
    apply (Hin c 0%Q). destruct c; simpl; auto 10.
Qed.

(** X14: [end] leaves the thrusters stopped.  Whatever the phase, [end]
    returns normally and leaves the task's own fields alone.  It sends the
    mode command for "MANUAL" when the link knows that mode, and on a
    connected and armed vehicle the last thing it sends is an RC override
    with the neutral PWM 1500 on all six axes; on a vehicle that is not
    both connected and armed it sends no override. *)
Theorem end_stops_thrusters (s : t) :
  let s' := snd (end_ s) in
  let v := vehicle s in
  let mode_cmd := match dict_get String.eqb "MANUAL"%string mode_mapping with
                  | Some id => [Send (link_set_mode id)]
                  | None => []
                  end in
  fst (end_ s) = Ok tt /\
  set_vehicle v s' = s /\
  (connected v = true -> armed v = true ->
   exists rc,
     issued v (vehicle s')
     = mode_cmd ++ [Send (rc_channels_override_send rc)] /\
     forall c, rc !! Z.to_nat (channel_value c - 1) = Some 1500) /\
  (connected v = false \/ armed v = false -> issued v (vehicle s') = mode_cmd).
Proof.
  intros s' v mode_cmd. subst s'. unfold end_. run_monad.
  rewrite set_mode_eq. fold v mode_cmd. cbv beta iota. simpl vehicle.
  destruct (connected v) eqn:Hc, (armed v) eqn:Ha.
  1: { destruct (stop_thrusters_on (add_effects mode_cmd v)) as (rc & -> & Hrc);
         [exact Hc | exact Ha |].
       simpl. split; [reflexivity |].
       split; [destruct s; reflexivity |].
       split; [| intros [? | ?]; discriminate].
       intros _ _. exists rc. split; [apply LinkEvents.issued_trans | exact Hrc]. }
  all: rewrite (stop_thrusters_off (add_effects mode_cmd v))
         by (simpl; rewrite ?Hc, ?Ha; auto);
       simpl; split; [reflexivity |];
       split; [destruct s; reflexivity |];
       split; [intros; discriminate |];
       intros _; apply LinkFacts.issued_add_effects.
Qed.

(** X15: the task waits for a target.  While the fields hold the
    sentinels of [__init__], [periodic] returns at once: it sends nothing
    and changes nothing.  So along any calls other than [initialize], in
    which no frame shows a target, the phase and the start time stay as
    they were and the sentinels stay in place. *)
Theorem waits_for_target (s : t) :
  unobserved s ->
  periodic s = (Ok tt, s) /\
  forall es, Forall no_target es -> Forall after_initialize es ->
    state (run es s) = state s /\
    start_time (run es s) = start_time s /\
    unobserved (run es s).
Proof.
  assert (Hper : forall s0, unobserved s0 -> periodic s0 = (Ok tt, s0)).
  { intros s0 (Hp & _). unfold periodic. run_monad. now rewrite Hp. }
  intros Hs. split; [now apply Hper |].
  intros es. revert s Hs.
  induction es as [| e es IH]; intros s Hs Hnt Hai; [auto |].
  inversion Hnt as [| ? ? He1 Hnt']; subst.
  inversion Hai as [| ? ? He2 Hai']; subst.
  assert (Hstep : state (snd (step e s)) = state s /\
                  start_time (snd (step e s)) = start_time s).
  { destruct e; simpl in *; try contradiction.
    - now rewrite (Hper s Hs).
    - destruct (handle_frame_fields d s) as (-> & -> & _). auto.
    - destruct (end_fields s) as (_ & _ & _ & -> & ->). auto.
    - destruct (on_vehicle_fields (VehicleControl.perform c) s)
        as (_ & _ & _ & -> & ->). auto. }
  destruct Hstep as [E1 E2].
  change (run (e :: es) s) with (run es (snd (step e s))).
  destruct (IH (snd (step e s))) as (-> & -> & Hu);
    [now apply step_unobserved | assumption | assumption |].
  auto.
Qed.

End Retirement.

Lemma end_stops_thrusters_witness :
  (forall c, 1 <= @channel_value ardusub c <= 18) /\
  fst (@end_ ardusub (init VehicleControl.linked_armed)) = Ok tt.
Proof.
  split; [exact NormalizedInputs.ardusub_supported |].
  apply (@end_stops_thrusters ardusub NormalizedInputs.ardusub_supported
           NormalizedInputs.ardusub_distinct
           (init VehicleControl.linked_armed)).
Defined.

Lemma waits_for_target_witness :
  unobserved (init VehicleControl.init) /\
  state (@run ardusub binade_log [e_periodic; e_periodic]
           (init VehicleControl.init)) = 0.
Proof.
  assert (Hu : unobserved (init VehicleControl.init)) by (repeat split).
  split; [exact Hu |].
  destruct (@waits_for_target ardusub binade_log _ Hu) as [_ Hrun].
  apply Hrun; repeat constructor.
Defined.

End TaskFacts.

(** ** PixelSelector: the view stays inside the image *)

Module PixelFacts.
Import Float FloatFacts FloatExact PixelSelector.
Local Open Scope Z_scope.

Ltac split_tests :=
  repeat (cbn [view_size view_xl view_xr view_y img_width img_height
               set_view_xl set_view_xr set_view_y set_view_size] in *;
          match goal with
          | |- context [if ?b then _ else _] =>
              lazymatch b with
              | context [if _ then _ else _] => fail
              | _ => destruct b eqn:?
              end
          end);
  cbn [view_size view_xl view_xr view_y img_width img_height
       set_view_xl set_view_xr set_view_y set_view_size] in *.

Lemma clamp_keeps s :
  view_size (_clamp_view s) = view_size s /\
  img_width (_clamp_view s) = img_width s /\
  img_height (_clamp_view s) = img_height s.
Proof. unfold _clamp_view. split_tests; auto. Qed.

Lemma clamp_inside s :
  view_size s <= img_width s -> view_size s <= img_height s ->
  view_inside (_clamp_view s).
Proof.
  intros Hw Hh. unfold view_inside, _clamp_view. split_tests; lia.
Qed.

Lemma clamp_fixed s : view_inside s -> _clamp_view s = s.
Proof.
  unfold view_inside, _clamp_view. intros Hin. split_tests; try lia.
  reflexivity.
Qed.

(** X16: [_clamp_view] does its job when the view fits.  If the view is
    no larger than the image in either direction, then after [_clamp_view]
    the three view origins are non-negative and the view square ends
    inside the image; the view size is untouched, a view that was inside
    already is not moved, and clamping twice is clamping once. *)
Theorem clamp_view_inside (s : t) :
  view_size s <= img_width s -> view_size s <= img_height s ->
  view_inside (_clamp_view s) /\
  view_size (_clamp_view s) = view_size s /\
  (view_inside s -> _clamp_view s = s) /\
  _clamp_view (_clamp_view s) = _clamp_view s.
Proof.
  intros Hw Hh. pose proof (clamp_inside s Hw Hh) as Hin.
  split; [exact Hin |]. split; [apply clamp_keeps |].
  split; [apply clamp_fixed | now apply clamp_fixed].
Qed.

Lemma clamp_view_inside_witness :
  let s := set_view_xl (-20) (set_view_y 500 (init 640 480)) in
  view_size s <= img_width s /\ view_inside (_clamp_view s).
Proof.
  intros s. split; [simpl; lia |].
  apply (clamp_view_inside s); simpl; lia.
Defined.

(** X17: [_clamp_view] on an image narrower than the view.  When the view
    is wider than the image, [_clamp_view] puts both horizontal origins at
    [img_width - view_size], a negative column, wherever they were; so
    does any mouse move made while dragging. *)
Theorem clamp_view_narrow_image (s : t) :
  img_width s < view_size s ->
  (view_xl (_clamp_view s) = img_width s - view_size s /\
   view_xr (_clamp_view s) = img_width s - view_size s /\
   view_xl (_clamp_view s) < 0) /\
  (dragging s = true -> forall x y,
     view_xl (mouse_move x y s) = img_width s - view_size s /\
     view_xr (mouse_move x y s) = img_width s - view_size s).
Proof.
  intros Hn.
  assert (Hclamp : forall s0, img_width s0 < view_size s0 ->
            view_xl (_clamp_view s0) = img_width s0 - view_size s0 /\
            view_xr (_clamp_view s0) = img_width s0 - view_size s0).
  { intros s0 H0. unfold _clamp_view. split_tests; lia. }
  split.
  - destruct (Hclamp s Hn) as [E1 E2]. rewrite E1, E2. lia.
  - intros Hd x y. unfold mouse_move. rewrite Hd.
    match goal with
    | |- context [_clamp_view ?s0] =>
        assert (E : img_width s0 = img_width s /\ view_size s0 = view_size s)
          by (destruct (is_left (drag_side s)); split; reflexivity);
        destruct E as [Ew Ev]; rewrite <- Ew, <- Ev; apply Hclamp; lia
    end.
Qed.

Lemma clamp_view_narrow_image_witness :
  img_width (init 200 480) < view_size (init 200 480) /\
  view_xl (_clamp_view (init 200 480)) = -100.
Proof.
  split; [simpl; lia |].
  apply (clamp_view_narrow_image (init 200 480)). simpl. lia.
Defined.

Local Open Scope Q_scope.

Lemma fl64_Z n : (Z.abs n < 2 ^ 53)%Z -> fl64 (inject_Z n) == inject_Z n.
Proof. exact (float_of_int_exact n). Qed.

(** Truncating a rounded value that lies between two small integers. *)
Lemma int_fl_between a b x :
  (0 <= a)%Z -> (a < 2 ^ 53)%Z -> (Z.abs b < 2 ^ 53)%Z ->
  inject_Z a <= x -> x <= inject_Z b ->
  (a <= py_int (fl64 x) <= b)%Z.
Proof.
  intros Ha Ha' Hb Hax Hxb.
  pose proof (fl64_mono _ _ Hax) as L. pose proof (fl64_mono _ _ Hxb) as U.
  rewrite fl64_Z in L by lia. rewrite fl64_Z in U by exact Hb.
  assert (H0 : 0 <= inject_Z a)
    by (change 0 with (inject_Z 0); rewrite <- Zle_Qle; exact Ha).
  split.
  - apply py_int_lower; [exact Ha | exact L].
  - apply py_int_upper; [lra | exact U].
Qed.

Lemma py_int_floor x : 0 <= x -> py_int x = Qfloor x.
Proof.
  intros H0. unfold py_int. destruct x as [n d]. simpl.
  unfold Qle in H0. simpl in H0.
  apply Z.quot_div_nonneg; lia.
Qed.

Lemma py_int_proper x y : 0 <= x -> x == y -> py_int x = py_int y.
Proof.
  intros H0 E. rewrite !py_int_floor by lra. now apply Qfloor_comp.
Qed.

Lemma inject_Z_le a b : (a <= b)%Z -> inject_Z a <= inject_Z b.
Proof. intros H. now rewrite <- Zle_Qle. Qed.

Lemma halve_bounds v :
  (100 < v < 2 ^ 53)%Z -> (50 <= int_div (inject_Z v) 2 <= v)%Z.
Proof.
  intros Hv. unfold int_div, fdiv. cbn [Qeq_bool Qnum Qden Z.eqb Z.mul Pos.mul].
  change (Qeq_bool 2 0) with false. cbv iota.
  pose proof (inject_Z_le 101 v ltac:(lia)) as L.
  change (inject_Z 101) with 101 in L.
  apply int_fl_between; try lia.
  - change (inject_Z 50) with 50.
    apply Qle_shift_div_l; [reflexivity | lra].
  - apply Qle_shift_div_r; [reflexivity | lra].
Qed.

Lemma halve_exact v :
  (0 <= v < 2 ^ 53)%Z -> int_div (inject_Z v) 2 = (v / 2)%Z.
Proof.
  intros Hv. unfold int_div, fdiv. change (Qeq_bool 2 0) with false. cbv iota.
  pose proof (fl64_dyadic v 1 ltac:(lia) ltac:(lia)) as E.
  change (inject_Z (2 ^ 1)) with 2 in E.
  pose proof (inject_Z_le 0 v ltac:(lia)) as L. change (inject_Z 0) with 0 in L.
  assert (P : 0 <= inject_Z v / 2) by (apply Qle_shift_div_l; [reflexivity | lra]).
  rewrite (py_int_proper _ (inject_Z v / 2)); [| lra | exact E].
  rewrite py_int_floor by exact P.
  unfold Qfloor, Qdiv, Qmult, Qinv, inject_Z. simpl.
  f_equal. lia.
Qed.

Lemma shrink_bounds v :
  (100 < v < 2 ^ 53)%Z -> (80 <= int_div (float_of_int v) lit_1_25 <= v)%Z.
Proof.
  intros Hv. unfold int_div, fdiv, lit_1_25.
  change (Qeq_bool (5 # 4) 0) with false. cbv iota.
  pose proof (float_of_int_exact v ltac:(lia)) as E.
  pose proof (inject_Z_le 101 v ltac:(lia)) as L.
  change (inject_Z 101) with 101 in L.
  apply int_fl_between; try lia.
  - change (inject_Z 80) with 80.
    apply Qle_shift_div_l; [reflexivity | lra].
  - apply Qle_shift_div_r; [reflexivity | lra].
Qed.

Lemma grow_bounds v :
  (0 <= v < 2 ^ 53)%Z -> (v <= py_int (fmul lit_1_25 (float_of_int v)))%Z.
Proof.
  intros Hv. unfold fmul, lit_1_25.
  pose proof (float_of_int_exact v ltac:(lia)) as E.
  pose proof (inject_Z_le 0 v ltac:(lia)) as L. change (inject_Z 0) with 0 in L.
  apply py_int_lower; [lia |].
  rewrite <- (fl64_Z v) by lia. apply fl64_mono. lra.
Qed.

Local Close Scope Q_scope.

Lemma framed_resize w h s v :
  framed w h s -> 50 <= v <= Z.min w h ->
  framed w h (_clamp_view (set_view_size v s)).
Proof.
  intros (Ew & Eh & Hv & Hin) Hn.
  destruct (clamp_keeps (set_view_size v s)) as (Kv & Kw & Kh).
  unfold framed. rewrite Kv, Kw, Kh. cbn [set_view_size view_size img_width img_height].
  repeat split; try lia.
  all: apply clamp_inside; cbn [set_view_size view_size img_width img_height]; lia.
Qed.

Lemma framed_shrink w h s v :
  framed w h s -> 50 <= v <= view_size s -> framed w h (set_view_size v s).
Proof.
  intros (Ew & Eh & Hv & Hin) Hn. unfold framed, view_inside in *.
  cbn [set_view_size view_size view_xl view_xr view_y img_width img_height].
  lia.
Qed.

Lemma framed_handle w h e s :
  w < 2 ^ 53 -> h < 2 ^ 53 -> framed w h s -> framed w h (handle e s).
Proof.
  intros Hw Hh F. pose proof F as (Ew & Eh & Hv & Hin).
  destruct e; cbn [handle].
  - unfold key_x. destruct (view_size s >? 100) eqn:G; [| exact F].
    apply framed_shrink; [exact F |]. apply halve_bounds. lia.
  - unfold key_z. rewrite Ew, Eh.
    destruct (2 * view_size s <=? Z.min w h) eqn:G; [| exact F].
    apply framed_resize; [exact F | lia].
  - exact F.
  - exact F.
  - exact F.
  - unfold mouse_move. destruct (dragging s); [| exact F].
    match goal with
    | |- framed w h (_clamp_view ?s0) =>
        assert (K : img_width s0 = w /\ img_height s0 = h /\ view_size s0 = view_size s)
          by (destruct (is_left (drag_side s)); repeat split; assumption);
        destruct K as (Kw & Kh & Kv);
        destruct (clamp_keeps s0) as (Cv & Cw & Ch);
        unfold framed; rewrite Cv, Cw, Ch, Kw, Kh, Kv;
        repeat split; try lia; apply clamp_inside; lia
    end.
  - unfold right_down. destruct (side_of x); exact F.
  - unfold wheelEvent. destruct (dy >? 0).
    + destruct (view_size s >? 100) eqn:G; [| exact F].
      apply framed_shrink; [exact F |]. pose proof (shrink_bounds (view_size s)). lia.
    + rewrite Ew, Eh.
      destruct (_ <=? Z.min w h) eqn:G; [| exact F].
      apply framed_resize; [exact F |].
      pose proof (grow_bounds (view_size s)). lia.
Qed.

Lemma framed_run w h es s :
  w < 2 ^ 53 -> h < 2 ^ 53 -> framed w h s -> framed w h (run es s).
Proof.
  intros Hw Hh. revert s. unfold run.
  induction es as [| e es IH]; intros s F; [exact F |].
  cbn [fold_left]. apply IH. now apply framed_handle.
Qed.

Lemma framed_init w h : 300 <= w -> 300 <= h -> framed w h (init w h).
Proof. intros Hw Hh. unfold framed, view_inside. simpl. lia. Qed.

(** X18: the crop never leaves the image.  For an image of at least
    300 x 300 pixels, after any sequence of key, mouse and wheel events
    the view square lies inside the image, and the view size stays
    between 50 and the shorter side of the image; so the index ranges of
    the two crops taken by [run] and [update_image] lie within the
    image. *)
Theorem view_stays_inside (w h : Z) (es : list event) :
  300 <= w < 2 ^ 53 -> 300 <= h < 2 ^ 53 ->
  view_inside (run es (init w h)) /\
  50 <= view_size (run es (init w h)) <= Z.min w h /\
  img_width (run es (init w h)) = w /\ img_height (run es (init w h)) = h.
Proof.
  intros Hw Hh.
  destruct (framed_run w h es (init w h)) as (Ew & Eh & Hv & Hin);
    [lia | lia | apply framed_init; lia |].
  auto.
Qed.

Lemma view_stays_inside_witness :
  view_inside
    (run [LButtonDown 10 10; MouseMove 900 700; KeyZ; Wheel 1; KeyX]
       (init 640 480)).
Proof.
  apply (view_stays_inside 640 480
           [LButtonDown 10 10; MouseMove 900 700; KeyZ; Wheel 1; KeyX]); lia.
Defined.

Local Open Scope Q_scope.

Lemma multiplier_bounds s :
  (0 <= view_size s < 2 ^ 44)%Z ->
  0 <= multiplier s /\ multiplier s * 599 <= inject_Z (view_size s).
Proof.
  intros Hv. unfold multiplier, fdiv, WIN_SIZE.
  change (Qeq_bool (inject_Z 600) 0) with false. cbv iota.
  change (inject_Z 600) with 600.
  pose proof (inject_Z_le 0 (view_size s) ltac:(lia)) as L.
  change (inject_Z 0) with 0 in L.
  split.
  - rewrite <- (fl64_Z 0) by reflexivity. apply fl64_mono.
    change (inject_Z 0) with 0. apply Qle_shift_div_l; [reflexivity | lra].
  - pose proof (fl64_dyadic (437 * view_size s) 18 ltac:(lia) ltac:(lia)) as E.
    rewrite inject_Z_mult in E.
    change (inject_Z 437) with 437 in E.
    change (inject_Z (2 ^ 18)) with 262144 in E.
    assert (M : fl64 (inject_Z (view_size s) / 600)
                <= fl64 (437 * inject_Z (view_size s) / 262144)).
    { apply fl64_mono. apply Qle_shift_div_l; [reflexivity |].
      assert (D : inject_Z (view_size s) / 600 * 262144
                  == inject_Z (view_size s) * (262144 # 600)) by field.
      rewrite D. lra. }
    assert (D : 437 * inject_Z (view_size s) / 262144
                == inject_Z (view_size s) * (437 # 262144)) by field.
    rewrite E, D in M. lra.
Qed.

(** [int(origin + multiplier * p)] for a window coordinate [p] of the
    clicked pane. *)
Lemma click_bounds s o p :
  (0 <= view_size s < 2 ^ 44)%Z -> (0 <= o)%Z -> (o + view_size s < 2 ^ 53)%Z ->
  (0 <= p < WIN_SIZE)%Z ->
  (o <= py_int (fadd (float_of_int o) (fmul (multiplier s) (float_of_int p)))
     <= o + view_size s)%Z.
Proof.
  intros Hv Ho Hs Hp. unfold WIN_SIZE in Hp.
  destruct (multiplier_bounds s Hv) as [M0 M1].
  pose proof (float_of_int_exact p ltac:(lia)) as Ep.
  pose proof (float_of_int_exact o ltac:(lia)) as Eo.
  pose proof (inject_Z_le 0 p ltac:(lia)) as P0. change (inject_Z 0) with 0 in P0.
  pose proof (inject_Z_le p 599 ltac:(lia)) as P1. change (inject_Z 599) with 599 in P1.
  pose proof (inject_Z_le 0 (view_size s) ltac:(lia)) as V0.
  change (inject_Z 0) with 0 in V0.
  set (m := multiplier s) in *. set (fp := float_of_int p) in *.
  assert (A0 : 0 <= m * fp) by (apply Qmult_le_0_compat; lra).
  assert (A1 : m * fp <= inject_Z (view_size s)).
  { assert (m * fp <= m * 599).
    { rewrite (Qmult_comm m fp), (Qmult_comm m 599).
      apply Qmult_le_compat_r; lra. }
    lra. }
  assert (T0 : 0 <= fmul m fp).
  { unfold fmul. rewrite <- (fl64_Z 0) by reflexivity. now apply fl64_mono. }
  assert (T1 : fmul m fp <= inject_Z (view_size s)).
  { unfold fmul. rewrite <- (fl64_Z (view_size s)) by lia. now apply fl64_mono. }
  unfold fadd. apply int_fl_between; try lia.
  - lra.
  - rewrite inject_Z_plus. lra.
Qed.

Local Close Scope Q_scope.

(** X19: a right click selects a pixel of the displayed crop.  With the
    view inside an image of fewer than [2^44] pixels a side, a right click
    at window position [(x, y)], [0 <= x < 2 * WIN_SIZE] and
    [0 <= y < WIN_SIZE], puts the target column of the clicked pane
    between that pane's view origin and origin plus view size, leaves the
    other pane's target column alone, and puts the target row between
    [view_y] and [view_y + view_size]. *)
Theorem right_click_in_view (s : t) (x y : Z) :
  view_inside s -> 0 <= view_size s ->
  img_width s < 2 ^ 44 -> img_height s < 2 ^ 44 ->
  0 <= x < 2 * WIN_SIZE -> 0 <= y < WIN_SIZE ->
  (if x <? WIN_SIZE
   then view_xl s <= target_xl (right_down x y s) <= view_xl s + view_size s /\
        target_xr (right_down x y s) = target_xr s
   else view_xr s <= target_xr (right_down x y s) <= view_xr s + view_size s /\
        target_xl (right_down x y s) = target_xl s) /\
  view_y s <= target_y (right_down x y s) <= view_y s + view_size s.
Proof.
  intros (X0 & X1 & R0 & R1 & Y0 & Y1) Hv Hw Hh Hx Hy.
  unfold right_down, side_of.
  destruct (x <? WIN_SIZE) eqn:Ex;
    [apply Z.ltb_lt in Ex | apply Z.ltb_ge in Ex];
    cbn [set_target_xl set_target_xr set_target_y target_xl target_xr target_y
         view_xl view_xr view_y view_size];
    (split; [split; [| reflexivity] |]).
  - apply click_bounds; lia.
  - apply (click_bounds s (view_y s) y); lia.
  - apply click_bounds; unfold WIN_SIZE in *; lia.
  - apply (click_bounds s (view_y s) y); lia.
Qed.

Lemma right_click_in_view_witness :
  view_inside (init 640 480) /\
  view_y (init 640 480)
    <= target_y (right_down 700 450 (init 640 480))
    <= view_y (init 640 480) + view_size (init 640 480).
Proof.
  split; [unfold view_inside; simpl; lia |].
  apply (right_click_in_view (init 640 480) 700 450);
    unfold view_inside, WIN_SIZE; simpl; lia.
Defined.

(** X20: zooming out and back in.  When the doubled view still fits the
    image, key 'z' followed by key 'x' restores the view size; key 'x'
    followed by key 'z' restores it only up to the bit that halving
    dropped: the size comes back as [2 * (size / 2)]. *)
Theorem zoom_roundtrip (s : t) :
  100 < view_size s ->
  2 * view_size s <= Z.min (img_width s) (img_height s) ->
  Z.min (img_width s) (img_height s) < 2 ^ 53 ->
  view_size (key_x (key_z s)) = view_size s /\
  view_size (key_z (key_x s)) = 2 * (view_size s / 2).
Proof.
  intros Hv Hfit Hsmall. split.
  - unfold key_z. destruct (Z.leb_spec (2 * view_size s) (Z.min (img_width s) (img_height s))); [| lia].
    unfold key_x.
    destruct (clamp_keeps (set_view_size (view_size s * 2) s)) as (Kv & _ & _).
    rewrite Kv. cbn [set_view_size view_size].
    destruct (Z.gtb_spec (view_size s * 2) 100); [| lia].
    cbn [set_view_size view_size].
    rewrite halve_exact by lia. apply Z.div_mul. lia.
  - unfold key_x. destruct (Z.gtb_spec (view_size s) 100); [| lia].
    unfold key_z. cbn [set_view_size view_size img_width img_height].
    rewrite halve_exact by lia.
    pose proof (Z.mul_div_le (view_size s) 2 ltac:(lia)).
    destruct (Z.leb_spec (2 * (view_size s / 2)) (Z.min (img_width s) (img_height s))); [| lia].
    match goal with
    | |- view_size (_clamp_view ?s0) = _ =>
        destruct (clamp_keeps s0) as (Kv & _ & _); rewrite Kv
    end.
    cbn [set_view_size view_size]. lia.
Qed.

Lemma zoom_roundtrip_witness :
  let s := key_x (init 1280 960) in
  100 < view_size s /\ view_size (key_x (key_z s)) = view_size s.
Proof.
  intros s. split; [vm_compute; reflexivity |].
  apply (zoom_roundtrip s); vm_compute; congruence.
Defined.

Lemma clamp1_idem v size lim :
  clamp1 (clamp1 v size lim) size lim = clamp1 v size lim.
Proof.
  unfold clamp1.
  repeat match goal with
         | |- context [if ?b then _ else _] =>
             lazymatch b with
             | context [if _ then _ else _] => fail
             | _ => destruct b eqn:?
             end
         end; lia.
Qed.

Lemma clamp_by_coordinate s :
  _clamp_view s =
  set_view_y (clamp1 (view_y s) (view_size s) (img_height s))
    (set_view_xr (clamp1 (view_xr s) (view_size s) (img_width s))
       (set_view_xl (clamp1 (view_xl s) (view_size s) (img_width s)) s)).
Proof.
  destruct s. unfold _clamp_view, clamp1. split_tests; reflexivity.
Qed.

Lemma mouse_move_absorbs x1 y1 x2 y2 s :
  mouse_move x2 y2 (mouse_move x1 y1 s) = mouse_move x2 y2 s.
Proof.
  unfold mouse_move at 2. destruct (dragging s) eqn:Hd; [| reflexivity].
  destruct s as [vs xl xr vy dr side mx my dx dy txl txr ty w h].
  cbn [dragging] in Hd. subst dr.
  unfold mouse_move.
  rewrite !clamp_by_coordinate.
  destruct side as [[|] |];
    cbv beta iota zeta
      delta [is_left dragging drag_side drag_mouse_x drag_mouse_y drag_view_x
             drag_view_y set_view_xl set_view_xr set_view_y view_size view_xl
             view_xr view_y img_width img_height multiplier target_xl target_xr
             target_y];
    rewrite ?clamp1_idem; reflexivity.
Qed.

Lemma moves_absorbed ps x y s :
  run (moves ps ++ [MouseMove x y]) s = mouse_move x y s.
Proof.
  revert s. induction ps as [| p ps IH]; intros s; [reflexivity |].
  unfold run in *. cbn [moves map app fold_left handle].
  unfold moves in IH. rewrite IH. apply mouse_move_absorbs.
Qed.

Lemma py_int_zero_product m : py_int (fmul m (float_of_int 0)) = 0.
Proof.
  unfold fmul. change (float_of_int 0) with 0%Q.
  assert (E : (fl64 (m * 0) == 0)%Q).
  { rewrite (fl64_proper (m * 0) 0) by ring. reflexivity. }
  rewrite (py_int_proper _ 0%Q); [reflexivity | lra | exact E].
Qed.

(** X21: a drag follows the pointer, not its path.  Mouse moves do not
    accumulate: after any run of mouse moves the selector is in the state
    that the last move alone would have produced, whether or not a drag
    is in progress. *)
Theorem drag_ignores_path (s : t) (ps : list (Z * Z)) (x y : Z) :
  run (moves ps ++ [MouseMove x y]) s = run [MouseMove x y] s.
Proof. apply moves_absorbed. Qed.

(** X22: dragging back to the press point.  With the view inside the
    image, pressing the left button at [(x, y)], moving the mouse along
    any path and returning to [(x, y)] leaves the view where it was
    before the press. *)
Theorem drag_back_restores (s : t) (ps : list (Z * Z)) (x y : Z) :
  view_inside s ->
  let s' := run (LButtonDown x y :: moves ps ++ [MouseMove x y]) s in
  view_xl s' = view_xl s /\ view_xr s' = view_xr s /\
  view_y s' = view_y s /\ view_size s' = view_size s.
Proof.
  intros Hin s'. subst s'.
  change (run (LButtonDown x y :: moves ps ++ [MouseMove x y]) s)
    with (run (moves ps ++ [MouseMove x y]) (left_down x y s)).
  rewrite moves_absorbed.
  unfold mouse_move, left_down.
  cbn [set_dragging set_drag dragging drag_side drag_mouse_x drag_mouse_y
       drag_view_x drag_view_y view_xl view_xr view_y view_size].
  rewrite !Z.sub_diag, !py_int_zero_product, !Z.add_0_r.
  match goal with
  | |- context [_clamp_view ?s0] =>
      assert (Hin0 : view_inside s0)
  end.
  { unfold view_inside in *. unfold side_of.
    destruct (x <? WIN_SIZE); simpl; lia. }
  rewrite (clamp_fixed _ Hin0).
  unfold side_of. destruct (x <? WIN_SIZE); simpl; auto.
Qed.

Lemma drag_back_restores_witness :
  view_inside (init 640 480) /\
  view_xl (run (LButtonDown 30 40 :: moves [(500, 2); (7, 900)] ++ [MouseMove 30 40])
             (init 640 480))
  = view_xl (init 640 480).
Proof.
  assert (Hin : view_inside (init 640 480))
    by (unfold view_inside; simpl; lia).
  split; [exact Hin |].
  apply (drag_back_restores (init 640 480) [(500, 2); (7, 900)] 30 40 Hin).
Defined.

End PixelFacts.

(** ** vehicle_control.py: the camera map *)

Module CameraFacts.
Import CameraControl.
Local Open Scope Z_scope.

Section Dict.
Context {K V : Type} (eqb : K -> K -> bool).
Hypothesis eqb_eq : forall a b, eqb a b = true <-> a = b.

Lemma eqb_same a : eqb a a = true.
Proof. now apply eqb_eq. Qed.

Lemma eqb_other a b : a <> b -> eqb a b = false.
Proof.
  intros Hne. destruct (eqb a b) eqn:E; [| reflexivity].
  apply eqb_eq in E. contradiction.
Qed.

Lemma dict_set_fresh k (v : V) d :
  ~ In k (map fst d) -> dict_set eqb k v d = d ++ [(k, v)].
Proof.
  induction d as [| [k' v'] d IH]; simpl; intros Hn; [reflexivity |].
  rewrite eqb_other by (intros ->; apply Hn; now left).
  rewrite IH; [reflexivity | intros Hin; apply Hn; now right].
Qed.

Lemma dict_set_same_keys k (v : V) d :
  In k (map fst d) -> map fst (dict_set eqb k v d) = map fst d.
Proof.
  induction d as [| [k' v'] d IH]; simpl; intros Hin; [contradiction |].
  destruct (eqb k k') eqn:E.
  - apply eqb_eq in E. subst. reflexivity.
  - simpl. f_equal. apply IH. destruct Hin as [-> | Hin]; [| exact Hin].
    rewrite eqb_same in E. discriminate.
Qed.

Lemma dict_get_set_same k (v : V) d :
  dict_get eqb k (dict_set eqb k v d) = Some v.
Proof.
  induction d as [| [k' v'] d IH]; simpl.
  - now rewrite eqb_same.
  - destruct (eqb k k') eqn:E; simpl.
    + now rewrite eqb_same.
    + now rewrite E.
Qed.

Lemma dict_get_set_other k k' (v : V) d :
  k <> k' -> dict_get eqb k' (dict_set eqb k v d) = dict_get eqb k' d.
Proof.
  intros Hne. induction d as [| [k0 v0] d IH]; simpl.
  - rewrite eqb_other by congruence. reflexivity.
  - destruct (eqb k k0) eqn:E; simpl.
    + apply eqb_eq in E. subst k0. now rewrite !eqb_other by congruence.
    + destruct (eqb k' k0); [reflexivity | exact IH].
Qed.

Lemma comprehension_from d (items : list (K * V)) :
  List.NoDup (map fst (d ++ items)) ->
  fold_left (fun d kv => dict_set eqb (fst kv) (snd kv) d) items d = d ++ items.
Proof.
  revert d. induction items as [| [k v] items IH]; intros d Hnd; simpl.
  - now rewrite app_nil_r.
  - rewrite dict_set_fresh.
    + rewrite IH; rewrite <- app_assoc; [reflexivity | exact Hnd].
    + rewrite map_app in Hnd. simpl in Hnd.
      apply List.NoDup_remove_2 in Hnd. intros Hin. apply Hnd.
      apply in_or_app. now left.
Qed.

Lemma dict_of_items_distinct (items : list (K * V)) :
  List.NoDup (map fst items) -> dict_of_items eqb items = items.
Proof. intros Hnd. unfold dict_of_items. now rewrite comprehension_from. Qed.

Lemma dict_get_constant (v : V) ks k :
  In k ks -> dict_get eqb k (map (fun k0 => (k0, v)) ks) = Some v.
Proof.
  induction ks as [| k0 ks IH]; simpl; intros Hin; [contradiction |].
  destruct (eqb k k0) eqn:E; [reflexivity |].
  apply IH. destruct Hin as [-> | Hin]; [| exact Hin].
  rewrite eqb_same in E. discriminate.
Qed.

End Dict.

Lemma injective_NoDup {A B} (f : A -> B) (l : list A) :
  (forall a b, f a = f b -> a = b) -> List.NoDup l -> List.NoDup (map f l).
Proof.
  intros Hinj Hnd. induction Hnd as [| c l Hn Hnd IH]; simpl.
  - constructor.
  - constructor; [| exact IH].
    intros Hin. apply in_map_iff in Hin as (c' & E & Hin).
    apply Hinj in E. now subst.
Qed.

Lemma string_eqb_eq a b : String.eqb a b = true <-> a = b.
Proof. apply String.eqb_eq. Qed.

Section Cameras.
Context `{Constants} `{CameraEnum}.
Hypothesis Camera_eqb_eq : forall a b, Camera_eqb a b = true <-> a = b.
Hypothesis members_distinct : List.NoDup Camera_members.
Hypothesis members_all : forall cam, In cam Camera_members.
Hypothesis values_distinct :
  forall a b, Camera_value a = Camera_value b -> a = b.

Lemma all_off_keys : map fst all_off = Camera_members.
Proof. unfold all_off. rewrite map_map. simpl. apply map_id. Qed.

Lemma init_states :
  camera_states init
  = dict_set Camera_eqb Camera_BOTTOM true
      (dict_set Camera_eqb Camera_FRONT true all_off).
Proof.
  unfold init. cbn [camera_states]. fold all_off.
  rewrite (dict_of_items_distinct Camera_eqb Camera_eqb_eq); [reflexivity |].
  now rewrite all_off_keys.
Qed.

Lemma set_keeps_keys cam (v : bool) (d : list (Camera * bool)) :
  map fst d = Camera_members ->
  map fst (dict_set Camera_eqb cam v d) = Camera_members.
Proof.
  intros E. rewrite (dict_set_same_keys Camera_eqb Camera_eqb_eq); [exact E |].
  rewrite E. apply members_all.
Qed.

Lemma values_NoDup : List.NoDup (map Camera_value Camera_members).
Proof. now apply injective_NoDup. Qed.

Lemma cams_dict_keys d :
  map fst d = Camera_members ->
  map fst (dict_of_items String.eqb
             (map (fun cv : Camera * bool => (Camera_value (fst cv), snd cv)) d))
  = map Camera_value Camera_members.
Proof.
  intros E.
  assert (Ek : map fst (map (fun cv : Camera * bool =>
                               (Camera_value (fst cv), snd cv)) d)
               = map Camera_value Camera_members).
  { rewrite map_map. simpl. rewrite <- E, map_map. reflexivity. }
  rewrite (dict_of_items_distinct String.eqb string_eqb_eq); [exact Ek |].
  rewrite Ek. apply values_NoDup.
Qed.

Lemma complete_init : complete init.
Proof.
  split; [| constructor].
  rewrite init_states. apply set_keeps_keys, set_keeps_keys, all_off_keys.
Qed.

Lemma complete_perform c s : complete s -> complete (perform c s).
Proof.
  intros [Hk Hr]. destruct c as [c | cam enabled]; cbn [perform].
  - split; assumption.
  - unfold set_camera_enabled.
    destruct (negb (VehicleControl.is_connected (link s))); [now split |].
    unfold send_camera_state, log_camera, set_camera_states.
    cbn [camera_states camera_record link].
    pose proof (set_keeps_keys cam enabled _ Hk) as Hk'.
    split; [exact Hk' |].
    rewrite <- app_assoc. apply List.Forall_app. split; [exact Hr |].
    constructor; [| constructor; [| constructor]]; cbn [effect_keys].
    + rewrite <- Hk', map_map. reflexivity.
    + now apply cams_dict_keys.
Qed.

Lemma complete_run cs s : complete s -> complete (run cs s).
Proof.
  revert s. unfold run.
  induction cs as [| c cs IH]; intros s Hs; [exact Hs |].
  cbn [fold_left]. apply IH. now apply complete_perform.
Qed.

(** X23: the camera map is always the full map.  When the enum's members
    are distinct with distinct values, then after any calls on the object
    the camera map has exactly one entry per camera, in the enum's order;
    and every [cameras_set_signal] emitted and every payload handed to a
    camera task lists every camera exactly once: no call ever sends a
    partial map. *)
Theorem camera_map_complete (cs : list call) :
  map fst (camera_states (run cs init)) = Camera_members /\
  List.Forall (fun e => effect_keys e = map Camera_value Camera_members)
    (camera_record (run cs init)).
Proof. apply complete_run, complete_init. Qed.

(** X24: what [set_camera_enabled] does.  Disconnected, the call changes
    nothing and sends nothing.  Connected, the named camera's flag becomes
    [enabled], every other camera keeps its flag, the link state is left
    alone, and exactly two things happen, in this order: the signal is
    emitted with the new map, and one camera task is started, whose
    payload carries the same flags under the cameras' values. *)
Theorem set_camera_enabled_effect (cam : Camera) (enabled : bool) (s : t) :
  map fst (camera_states s) = Camera_members ->
  let s' := set_camera_enabled cam enabled s in
  (VehicleControl.connected (link s) = false -> s' = s) /\
  (VehicleControl.connected (link s) = true ->
   dict_get Camera_eqb cam (camera_states s') = Some enabled /\
   (forall c, c <> cam ->
      dict_get Camera_eqb c (camera_states s')
      = dict_get Camera_eqb c (camera_states s)) /\
   link s' = link s /\
   exists payload,
     camera_record s'
     = camera_record s
       ++ [cameras_set_signal (camera_states s'); camera_task payload] /\
     payload
     = map (fun cv => (Camera_value (fst cv), snd cv)) (camera_states s')).
Proof.
  intros Hk s'. subst s'. unfold set_camera_enabled, VehicleControl.is_connected.
  split; intros Hc; rewrite Hc; cbn [negb]; [reflexivity |].
  unfold send_camera_state, log_camera, set_camera_states.
  cbn [camera_states camera_record link].
  split; [apply (dict_get_set_same Camera_eqb Camera_eqb_eq) |].
  split; [intros c Hne;
          apply (dict_get_set_other Camera_eqb Camera_eqb_eq); congruence |].
  split; [reflexivity |].
  eexists. split; [rewrite <- app_assoc; reflexivity |].
  apply (dict_of_items_distinct String.eqb string_eqb_eq).
  rewrite map_map. cbn [fst].
  pose proof (set_keeps_keys cam enabled _ Hk) as Hk'.
  rewrite <- (map_map (@fst Camera bool) Camera_value), Hk'. apply values_NoDup.
Qed.

(** X25: the cameras [__init__] turns on.  In a fresh object the front
    and bottom cameras are enabled and every other camera is disabled,
    and nothing has been sent. *)
Theorem init_cameras (cam : Camera) :
  dict_get Camera_eqb cam (camera_states init)
  = Some (Camera_eqb cam Camera_FRONT || Camera_eqb cam Camera_BOTTOM) /\
  camera_record init = [].
Proof.
  split; [| reflexivity].
  rewrite init_states.
  destruct (Camera_eqb cam Camera_BOTTOM) eqn:Eb.
  - apply Camera_eqb_eq in Eb. subst cam.
    rewrite (dict_get_set_same Camera_eqb Camera_eqb_eq).
    now rewrite orb_true_r.
  - rewrite (dict_get_set_other Camera_eqb Camera_eqb_eq)
      by (intros E; rewrite <- E, (eqb_same Camera_eqb Camera_eqb_eq) in Eb;
          discriminate).
    rewrite orb_false_r.
    destruct (Camera_eqb cam Camera_FRONT) eqn:Ef.
    + apply Camera_eqb_eq in Ef. subst cam.
      apply (dict_get_set_same Camera_eqb Camera_eqb_eq).
    + rewrite (dict_get_set_other Camera_eqb Camera_eqb_eq)
        by (intros E; rewrite <- E, (eqb_same Camera_eqb Camera_eqb_eq) in Ef;
          discriminate).
      apply (dict_get_constant Camera_eqb Camera_eqb_eq). apply members_all.
Qed.

End Cameras.

Lemma deck_eqb_eq (a b : deck_camera) : deck_camera_eqb a b = true <-> a = b.
Proof. destruct a, b; simpl; split; congruence. Qed.

Lemma deck_distinct : List.NoDup [cam_front; cam_bottom; cam_back].
Proof. repeat constructor; simpl; intuition discriminate. Qed.

Lemma deck_all (cam : deck_camera) : In cam [cam_front; cam_bottom; cam_back].
Proof. destruct cam; simpl; auto. Qed.

Lemma deck_values (a b : deck_camera) :
  @Camera_value deck a = @Camera_value deck b -> a = b.
Proof. destruct a, b; simpl; congruence. Qed.

Lemma camera_map_complete_witness :
  List.NoDup (@Camera_members deck) /\
  map fst (camera_states
             (@run ardusub deck
                [c_set_camera_enabled cam_back true;
                 on_link VehicleControl.c_disarm;
                 c_set_camera_enabled cam_front false]
                init))
  = [cam_front; cam_bottom; cam_back].
Proof.
  split; [exact deck_distinct |].
  apply (@camera_map_complete ardusub deck deck_eqb_eq deck_distinct deck_all
           deck_values).
Defined.

Lemma set_camera_enabled_effect_witness :
  map fst (camera_states deck_linked) = @Camera_members deck /\
  dict_get deck_camera_eqb cam_back
    (camera_states (set_camera_enabled cam_back true deck_linked))
  = Some true.
Proof.
  assert (Hk : map fst (camera_states deck_linked) = @Camera_members deck)
    by reflexivity.
  split; [exact Hk |].
  apply (@set_camera_enabled_effect deck deck_eqb_eq deck_distinct deck_all
           deck_values cam_back true deck_linked Hk).
  reflexivity.
Defined.

Lemma init_cameras_witness :
  (forall cam, In cam (@Camera_members deck)) /\
  dict_get deck_camera_eqb cam_back (camera_states (@init deck)) = Some false.
Proof.
  split; [exact deck_all |].
  apply (@init_cameras deck deck_eqb_eq deck_distinct deck_all cam_back).
Defined.

End CameraFacts.
